(** * sync-node: a shallow embedding of the Trello <-> Notion sync engine

    The development follows the layout of the repository:
    - [Js]       the fragment of the host language the code relies on
                 (primitive values, truthiness, [String(...)], [trim],
                 objects used as ordered dictionaries);
    - [Mapping]  src/utils/mapping.js  (record mapper, [hasChanged]);
    - [Notion]   src/services/notion.js (property accessors, remote calls);
    - [Trello]   src/services/trello.js (card listing filter, remote calls);
    - [Engine]   src/sync/syncEngine.js (the reconciliation pass);
    - [Http]     src/services/trello.js ([makeRequest] and the request of
                 each method of the service);
    - [Logger]   src/utils/logger.js;
    - [Config]   src/config/config.js;
    - [Webhook]  src/webhook/webhookServer.js;
    - [Main]     src/index.js;
    - [Service]  src/strategies/pollingStrategy.js and
                 src/services/syncService.js.

    [Spec] and [Vocabulary] hold the vocabulary of the specification, [Sim]
    a simulated pair of stores, and [Replay] what a pass can change of
    them; the theorems follow the definitions.

    Numbers are IEEE-754 binary64 values (Rocq's primitive floats), which is
    what a JavaScript number is.  Strings are sequences of code units below
    256.  Remote services are an abstract interface; a computation emits
    the requests it sends together with their outcomes. *)

From Stdlib Require Import ZArith List String Ascii Lia Permutation Sorted.
From Stdlib Require Import Floats.
From stdpp Require Import base option list gmap strings pretty.

#[local] Set Warnings "-inexact-float".
#[local] Open Scope string_scope.
#[local] Open Scope list_scope.

(** ** The host language *)

Module Js.

(** Primitive values: what a property access on the JSON of either service
    can yield. *)
Inductive value :=
| VUndefined
| VNull
| VBool (b : bool)
| VNumber (x : float)
| VString (s : string).

(** [v == null] *)
Definition is_nullish (v : value) : bool :=
  match v with VUndefined | VNull => true | _ => false end.

(** [typeof v === 'number'] *)
Definition is_number (v : value) : bool :=
  match v with VNumber _ => true | _ => false end.

(** ToBoolean *)
Definition truthy (v : value) : bool :=
  match v with
  | VUndefined | VNull => false
  | VBool b => b
  | VNumber x => negb (PrimFloat.eqb x 0 || PrimFloat.is_nan x)
  | VString s => negb (String.eqb s "")
  end.

(** The two conversions between numbers and their decimal notation are
    primitives of the host. *)
Class Host := {
  number_to_string : float -> string;   (* Number::toString(x) *)
  string_to_number : string -> float    (* StringToNumber(s)   *)
}.

Section Conversions.
Context {host : Host}.

(** [String(v)] *)
Definition toStr (v : value) : string :=
  match v with
  | VUndefined => "undefined"
  | VNull => "null"
  | VBool true => "true"
  | VBool false => "false"
  | VNumber x => number_to_string x
  | VString s => s
  end.

(** [Number(v)] *)
Definition toNumber (v : value) : float :=
  match v with
  | VUndefined => PrimFloat.nan
  | VNull => 0%float
  | VBool true => 1%float
  | VBool false => 0%float
  | VNumber x => x
  | VString s => string_to_number s
  end.
End Conversions.

(** White space and line terminators among the code units below 256:
    TAB, LF, VT, FF, CR, SP, NBSP. *)
Definition is_space (a : ascii) : bool :=
  let n := N_of_ascii a in
  ((9 <=? n) && (n <=? 13) || (n =? 32) || (n =? 160))%N.

Fixpoint trimStart (s : string) : string :=
  match s with
  | EmptyString => EmptyString
  | String a r => if is_space a then trimStart r else s
  end.

Fixpoint trimEnd (s : string) : string :=
  match s with
  | EmptyString => EmptyString
  | String a r =>
      match trimEnd r with
      | EmptyString => if is_space a then EmptyString else String a EmptyString
      | r' => String a r'
      end
  end.

(** [s.trim()] *)
Definition trim (s : string) : string := trimEnd (trimStart s).

(** [s.startsWith(p)] *)
Definition startsWith (s p : string) : bool := String.prefix p s.

(** [s.replace(/-/g, '')] *)
Fixpoint remove_dashes (s : string) : string :=
  match s with
  | EmptyString => EmptyString
  | String a r => if Ascii.eqb a "-" then remove_dashes r else String a (remove_dashes r)
  end.

(** *** Objects used as dictionaries

    A plain object filled by assignments [o[k] = v] keeps its keys in
    insertion order, except that keys which are array indices (canonical
    decimal numerals below 2^32 - 1) are enumerated first, in ascending
    numeric order.

    An [obj] holds the own properties of such an object.  The object also
    answers for the names of the members of [Object.prototype]
    ([inherited]): for such a name [k] that is no own property, [o[k]] is
    the inherited member (a function, or the prototype for [__proto__]),
    which is truthy and is no array, and [o['__proto__'] = v] stores no own
    property.  The code that groups cards raises at such a name, which is
    modelled ([Trello.push_group]); where the code would pass the
    inherited member on as a value, the embedding is exact only for keys
    that are not [inherited], and the theorems say so. *)

Definition obj (A : Type) := list (string * A).

(** The names of the members of [Object.prototype]. *)
Definition inheritedNames : list string :=
  ["constructor"; "__defineGetter__"; "__defineSetter__"; "hasOwnProperty";
   "__lookupGetter__"; "__lookupSetter__"; "isPrototypeOf";
   "propertyIsEnumerable"; "toString"; "valueOf"; "__proto__";
   "toLocaleString"].

Definition inherited (k : string) : bool := existsb (String.eqb k) inheritedNames.

Definition digit_of (a : ascii) : option N :=
  let n := N_of_ascii a in
  if ((48 <=? n) && (n <=? 57))%N then Some (n - 48)%N else None.

Fixpoint digits_value (acc : N) (s : string) : option N :=
  match s with
  | EmptyString => Some acc
  | String a r =>
      match digit_of a with
      | Some d => digits_value (acc * 10 + d)%N r
      | None => None
      end
  end.

(** The numeric value of a key that is an array index. *)
Definition array_index (k : string) : option N :=
  match k with
  | EmptyString => None
  | String a r =>
      if Ascii.eqb a "0" && negb (String.eqb r "") then None
      else match digits_value 0 k with
           | Some n => if (n <? 4294967295)%N then Some n else None
           | None => None
           end
  end.

Section Obj.
Context {A : Type}.

(** [o[k]] where [k] is an own property or is not [inherited]. *)
Fixpoint get (o : obj A) (k : string) : option A :=
  match o with
  | [] => None
  | (k', v) :: o' => if String.eqb k' k then Some v else get o' k
  end.

(** [o[k] = v] *)
Fixpoint set (o : obj A) (k : string) (v : A) : obj A :=
  match o with
  | [] => [(k, v)]
  | (k', v') :: o' =>
      if String.eqb k' k then (k', v) :: o' else (k', v') :: set o' k v
  end.

Fixpoint insert_by_index (n : N) (kv : string * A)
         (l : list (N * (string * A))) : list (N * (string * A)) :=
  match l with
  | [] => [(n, kv)]
  | (m, kv') :: l' =>
      if (n <? m)%N then (n, kv) :: l else (m, kv') :: insert_by_index n kv l'
  end.

(** The array-index keys, in ascending numeric order. *)
Fixpoint index_keys (o : obj A) : list (N * (string * A)) :=
  match o with
  | [] => []
  | (k, v) :: o' =>
      match array_index k with
      | Some n => insert_by_index n (k, v) (index_keys o')
      | None => index_keys o'
      end
  end.

Definition is_named (kv : string * A) : bool :=
  match array_index (fst kv) with Some _ => false | None => true end.

(** [Object.entries(o)] *)
Definition entries (o : obj A) : list (string * A) :=
  map snd (index_keys o) ++ List.filter is_named o.

(** [Object.values(o)] *)
Definition values (o : obj A) : list A := map snd (entries o).
End Obj.

End Js.

Import Js.

(** ** src/services/notion.js: data and property accessors *)

Module Notion.

(** One property of a database entry, as the API returns it and as
    [pages.create] / [pages.update] accept it. *)
Inductive property :=
| PTitle (contents : list string)              (* title: [{text: {content}}] *)
| PRichText (contents : list string)           (* rich_text: [{text: {content}}] *)
| PSelect (name : option string)               (* select: {name} | null *)
| PNumber (number : value)                     (* number: n | null *)
| PFormula (ftype : string) (number : value)   (* formula: {type, number} *)
| PCheckbox (checkbox : bool).                 (* checkbox: b *)

Record entry := {
  entry_id : string;
  properties : gmap string property
}.

Definition extractRichTextValue (p : option property) : string :=
  match p with
  | Some (PRichText (content :: _)) => content
  | _ => ""
  end.

Definition extractTitleValue (p : option property) : string :=
  match p with
  | Some (PTitle (content :: _)) => content
  | _ => ""
  end.

Definition extractSelectValue (p : option property) : string :=
  match p with
  | Some (PSelect (Some name)) => name
  | _ => ""
  end.

Definition extractNumberValue (p : option property) : value :=
  match p with
  | Some (PNumber n) => n
  | _ => VUndefined
  end.

Definition extractNumericValue (p : option property) : value :=
  match p with
  | Some (PNumber VUndefined) => VNull
  | Some (PNumber n) => n
  | Some (PFormula ftype n) => if String.eqb ftype "number" then n else VNull
  | _ => VNull
  end.

Definition extractCheckboxValue (p : option property) : bool :=
  match p with
  | Some (PCheckbox b) => b
  | _ => false
  end.

Definition generateNotionPageUrl (pageId : string) : string :=
  ("https://www.notion.so/" ++ remove_dashes pageId)%string.

(** The cross-reference of an entry: the text of its 'Trello ID'. *)
Definition trelloIdOf (e : entry) : string :=
  extractRichTextValue (properties e !! "Trello ID").

End Notion.

(** ** src/services/trello.js: data and the listing filter *)

Module Trello.

(** [item.value]: an absent component is [VUndefined]. *)
Record itemValue := {
  number : value;
  text : value;
  checked : value
}.

Record customFieldItem := {
  idCustomField : string;
  item_value : itemValue
}.

(** [dateLastActivity] is the time value of [new Date(card.dateLastActivity)]. *)
Record card := {
  card_id : string;
  card_name : string;
  idList : string;
  customFieldItems : option (list customFieldItem);
  dateLastActivity : Z
}.

Record boardList := { list_id : string; list_name : string }.

Record customField := { field_id : string; field_name : string }.

Definition trimmedName (c : card) : string := trim (card_name c).

(** [if (!groups[k]) groups[k] = []; groups[k].push(c)].  At a name that
    every object inherits and that is no own property, [groups[k]] is the
    inherited member: nothing is stored, and [push] is no function of it,
    so a TypeError is raised ([None]). *)
Definition push_group (key : card -> string) (groups : obj (list card)) (c : card)
  : option (obj (list card)) :=
  match get groups (key c) with
  | Some g => Some (set groups (key c) (g ++ [c]))
  | None => if inherited (key c) then None else Some (set groups (key c) [c])
  end.

(** [cards.forEach(card => { ... groups[key(card)].push(card) })] *)
Definition groupBy (key : card -> string) (cards : list card)
  : option (obj (list card)) :=
  foldl (fun groups c => groups ≫= fun g => push_group key g c) (Some []) cards.

(** The same grouping where no name is inherited. *)
Definition add_to_group (key : card -> string) (groups : obj (list card)) (c : card)
  : obj (list card) :=
  match get groups (key c) with
  | None => set groups (key c) [c]
  | Some g => set groups (key c) (g ++ [c])
  end.

Definition groupsOf (key : card -> string) (cards : list card) : obj (list card) :=
  foldl (add_to_group key) [] cards.

Fixpoint insert_by_date (c : card) (l : list card) : list card :=
  match l with
  | [] => [c]
  | d :: l' =>
      if (dateLastActivity d <? dateLastActivity c)%Z
      then d :: insert_by_date c l'
      else c :: l
  end.

(** [cards.sort((a, b) => new Date(a.dateLastActivity) - new Date(b.dateLastActivity))]:
    ascending, stable. *)
Definition sort_by_date (cards : list card) : list card :=
  foldr insert_by_date [] cards.

Definition contentCurriculumList : string := "686df2204803664e4331f70d".

Definition cardToKeep (duplicateCards : list card) : option card :=
  match duplicateCards with
  | [c] => Some c
  | _ =>
      let sorted := sort_by_date duplicateCards in
      let nonContentCurriculumCards :=
        List.filter (fun c => negb (String.eqb (idList c) contentCurriculumList)) sorted in
      let originalCards :=
        List.filter (fun c => negb (startsWith (card_id c) "688bc")) sorted in
      match nonContentCurriculumCards with
      | c :: _ => Some c
      | [] => match originalCards with
              | c :: _ => Some c
              | [] => head sorted
              end
      end
  end.

(** [Object.entries(cardsByName).forEach(... keptCards.push(cardToKeep))] *)
Definition keptOf (cardsByName : obj (list card)) : list card :=
  flat_map (fun kv => option_list (cardToKeep (snd kv))) (entries cardsByName).

(** [None]: the grouping by title raised. *)
Definition removeProblematicCards (cards : list card) : option (list card) :=
  cardsByName ← groupBy trimmedName cards;
  Some (keptOf cardsByName).

(** The cards kept where no title is inherited. *)
Definition keptCards (cards : list card) : list card :=
  keptOf (groupsOf trimmedName cards).

End Trello.

(** ** src/utils/mapping.js *)

Module Mapping.
Import Notion Trello.

Section WithHost.
Context {host : Host}.

(** [customFields.X] *)
Definition field (customFields : gmap string value) (k : string) : value :=
  default VUndefined (customFields !! k).

Definition setNumber (k : string) (customFields : gmap string value)
           (props : gmap string property) : gmap string property :=
  if is_nullish (field customFields k) then props
  else <[k := PNumber (VNumber (toNumber (field customFields k)))]> props.

Definition mapTrelloToNotion (trelloCard : card) (customFields : gmap string value)
           (listName : string) : gmap string property :=
  let props : gmap string property :=
    <["Trello ID" := PRichText [card_id trelloCard]]>
    (<["Department" := PSelect (Some (if String.eqb listName "" then "Unknown" else listName))]>
    (<["Priority Name" := PTitle [card_name trelloCard]]> ∅)) in
  let props := setNumber "Reach" customFields props in
  let props := setNumber "Confidence" customFields props in
  let props := setNumber "Effort" customFields props in
  let props := setNumber "Impact" customFields props in
  <["synced" := PCheckbox true]> props.

Record trelloUpdate := {
  update_name : option string;        (* update.name, when set *)
  update_customFields : obj value     (* customFields, in assignment order *)
}.

Definition copyNumber (k : string) (props : gmap string property)
           (customFields : obj value) : obj value :=
  match props !! k with
  | Some (PNumber n) => if is_nullish n then customFields else set customFields k n
  | _ => customFields
  end.

Definition mapNotionToTrello (notionEntry : entry) : trelloUpdate :=
  let props := properties notionEntry in
  let name :=
    match props !! "Priority Name" with
    | Some (PTitle (content :: _)) =>
        if String.eqb content "" then None else Some content
    | _ => None
    end in
  let customFields := copyNumber "Reach" props [] in
  let customFields := copyNumber "Confidence" props customFields in
  let customFields := copyNumber "Effort" props customFields in
  let customFields := copyNumber "Impact" props customFields in
  {| update_name := name;
     update_customFields := set customFields "synced" (VBool true) |}.

Definition itemValueOf (v : itemValue) : value :=
  match number v with
  | VUndefined =>
      match text v with
      | VUndefined =>
          match checked v with
          | VUndefined => VNumber 0
          | VString s => VBool (String.eqb s "true")
          | _ => VBool false
          end
      | t => t
      end
  | n => n
  end.

Definition extractTrelloCustomFields (trelloCard : card)
           (boardCustomFields : list customField) : gmap string value :=
  match customFieldItems trelloCard with
  | None => ∅
  | Some items =>
      let fieldMap : gmap string string :=
        foldl (fun m f => <[field_id f := field_name f]> m) ∅ boardCustomFields in
      foldl (fun (customFields : gmap string value) item =>
               match fieldMap !! idCustomField item with
               | Some fieldName =>
                   if String.eqb fieldName "" then customFields
                   else <[fieldName := itemValueOf (item_value item)]> customFields
               | None => customFields
               end) ∅ items
  end.

Definition hasChanged (value1 value2 : value) : bool :=
  if is_nullish value1 && is_nullish value2 then false
  else if is_nullish value1 || is_nullish value2 then true
  else match value1, value2 with
       | VNumber a, VNumber b =>
           PrimFloat.ltb 0.001 (PrimFloat.abs (PrimFloat.sub a b))
       | _, _ => negb (String.eqb (trim (toStr value1)) (trim (toStr value2)))
       end.
End WithHost.

End Mapping.

(** ** Remote services and the effects of the engine *)

Module Remote.
Import Notion Trello.

(** The requests the two service classes send.  Each constructor is one
    method of [TrelloService] (T_) or [NotionService] (N_) that ends in one
    HTTP request. *)
Inductive call :=
| T_getCards
| T_getLists
| T_getCustomFields
| T_updateCard (cardId name : string)
| T_moveCard (cardId listId : string)
| T_updateCustomField (cardId customFieldId : string) (v : value)
| T_updateTextCustomField (cardId customFieldId : string) (v : string)
| T_updateCheckboxCustomField (cardId customFieldId : string) (v : value)
| T_createCard (name : string) (idList : option string)
| T_deleteCard (cardId : string)
| N_getEntries
| N_createEntry (props : gmap string property)
| N_updateEntry (pageId : string) (props : gmap string property)
| N_deletePage (pageId : string).

Definition response (c : call) : Type :=
  match c with
  | T_getCards => list card
  | T_getLists => list boardList
  | T_getCustomFields => list customField
  | T_createCard _ _ => card
  | N_getEntries => list entry
  | _ => unit
  end.

(** A remote world answers a request with a response or a failure and
    moves to its next state. *)
Class Services (W : Type) := {
  perform : forall c : call, W -> option (response c) * W
}.

Record counters := { created : nat; updated : nat }.

Record stats := {
  trelloToNotion : counters;
  notionToTrello : counters;
  errors : nat
}.

(** An event of the trace: a request and whether it succeeded. *)
Definition event : Type := call * bool.

(** The state a pass runs in: the remote world and the engine's
    [this.syncStats]. *)
Record state (W : Type) := {
  world : W;
  syncStats : stats
}.
Arguments world {W}.
Arguments syncStats {W}.

Inductive outcome (A : Type) :=
| Ok (a : A)
| Throw.
Arguments Ok {A}.
Arguments Throw {A}.

(** A computation returns or throws, leaves a state, and emits the
    requests it sent, in order. *)
Definition M (W A : Type) : Type := state W -> outcome A * state W * list event.

Section Monad.
Context {W : Type}.

Definition ret {A} (a : A) : M W A := fun s => (Ok a, s, []).

Definition bind {A B} (m : M W A) (k : A -> M W B) : M W B :=
  fun s => match m s with
           | (Ok a, s1, t1) => let '(r, s2, t2) := k a s1 in (r, s2, t1 ++ t2)
           | (Throw, s1, t1) => (Throw, s1, t1)
           end.

Definition throw {A} : M W A := fun s => (Throw, s, []).

(** [try { m } catch (error) { handler }] *)
Definition try_catch {A} (m handler : M W A) : M W A :=
  fun s => match m s with
           | (Ok a, s1, t1) => (Ok a, s1, t1)
           | (Throw, s1, t1) => let '(r, s2, t2) := handler s1 in (r, s2, t1 ++ t2)
           end.

(** Runs [m] to settlement without raising: the promise of [m]. *)
Definition settle {A} (m : M W A) : M W (outcome A) :=
  fun s => let '(r, s1, t1) := m s in (Ok r, s1, t1).

Definition modify_stats (f : stats -> stats) : M W unit :=
  fun s => (Ok tt, {| world := world s; syncStats := f (syncStats s) |}, []).

Definition get_stats : M W stats := fun s => (Ok (syncStats s), s, []).

(** [for (const x of xs) { body }] *)
Fixpoint forEach {A} (xs : list A) (body : A -> M W unit) : M W unit :=
  match xs with
  | [] => ret tt
  | x :: xs' => bind (body x) (fun _ => forEach xs' body)
  end.

Context {services : Services W}.

(** One request: the world answers and moves on; a failure is a rejected
    promise. *)
Definition request (c : call) : M W (response c) :=
  fun s => let (r, w') := perform c (world s) in
           match r with
           | Some v => (Ok v, {| world := w'; syncStats := syncStats s |}, [(c, true)])
           | None => (Throw, {| world := w'; syncStats := syncStats s |}, [(c, false)])
           end.
End Monad.

Declare Scope sync_scope.
Delimit Scope sync_scope with sync.
Notation "x <- m ;; k" := (bind m (fun x => k))
  (at level 100, m at next level, right associativity) : sync_scope.
Notation "m ;; k" := (bind m (fun _ => k))
  (at level 100, right associativity) : sync_scope.

Definition incr_created (c : counters) : counters :=
  {| created := S (created c); updated := updated c |}.
Definition incr_updated (c : counters) : counters :=
  {| created := created c; updated := S (updated c) |}.

Definition t2n_created (st : stats) : stats :=
  {| trelloToNotion := incr_created (trelloToNotion st);
     notionToTrello := notionToTrello st; errors := errors st |}.
Definition t2n_updated (st : stats) : stats :=
  {| trelloToNotion := incr_updated (trelloToNotion st);
     notionToTrello := notionToTrello st; errors := errors st |}.
Definition n2t_created (st : stats) : stats :=
  {| trelloToNotion := trelloToNotion st;
     notionToTrello := incr_created (notionToTrello st); errors := errors st |}.
Definition n2t_updated (st : stats) : stats :=
  {| trelloToNotion := trelloToNotion st;
     notionToTrello := incr_updated (notionToTrello st); errors := errors st |}.
Definition incr_errors (st : stats) : stats :=
  {| trelloToNotion := trelloToNotion st;
     notionToTrello := notionToTrello st; errors := S (errors st) |}.

Definition zero_stats : stats :=
  {| trelloToNotion := {| created := 0; updated := 0 |};
     notionToTrello := {| created := 0; updated := 0 |};
     errors := 0 |}.

End Remote.

(** ** src/sync/syncEngine.js *)

Module Engine.
Import Notion Trello Mapping Remote.
#[local] Open Scope sync_scope.

Section WithServices.
Context {host : Host} {W : Type} {services : Services W}.

(** *** Service methods used by the engine *)

(** [TrelloService.getCards]: the listing request followed by the
    duplicate filter; what the filter raises rejects the call. *)
Definition getCards : M W (list card) :=
  cards <- request T_getCards ;;
  match removeProblematicCards cards with
  | Some keptCards => ret keptCards
  | None => throw
  end.

Definition getLists : M W (list boardList) := request T_getLists.
Definition getCustomFields : M W (list customField) := request T_getCustomFields.
Definition getEntries : M W (list entry) := request N_getEntries.

(** *** Lookup maps *)

Definition createListMap (trelloLists : list boardList) : gmap string string :=
  foldl (fun m l => <[list_id l := list_name l]> m) ∅ trelloLists.

Definition createListMapReverse (trelloLists : list boardList) : obj string :=
  foldl (fun m l => set m (list_name l) (list_id l)) [] trelloLists.

Definition createCustomFieldMap (trelloCustomFields : list customField)
  : gmap string string :=
  foldl (fun m f => <[field_name f := field_id f]> m) ∅ trelloCustomFields.

Definition createNotionLookupMap (notionEntries : list entry) : gmap string entry :=
  foldl (fun m e => if String.eqb (trelloIdOf e) "" then m
                    else <[trelloIdOf e := e]> m) ∅ notionEntries.

(** [trelloCards.forEach(card => { trelloCardMap[card.id] = card })] *)
Definition createCardMap (trelloCards : list card) : gmap string card :=
  foldl (fun m c => <[card_id c := c]> m) ∅ trelloCards.

(** *** Reading custom field items of a card *)

(** [card.customFieldItems.find(item => item.idCustomField === id)] *)
Definition findItem (trelloCard : card) (customFieldId : string)
  : option (option customFieldItem) :=
  match customFieldItems trelloCard with
  | None => None
  | Some items =>
      Some (List.find (fun item => String.eqb (idCustomField item) customFieldId) items)
  end.

Definition orNull (v : value) : value := if truthy v then v else VNull.

Definition getTrelloCustomFieldValue (trelloCard : card) (customFieldId : string) : value :=
  match findItem trelloCard customFieldId with
  | None => VNull
  | Some None => VNull
  | Some (Some item) => orNull (number (item_value item))
  end.

Definition getTrelloTextCustomFieldValue (trelloCard : card) (customFieldId : string) : value :=
  match findItem trelloCard customFieldId with
  | None => VNull
  | Some None => VNull
  | Some (Some item) => orNull (text (item_value item))
  end.

Definition getTrelloCheckboxCustomFieldValue (trelloCard : card) (customFieldId : string)
  : value :=
  match findItem trelloCard customFieldId with
  | None => VNull
  | Some None => VBool false
  | Some (Some item) =>
      VBool (match checked (item_value item) with
             | VString s => String.eqb s "true"
             | _ => false
             end)
  end.

(** *** Board -> Database *)

Definition fieldsToCheck : list string := ["Reach"; "Confidence"; "Effort"; "Impact"].

Definition shouldUpdateNotionEntry (notionEntry : entry) (trelloCard : card)
           (customFields : gmap string value) (listName : string) : bool :=
  let currentTitle := extractTitleValue (properties notionEntry !! "Priority Name") in
  if hasChanged (VString currentTitle) (VString (card_name trelloCard)) then true
  else
    let currentDepartment := extractSelectValue (properties notionEntry !! "Department") in
    if hasChanged (VString currentDepartment) (VString listName) then true
    else
      existsb (fun fieldName =>
                 hasChanged (extractNumberValue (properties notionEntry !! fieldName))
                            (field customFields fieldName))
              fieldsToCheck.

(** [Object.values(cardsByTrelloId).map(cards => cards[0])] *)
Definition firstOfEach (cardsByTrelloId : obj (list card)) : list card :=
  flat_map (fun g => option_list (head g)) (values cardsByTrelloId).

(** The cards the pass works on, where no card id is inherited. *)
Definition uniqueCards (trelloCards : list card) : list card :=
  firstOfEach (groupsOf card_id trelloCards).

(** [card.id.substring(0, 5)] *)
Definition idPrefix (c : card) : string := substring 0 5 (card_id c).

(** [listIdToNameMap[card.idList] || 'Unknown'] *)
Definition listNameOf (listIdToNameMap : gmap string string) (c : card) : string :=
  match listIdToNameMap !! idList c with
  | Some n => if String.eqb n "" then "Unknown" else n
  | None => "Unknown"
  end.

(** The body of the per-card [try] block. *)
Definition syncCard (listIdToNameMap : gmap string string)
           (trelloCustomFields : list customField)
           (notionByTrelloId : gmap string entry) (c : card) : M W unit :=
  let listName := listNameOf listIdToNameMap c in
  let customFields := extractTrelloCustomFields c trelloCustomFields in
  let notionProperties := mapTrelloToNotion c customFields listName in
  match notionByTrelloId !! card_id c with
  | Some existingNotionEntry =>
      if shouldUpdateNotionEntry existingNotionEntry c customFields listName
      then request (N_updateEntry (entry_id existingNotionEntry) notionProperties) ;;
           modify_stats t2n_updated
      else ret tt
  | None =>
      request (N_createEntry notionProperties) ;;
      modify_stats t2n_created
  end.

(** The three groupings that precede the loop ([cardIdPrefixes],
    [cardsByTrelloId], [cardsByName]) are only logged, except that the
    second gives the cards the loop runs over; they stand outside the
    per-card [try], so what they raise leaves the method. *)
Definition syncTrelloToNotion (trelloCards : list card)
           (listIdToNameMap : gmap string string)
           (trelloCustomFields : list customField)
           (notionByTrelloId : gmap string entry) : M W unit :=
  match groupBy idPrefix trelloCards with
  | None => throw
  | Some cardIdPrefixes =>
      match groupBy card_id trelloCards with
      | None => throw
      | Some cardsByTrelloId =>
          let uniqueCards := firstOfEach cardsByTrelloId in
          match groupBy trimmedName uniqueCards with
          | None => throw
          | Some cardsByName =>
              forEach uniqueCards (fun c =>
                try_catch (syncCard listIdToNameMap trelloCustomFields notionByTrelloId c)
                          (modify_stats incr_errors))
          end
      end
  end.

(** *** Database -> Board *)

(** [listNameToIdMap[department] || Object.values(listNameToIdMap)[0]] *)
Definition defaultListId (listNameToIdMap : obj string) (department : string)
  : option string :=
  match get listNameToIdMap department with
  | Some i => if String.eqb i "" then head (values listNameToIdMap) else Some i
  | None => head (values listNameToIdMap)
  end.

Definition createTrelloCardFromNotion (notionEntry : entry)
           (listNameToIdMap : obj string) : M W unit :=
  let title := extractTitleValue (properties notionEntry !! "Priority Name") in
  let department := extractSelectValue (properties notionEntry !! "Department") in
  let listId := defaultListId listNameToIdMap department in
  newCard <- request (T_createCard (if String.eqb title "" then "Untitled" else title)
                                   listId) ;;
  request (N_updateEntry (entry_id notionEntry)
                         {["Trello ID" := PRichText [card_id newCard]]}) ;;
  customFields <- getCustomFields ;;
  let customFieldMap := createCustomFieldMap customFields in
  match customFieldMap !! "Notion Link" with
  | Some fieldId =>
      if String.eqb fieldId "" then ret tt
      else request (T_updateTextCustomField (card_id newCard) fieldId
                      (generateNotionPageUrl (entry_id notionEntry)))
  | None => ret tt
  end.

(** One iteration of the loop over [Object.entries(customFields)]; the
    result tells whether [hasUpdates] was set. *)
Definition pushCustomField (trelloCard : card) (customFieldMap : gmap string string)
           (kv : string * value) : M W bool :=
  let (fieldName, v) := kv in
  match customFieldMap !! fieldName with
  | Some fieldId =>
      if negb (String.eqb fieldId "") && negb (is_nullish v) then
        (if String.eqb fieldName "synced"
         then request (T_updateCheckboxCustomField (card_id trelloCard) fieldId v)
         else match v with
              | VBool _ => request (T_updateCheckboxCustomField (card_id trelloCard) fieldId v)
              | VString s => request (T_updateTextCustomField (card_id trelloCard) fieldId s)
              | _ => request (T_updateCustomField (card_id trelloCard) fieldId v)
              end) ;;
        ret true
      else ret false
  | None => ret false
  end.

Fixpoint pushCustomFields (trelloCard : card) (customFieldMap : gmap string string)
         (fields : list (string * value)) : M W bool :=
  match fields with
  | [] => ret false
  | kv :: rest =>
      h <- pushCustomField trelloCard customFieldMap kv ;;
      h' <- pushCustomFields trelloCard customFieldMap rest ;;
      ret (h || h')
  end.

Definition updateTrelloFromNotion (notionEntry : entry) (trelloCard : card)
           (listNameToIdMap : obj string) (customFieldMap : gmap string string)
  : M W unit :=
  let u := mapNotionToTrello notionEntry in
  (* Update basic card properties *)
  h1 <- match update_name u with
        | Some name =>
            if hasChanged (VString name) (VString (card_name trelloCard))
            then request (T_updateCard (card_id trelloCard) name) ;; ret true
            else ret false
        | None => ret false
        end ;;
  (* Update list/department *)
  let department := extractSelectValue (properties notionEntry !! "Department") in
  h2 <- match get listNameToIdMap department with
        | Some targetListId =>
            if negb (String.eqb targetListId "")
               && hasChanged (VString targetListId) (VString (idList trelloCard))
            then request (T_moveCard (card_id trelloCard) targetListId) ;; ret true
            else ret false
        | None => ret false
        end ;;
  (* Update custom fields (two-way sync) *)
  h3 <- pushCustomFields trelloCard customFieldMap (entries (update_customFields u)) ;;
  (* One-way sync: Total Score from Notion to Trello *)
  let totalScore := extractNumericValue (properties notionEntry !! "Total Score") in
  h4 <- match customFieldMap !! "Total Score" with
        | Some fieldId =>
            if negb (is_nullish totalScore) && negb (String.eqb fieldId "")
            then request (T_updateCustomField (card_id trelloCard) fieldId totalScore) ;;
                 ret true
            else ret false
        | None => ret false
        end ;;
  (* One-way sync: Notion Link from Notion to Trello *)
  h5 <- match customFieldMap !! "Notion Link" with
        | Some fieldId =>
            if String.eqb fieldId "" then ret false
            else
              let notionPageUrl := generateNotionPageUrl (entry_id notionEntry) in
              let currentNotionLink := getTrelloTextCustomFieldValue trelloCard fieldId in
              if hasChanged currentNotionLink (VString notionPageUrl)
              then request (T_updateTextCustomField (card_id trelloCard) fieldId
                                                    notionPageUrl) ;;
                   ret true
              else ret false
        | None => ret false
        end ;;
  if h1 || h2 || h3 || h4 || h5 then modify_stats n2t_updated else ret tt.

(** The body of the per-entry [try] block of [syncTotalScoreToTrello]. *)
Definition syncTotalScoreEntry (totalScoreFieldId : string)
           (cardMap : gmap string card) (e : entry) : M W unit :=
  let trelloId := trelloIdOf e in
  if String.eqb trelloId "" then ret tt
  else match cardMap !! trelloId with
       | None => ret tt
       | Some trelloCard =>
           let notionTotalScore := extractNumericValue (properties e !! "Total Score") in
           if is_nullish notionTotalScore then ret tt
           else
             let currentTrelloTotalScore :=
               getTrelloCustomFieldValue trelloCard totalScoreFieldId in
             if hasChanged currentTrelloTotalScore notionTotalScore
             then request (T_updateCustomField (card_id trelloCard) totalScoreFieldId
                                               notionTotalScore)
             else ret tt
       end.

Definition syncTotalScoreToTrello (notionEntries : list entry)
           (customFieldMap : gmap string string)
           (trelloCardMap : option (gmap string card)) : M W unit :=
  match customFieldMap !! "Total Score" with
  | Some totalScoreFieldId =>
      if String.eqb totalScoreFieldId "" then ret tt
      else
        cardMap <- match trelloCardMap with
                   | Some m => ret m
                   | None => trelloCards <- getCards ;; ret (createCardMap trelloCards)
                   end ;;
        forEach notionEntries (fun e =>
          try_catch (syncTotalScoreEntry totalScoreFieldId cardMap e)
                    (modify_stats incr_errors))
  | None => ret tt
  end.

(** The body of the per-entry [try] block of [syncNotionToTrello]. *)
Definition syncEntry (listNameToIdMap : obj string)
           (customFieldMap : gmap string string)
           (trelloCardMap : gmap string card) (e : entry) : M W unit :=
  let trelloId := trelloIdOf e in
  if String.eqb trelloId "" then
    createTrelloCardFromNotion e listNameToIdMap ;;
    modify_stats n2t_created
  else match trelloCardMap !! trelloId with
       | None => ret tt
       | Some trelloCard =>
           updateTrelloFromNotion e trelloCard listNameToIdMap customFieldMap
       end.

Definition syncNotionToTrello (notionEntries : list entry)
           (listNameToIdMap : obj string) (customFieldMap : gmap string string)
  : M W unit :=
  trelloCards <- getCards ;;
  let trelloCardMap := createCardMap trelloCards in
  forEach notionEntries (fun e =>
    try_catch (syncEntry listNameToIdMap customFieldMap trelloCardMap e)
              (modify_stats incr_errors)) ;;
  syncTotalScoreToTrello notionEntries customFieldMap (Some trelloCardMap).

(** *** Deletion sync *)

(** [isSynced && trelloId && !trelloCardMap[trelloId]] *)
Definition entryMarkedForDeletion (trelloCardMap : gmap string card) (e : entry) : bool :=
  extractCheckboxValue (properties e !! "synced")
  && negb (String.eqb (trelloIdOf e) "")
  && negb (bool_decide (is_Some (trelloCardMap !! trelloIdOf e))).

(** [isSynced && !notionEntryMap[card.id]] *)
Definition cardMarkedForDeletion (syncedFieldId : string)
           (notionEntryMap : gmap string entry) (c : card) : bool :=
  truthy (getTrelloCheckboxCustomFieldValue c syncedFieldId)
  && negb (bool_decide (is_Some (notionEntryMap !! card_id c))).

Definition deleteEntryIfMarked (trelloCardMap : gmap string card) (e : entry) : M W unit :=
  if entryMarkedForDeletion trelloCardMap e
  then request (N_deletePage (entry_id e)) ;; modify_stats n2t_updated
  else ret tt.

Definition deleteCardIfMarked (syncedFieldId : string)
           (notionEntryMap : gmap string entry) (c : card) : M W unit :=
  if cardMarkedForDeletion syncedFieldId notionEntryMap c
  then request (T_deleteCard (card_id c)) ;; modify_stats t2n_updated
  else ret tt.

Definition handleDeletionSync (trelloCards : list card) (notionEntries : list entry)
           (customFieldMap : gmap string string) : M W unit :=
  match customFieldMap !! "synced" with
  | Some syncedFieldId =>
      if String.eqb syncedFieldId "" then ret tt
      else
        let trelloCardMap := createCardMap trelloCards in
        let notionEntryMap := createNotionLookupMap notionEntries in
        forEach notionEntries (fun e =>
          try_catch (deleteEntryIfMarked trelloCardMap e) (modify_stats incr_errors)) ;;
        forEach trelloCards (fun c =>
          try_catch (deleteCardIfMarked syncedFieldId notionEntryMap c)
                    (modify_stats incr_errors))
  | None => ret tt
  end.

(** *** The full pass *)

Definition resetStats : M W unit := modify_stats (fun _ => zero_stats).

(** What follows the upfront fetch inside the [try] block. *)
Definition reconcile (trelloCards : list card) (trelloLists : list boardList)
           (trelloCustomFields : list customField) (notionEntries : list entry)
  : M W stats :=
  let listIdToNameMap := createListMap trelloLists in
  let listNameToIdMap := createListMapReverse trelloLists in
  let customFieldMap := createCustomFieldMap trelloCustomFields in
  let notionByTrelloId := createNotionLookupMap notionEntries in
  syncTrelloToNotion trelloCards listIdToNameMap trelloCustomFields notionByTrelloId ;;
  syncNotionToTrello notionEntries listNameToIdMap customFieldMap ;;
  handleDeletionSync trelloCards notionEntries customFieldMap ;;
  get_stats.

(** [await Promise.all([getCards(), getLists(), getCustomFields(), getEntries()])]:
    the four requests are all sent, in this order, and the join fails as
    soon as one of them does. *)
Definition fetchAll
  : M W (list card * list boardList * list customField * list entry) :=
  r1 <- settle getCards ;;
  r2 <- settle getLists ;;
  r3 <- settle getCustomFields ;;
  r4 <- settle getEntries ;;
  match r1, r2, r3, r4 with
  | Ok trelloCards, Ok trelloLists, Ok trelloCustomFields, Ok notionEntries =>
      ret (trelloCards, trelloLists, trelloCustomFields, notionEntries)
  | _, _, _, _ => throw
  end.

Definition performSync : M W stats :=
  resetStats ;;
  try_catch
    (fetched <- fetchAll ;;
     let '(trelloCards, trelloLists, trelloCustomFields, notionEntries) := fetched in
     reconcile trelloCards trelloLists trelloCustomFields notionEntries)
    (modify_stats incr_errors ;; throw).

End WithServices.

End Engine.


(** ** Vocabulary of the specification

    The definitions below follow the wording of the specification; the
    theorems further down relate them to the code above. *)

Module Spec.
Import Notion Trello Mapping Remote Engine.

(** *** Record mapper *)

Definition numberOf (v : value) : float :=
  match v with VNumber x => x | _ => PrimFloat.nan end.

(** The four numeric fields bridged between the two sides. *)
Definition numericFields : list string := ["Reach"; "Confidence"; "Effort"; "Impact"].

Section WithHost.
Context {host : Host}.

(** [valuesDiffer(a, b)] as the specification words it: both null or
    undefined, exactly one of them, both numeric, otherwise. *)
Definition valuesDiffer (a b : value) : bool :=
  match is_nullish a, is_nullish b with
  | true, true => false
  | true, false | false, true => true
  | false, false =>
      if is_number a && is_number b
      then PrimFloat.ltb 0.001 (PrimFloat.abs (PrimFloat.sub (numberOf a) (numberOf b)))
      else negb (String.eqb (trim (toStr a)) (trim (toStr b)))
  end.

End WithHost.

(** *** Listings *)

(** The cards of a listing with a given key, in listing order. *)
Definition members (key : card -> string) (k : string) (cards : list card) : list card :=
  List.filter (fun c => String.eqb (key c) k) cards.

(** The first card of a listing with a given key. *)
Definition firstWith (key : card -> string) (k : string) (cards : list card) : option card :=
  List.find (fun c => String.eqb (key c) k) cards.

(** Some card of the list has, as its key, a name that every object
    inherits. *)
Definition inheritedKey (key : card -> string) (cards : list card) : bool :=
  existsb (fun c => inherited (key c)) cards.

(** Neither the id nor the trimmed title of the card is an inherited
    name. *)
Definition plainCard (c : card) : bool :=
  negb (inherited (card_id c)) && negb (inherited (trimmedName c)).

(** The grouping code ahead of the Board -> Database loop raises: the id of
    a card, or the trimmed title of a card the loop would work on, is an
    inherited name. *)
Definition groupingRaises (cards : list card) : bool :=
  inheritedKey card_id cards || inheritedKey trimmedName (uniqueCards cards).

(** *** Traces *)

Definition failed (ev : event) : bool := negb (snd ev).

(** The number of failed requests of a trace. *)
Definition failures (t : list event) : nat := length (List.filter failed t).

Definition thrown {A} (r : outcome A) : nat :=
  match r with Ok _ => 0 | Throw => 1 end.

(** The four listings a pass starts with. *)
Definition upfront : list call := [T_getCards; T_getLists; T_getCustomFields; N_getEntries].

(** A Database operation on the entry of Board record [i]: a create or an
    update whose properties carry [i] as cross-reference. *)
Definition targets (i : string) (c : call) : bool :=
  match c with
  | N_createEntry props | N_updateEntry _ props =>
      String.eqb (extractRichTextValue (props !! "Trello ID")) i
  | _ => false
  end.

Definition operationsFor (i : string) (calls : list call) : list call :=
  List.filter (targets i) calls.

(** A write to one custom field item of a card. *)
Definition fieldWrite (c : call) : bool :=
  match c with
  | T_updateCustomField _ _ _
  | T_updateTextCustomField _ _ _
  | T_updateCheckboxCustomField _ _ _ => true
  | _ => false
  end.

Definition is_nil {A} (l : list A) : bool :=
  match l with [] => true | _ => false end.

(** How the Board -> Database pass counts a Database request. *)
Definition countDatabase (st : stats) (ev : event) : stats :=
  match ev with
  | (N_createEntry _, true) => t2n_created st
  | (N_updateEntry _ _, true) => t2n_updated st
  | (_, false) => incr_errors st
  | (_, true) => st
  end.

(** How the deletion pass counts an archive or delete request. *)
Definition countDeletion (st : stats) (ev : event) : stats :=
  match ev with
  | (N_deletePage _, true) => n2t_updated st
  | (T_deleteCard _, true) => t2n_updated st
  | (_, false) => incr_errors st
  | (_, true) => st
  end.

(** Entries archived and cards deleted by the requests of a trace. *)
Definition archived (t : list event) : nat :=
  length (List.filter (fun ev => match ev with (N_deletePage _, true) => true | _ => false end) t).

Definition deleted (t : list event) : nat :=
  length (List.filter (fun ev => match ev with (T_deleteCard _, true) => true | _ => false end) t).

Definition isDeletion (c : call) : bool :=
  match c with N_deletePage _ | T_deleteCard _ => true | _ => false end.

Definition notDeletion (c : call) : bool := negb (isDeletion c).

(** The counters that creations, Database updates and deletions move. *)
Definition structural (st : stats) : counters * nat :=
  (trelloToNotion st, created (notionToTrello st)).

(** *** Deletion by convention *)

(** A synced entry whose non-empty cross-reference matches no card of the
    fetched set. *)
Definition danglingSynced (cards : list card) (e : entry) : bool :=
  extractCheckboxValue (properties e !! "synced")
  && negb (String.eqb (trelloIdOf e) "")
  && forallb (fun c => negb (String.eqb (card_id c) (trelloIdOf e))) cards.

(** Entry [e] references Board record [i]. *)
Definition references (i : string) (e : entry) : bool :=
  negb (String.eqb (trelloIdOf e) "") && String.eqb (trelloIdOf e) i.

Definition archiveCalls (cards : list card) (e : entry) : list call :=
  if danglingSynced cards e then [N_deletePage (entry_id e)] else [].

Section WithServices.
Context {host : Host} {W : Type} {services : Services W}.

(** A card whose synced marker reads true and that no entry references. *)
Definition orphanSynced (syncedFieldId : string) (notionEntries : list entry) (c : card)
  : bool :=
  truthy (getTrelloCheckboxCustomFieldValue c syncedFieldId)
  && forallb (fun e => negb (references (card_id c) e)) notionEntries.

Definition deleteCalls (syncedFieldId : string) (notionEntries : list entry) (c : card)
  : list call :=
  if orphanSynced syncedFieldId notionEntries c then [T_deleteCard (card_id c)] else [].

Definition deletionCalls (cards : list card) (notionEntries : list entry)
           (customFieldMap : gmap string string) : list call :=
  match customFieldMap !! "synced" with
  | Some syncedFieldId =>
      if String.eqb syncedFieldId "" then []
      else flat_map (archiveCalls cards) notionEntries
           ++ flat_map (deleteCalls syncedFieldId notionEntries) cards
  | None => []
  end.

(** *** Board -> Database *)

(** The Database properties the pass computes for a card. *)
Definition propertiesOf (listIdToNameMap : gmap string string)
           (trelloCustomFields : list customField) (c : card) : gmap string property :=
  mapTrelloToNotion c (extractTrelloCustomFields c trelloCustomFields)
                    (listNameOf listIdToNameMap c).

(** The Database operation a card calls for: a create when no entry is
    linked to it, an update when a compared field differs, nothing
    otherwise. *)
Definition databaseCalls (listIdToNameMap : gmap string string)
           (trelloCustomFields : list customField)
           (notionByTrelloId : gmap string entry) (c : card) : list call :=
  match notionByTrelloId !! card_id c with
  | Some existingNotionEntry =>
      if shouldUpdateNotionEntry existingNotionEntry c
           (extractTrelloCustomFields c trelloCustomFields) (listNameOf listIdToNameMap c)
      then [N_updateEntry (entry_id existingNotionEntry)
                          (propertiesOf listIdToNameMap trelloCustomFields c)]
      else []
  | None => [N_createEntry (propertiesOf listIdToNameMap trelloCustomFields c)]
  end.

(** *** A pass in which every comparison resolves to unchanged *)

Definition titleDiffers (e : entry) (c : card) : bool :=
  match update_name (mapNotionToTrello e) with
  | Some name => hasChanged (VString name) (VString (card_name c))
  | None => false
  end.

Definition groupDiffers (listNameToIdMap : obj string) (e : entry) (c : card) : bool :=
  match get listNameToIdMap (extractSelectValue (properties e !! "Department")) with
  | Some targetListId =>
      negb (String.eqb targetListId "")
      && hasChanged (VString targetListId) (VString (idList c))
  | None => false
  end.

(** The entry is linked and, when its card is listed, title and group
    compare unchanged. *)
Definition entryReconciled (listNameToIdMap : obj string) (cardMap : gmap string card)
           (e : entry) : bool :=
  negb (String.eqb (trelloIdOf e) "")
  && match cardMap !! trelloIdOf e with
     | Some c => negb (titleDiffers e c) && negb (groupDiffers listNameToIdMap e c)
     | None => true
     end.

(** Every listed card has a linked entry that compares unchanged, every
    entry is reconciled against the re-listed cards, and nothing is marked
    for deletion. *)
Definition reconciled (cards : list card) (lists : list boardList)
           (fs : list customField) (es : list entry) (relisted : list card) : bool :=
  forallb (fun u => is_nil (databaseCalls (createListMap lists) fs
                                          (createNotionLookupMap es) u))
          (uniqueCards cards)
  && forallb (entryReconciled (createListMapReverse lists) (createCardMap relisted)) es
  && is_nil (deletionCalls cards es (createCustomFieldMap fs)).

(** *** Assertions on computations *)

(** [post m s Q]: running [m] from [s] ends in an outcome, a state and a
    trace that satisfy [Q]. *)
Definition post {A} (m : M W A) (s : state W)
           (Q : outcome A -> state W -> list event -> Prop) : Prop :=
  let '(r, s', t) := m s in Q r s' t.

(** Every failed request of [m] is counted in [errors], or is the exception
    [m] throws. *)
Definition accounted {A} (m : M W A) : Prop :=
  forall s, post m s (fun r s' t =>
    errors (syncStats s') + thrown r = errors (syncStats s) + failures t).

(** [m] never throws and counts every failed request. *)
Definition contained (m : M W unit) : Prop :=
  forall s, post m s (fun r s' t =>
    r = Ok tt /\ errors (syncStats s') = errors (syncStats s) + failures t).

(** [m] sends custom-field writes only and leaves the structural counters
    alone. *)
Definition pushesOnly {A} (m : M W A) : Prop :=
  forall s, post m s (fun _ s' t =>
    Forall (fun ev => fieldWrite (fst ev) = true) t
    /\ structural (syncStats s') = structural (syncStats s)).

(** Every request [m] sends satisfies [P]. *)
Definition sends (P : call -> bool) {A} (m : M W A) : Prop :=
  forall s, post m s (fun _ _ t => Forall (fun ev => P (fst ev) = true) t).

End WithServices.

Arguments post : simpl never.

End Spec.

(** ** A concrete host and a simulated pair of stores, for the scenarios *)

Module Sim.
Import Notion Trello Mapping Remote Engine.

(** Digits after the decimal point of [n / 10^k], without trailing zeros. *)
Fixpoint fraction_digits (k : nat) (n : Z) : string :=
  match k with
  | O => ""
  | S k' =>
      let scaled := (n * 10)%Z in
      let unit := Z.pow 10 (Z.of_nat k) in
      let d := (scaled / unit)%Z in
      let rest := (scaled mod unit)%Z in
      (pretty d ++ (if (rest =? 0)%Z then "" else fraction_digits k' (rest / 10)))%string
  end.

(** Decimal notation of a binary64 value.  It is the notation ECMAScript
    prints for NaN, the infinities, and every integer of magnitude below
    2^53; for other values it is the exact decimal expansion (ECMAScript
    prints the shortest numeral that reads back as the same value). *)
Definition decimal_of_float (x : float) : string :=
  match Prim2SF x with
  | S754_nan => "NaN"
  | S754_infinity false => "Infinity"
  | S754_infinity true => "-Infinity"
  | S754_zero _ => "0"
  | S754_finite sign m e =>
      let sgn := if sign then "-" else "" in
      if (0 <=? e)%Z then (sgn ++ pretty (Z.pos m * Z.pow 2 e)%Z)%string
      else
        let den := Z.pow 2 (- e) in
        let int_part := (Z.pos m / den)%Z in
        let frac := (Z.pos m mod den)%Z in
        if (frac =? 0)%Z then (sgn ++ pretty int_part)%string
        else
          (sgn ++ pretty int_part ++ "."
               ++ fraction_digits (Z.to_nat (- e)) (frac * Z.pow 5 (- e))%Z)%string
  end.

Fixpoint digits_to_Z (acc : Z) (s : string) : option Z :=
  match s with
  | EmptyString => Some acc
  | String a r =>
      let n := Z.of_N (N_of_ascii a) in
      if ((48 <=? n) && (n <=? 57))%Z then digits_to_Z (acc * 10 + (n - 48))%Z r
      else None
  end.

(** Reads a decimal integer numeral (surrounding white space allowed, the
    empty string is 0), exactly when its magnitude is below 2^53; every
    other string is read as NaN here. *)
Definition float_of_decimal (s : string) : float :=
  let t := trim s in
  let (neg, body) :=
    match t with
    | String "-" r => (true, r)
    | String "+" r => (false, r)
    | _ => (false, t)
    end in
  match t, body with
  | EmptyString, _ => 0%float
  | _, EmptyString => PrimFloat.nan
  | _, _ =>
      match digits_to_Z 0 body with
      | Some z =>
          if (z <? Z.pow 2 53)%Z
          then let x := PrimFloat.of_uint63 (Uint63.of_Z z) in
               if neg then PrimFloat.opp x else x
          else PrimFloat.nan
      | None => PrimFloat.nan
      end
  end.

#[export] Instance decimalHost : Host := {
  number_to_string := decimal_of_float;
  string_to_number := float_of_decimal
}.

(** The two stores, a counter for fresh identifiers, and the requests that
    are currently failing. *)
Record stores := {
  sim_cards : list card;
  sim_lists : list boardList;
  sim_fields : list customField;
  sim_entries : list entry;
  sim_next : N;
  sim_down : call -> bool
}.

Definition with_cards (w : stores) (cs : list card) : stores :=
  {| sim_cards := cs; sim_lists := sim_lists w; sim_fields := sim_fields w;
     sim_entries := sim_entries w; sim_next := sim_next w; sim_down := sim_down w |}.

Definition with_entries (w : stores) (es : list entry) : stores :=
  {| sim_cards := sim_cards w; sim_lists := sim_lists w; sim_fields := sim_fields w;
     sim_entries := es; sim_next := sim_next w; sim_down := sim_down w |}.

Definition bump (w : stores) : stores :=
  {| sim_cards := sim_cards w; sim_lists := sim_lists w; sim_fields := sim_fields w;
     sim_entries := sim_entries w; sim_next := N.succ (sim_next w);
     sim_down := sim_down w |}.

Definition on_card (cardId : string) (f : card -> card) (w : stores) : stores :=
  with_cards w (map (fun c => if String.eqb (card_id c) cardId then f c else c) (sim_cards w)).

Definition rename (name : string) (c : card) : card :=
  {| card_id := card_id c; card_name := name; idList := idList c;
     customFieldItems := customFieldItems c; dateLastActivity := dateLastActivity c |}.

Definition move (listId : string) (c : card) : card :=
  {| card_id := card_id c; card_name := card_name c; idList := listId;
     customFieldItems := customFieldItems c; dateLastActivity := dateLastActivity c |}.

Fixpoint put_item (fieldId : string) (v : itemValue) (items : list customFieldItem)
  : list customFieldItem :=
  match items with
  | [] => [{| idCustomField := fieldId; item_value := v |}]
  | item :: rest =>
      if String.eqb (idCustomField item) fieldId
      then {| idCustomField := fieldId; item_value := v |} :: rest
      else item :: put_item fieldId v rest
  end.

Definition set_item (fieldId : string) (v : itemValue) (c : card) : card :=
  {| card_id := card_id c; card_name := card_name c; idList := idList c;
     customFieldItems := Some (put_item fieldId v (default [] (customFieldItems c)));
     dateLastActivity := dateLastActivity c |}.

Definition numberItem (v : value) : itemValue :=
  {| number := v; text := VUndefined; checked := VUndefined |}.
Definition textItem (v : value) : itemValue :=
  {| number := VUndefined; text := v; checked := VUndefined |}.
Definition checkedItem (v : value) : itemValue :=
  {| number := VUndefined; text := VUndefined; checked := v |}.

Definition merge_properties (pageId : string) (props : gmap string property) (e : entry)
  : entry :=
  if String.eqb (entry_id e) pageId
  then {| entry_id := entry_id e; properties := props ∪ properties e |}
  else e.

Section WithHost.
Context {host : Host}.

(** What the stores do with a request that reaches them.  The board keeps
    the [String(value)] that the request body of a field update carries. *)
Definition answer (c : call) (w : stores) : option (response c) * stores :=
  match c return option (response c) * stores with
  | T_getCards => (Some (sim_cards w), w)
  | T_getLists => (Some (sim_lists w), w)
  | T_getCustomFields => (Some (sim_fields w), w)
  | T_updateCard cardId name => (Some tt, on_card cardId (rename name) w)
  | T_moveCard cardId listId => (Some tt, on_card cardId (move listId) w)
  | T_updateCustomField cardId fieldId v =>
      (Some tt, on_card cardId (set_item fieldId (numberItem (VString (toStr v)))) w)
  | T_updateTextCustomField cardId fieldId s =>
      (Some tt, on_card cardId (set_item fieldId (textItem (VString s))) w)
  | T_updateCheckboxCustomField cardId fieldId v =>
      (Some tt, on_card cardId (set_item fieldId (checkedItem (VString (toStr v)))) w)
  | T_createCard name listId =>
      let c := {| card_id := ("card" ++ pretty (sim_next w))%string; card_name := name;
                  idList := default "" listId; customFieldItems := Some [];
                  dateLastActivity := 0 |} in
      (Some c, bump (with_cards w (sim_cards w ++ [c])))
  | T_deleteCard cardId =>
      (Some tt, with_cards w
                  (List.filter (fun c => negb (String.eqb (card_id c) cardId)) (sim_cards w)))
  | N_getEntries => (Some (sim_entries w), w)
  | N_createEntry props =>
      let e := {| entry_id := ("page" ++ pretty (sim_next w))%string;
                  properties := props |} in
      (Some tt, bump (with_entries w (sim_entries w ++ [e])))
  | N_updateEntry pageId props =>
      (Some tt, with_entries w (map (merge_properties pageId props) (sim_entries w)))
  | N_deletePage pageId =>
      (Some tt, with_entries w
                  (List.filter (fun e => negb (String.eqb (entry_id e) pageId))
                               (sim_entries w)))
  end.

#[export] Instance simServices : Services stores := {
  perform c w := if sim_down w c then (None, w) else answer c w
}.

Definition start (w : stores) : state stores :=
  {| world := w; syncStats := zero_stats |}.

(** The requests of one pass and the stores it leaves. *)
Definition pass (w : stores) : list event * stores :=
  let '(_, s, t) := performSync (start w) in (t, world s).

(** The requests of a second pass run right after a first one. *)
Definition second_pass (w : stores) : list event :=
  fst (pass (snd (pass w))).

End WithHost.

(** *** Scenarios *)

Definition doing : boardList := {| list_id := "L1"; list_name := "Doing" |}.

Definition cardOf (cardId name : string) (items : list customFieldItem) : card :=
  {| card_id := cardId; card_name := name; idList := "L1";
     customFieldItems := Some items; dateLastActivity := 0 |}.

Definition entryOf (pageId title trelloId : string) (synced : bool) : entry :=
  {| entry_id := pageId;
     properties :=
       <["synced" := PCheckbox synced]>
       (<["Trello ID" := PRichText [trelloId]]>
       (<["Department" := PSelect (Some "Doing")]>
       (<["Priority Name" := PTitle [title]]> ∅))) |}.

Definition withProperty (k : string) (p : property) (e : entry) : entry :=
  {| entry_id := entry_id e; properties := <[k := p]> (properties e) |}.

Definition board (cs : list card) (fs : list customField) (es : list entry) : stores :=
  {| sim_cards := cs; sim_lists := [doing]; sim_fields := fs; sim_entries := es;
     sim_next := 1; sim_down := fun _ => false |}.

(** A linked pair whose Total Score reads 40 on the Board and 42 in the
    Database. *)
Definition totalScoreField : customField :=
  {| field_id := "F1"; field_name := "Total Score" |}.

Definition scoreCard : card :=
  cardOf "abc" "Task A"
         [{| idCustomField := "F1"; item_value := numberItem (VString "40") |}].

Definition scoreEntry : entry :=
  withProperty "Total Score" (PFormula "number" (VNumber 42))
               (entryOf "page-1" "Task A" "abc" true).

Definition scoreWorld : stores := board [scoreCard] [totalScoreField] [scoreEntry].

Definition totalScoreWrites (t : list event) : list call :=
  List.filter (fun c => match c with
                        | T_updateCustomField _ fieldId _ => String.eqb fieldId "F1"
                        | _ => false
                        end) (map fst t).

(** A linked pair on a board with a synced marker, both sides marked and
    equal in every compared field. *)
Definition syncedField : customField := {| field_id := "F2"; field_name := "synced" |}.

Definition syncedCard : card :=
  cardOf "abc" "Task A"
         [{| idCustomField := "F2"; item_value := checkedItem (VString "true") |}].

Definition syncedEntry : entry := entryOf "page-1" "Task A" "abc" true.

Definition syncedWorld : stores := board [syncedCard] [syncedField] [syncedEntry].

(** An entry that is not linked yet and has no title, on an empty board. *)
Definition untitledEntry : entry := entryOf "page-9" "" "" false.

Definition untitledWorld : stores := board [] [] [untitledEntry].

(** Two cards with the same trimmed title and different ids. *)
Definition taskFirst : card := cardOf "a1" "Task" [].
Definition taskSecond : card := cardOf "a2" "Task " [].

(** Entries whose cross-reference matches no card, one synced and one not;
    and a synced card no entry references. *)
Definition danglingEntry : entry := entryOf "page-2" "Gone" "gone" true.
Definition unsyncedEntry : entry := entryOf "page-3" "Fresh" "fresh" false.
Definition orphanCard : card :=
  cardOf "zzz" "Orphan"
         [{| idCustomField := "F2"; item_value := checkedItem (VString "true") |}].

Definition deletionCards : list card := [syncedCard; orphanCard].
Definition deletionEntries : list entry := [syncedEntry; danglingEntry; unsyncedEntry].

(** A board whose only card is titled after a member every object
    inherits. *)
Definition constructorCard : card := cardOf "c0" "constructor" [].

Definition constructorWorld : stores := board [constructorCard] [] [].

(** Two records of one listing response with the same id and the same
    title; the second one was active earlier and sits in another list. *)
Definition dupLate : card :=
  {| card_id := "dup1"; card_name := "Task"; idList := "L1";
     customFieldItems := Some []; dateLastActivity := 2 |}.

Definition dupEarly : card :=
  {| card_id := "dup1"; card_name := "Task"; idList := "L2";
     customFieldItems := Some []; dateLastActivity := 1 |}.

Definition dupWorld : stores := board [dupLate; dupEarly] [] [].

(** A linked pair whose titles differ. *)
Definition driftedEntry : entry := entryOf "page-1" "Task B" "abc" false.

Definition driftedWorld : stores := board [cardOf "abc" "Task A" []] [] [driftedEntry].

(** The linked pair of [syncedWorld], and a synced entry whose card is
    gone. *)
Definition staleEntry : entry := entryOf "page-2" "Gone" "zzz" true.

Definition staleWorld : stores :=
  board [syncedCard] [syncedField] [syncedEntry; staleEntry].

(** Two records with the same id and different titles. *)
Definition taskRenamed : card := cardOf "a1" "Task, renamed" [].

(** A card whose Reach item holds the numeral 5, as the Board returns it. *)
Definition reachField : customField := {| field_id := "F3"; field_name := "Reach" |}.

Definition reachCard : card :=
  cardOf "r1" "Task"
         [{| idCustomField := "F3"; item_value := numberItem (VString "5") |}].

(** Two entries that refer to the same card, the first with Reach 5. *)
Definition sharedWorld : stores :=
  board [cardOf "abc" "Task A" []] [reachField]
        [withProperty "Reach" (PNumber (VNumber 5)) (entryOf "page-1" "Task A" "abc" false);
         entryOf "page-2" "Task A" "abc" false].

End Sim.

(** ** src/services/trello.js: the requests of the service *)

Module Http.
Import Trello Remote.

(** Request data: primitive values and objects of them. *)
#[local] Set Warnings "-register-all".
Inductive json :=
| JValue (v : value)
| JObject (members : list (string * json)).

Definition jstring (s : string) : json := JValue (VString s).

Definition truthyJson (j : json) : bool :=
  match j with JValue v => truthy v | JObject _ => true end.

(** [{ ...target, ...source }], filled in this order. *)
Definition spread {A} (target source : obj A) : obj A :=
  foldl (fun acc kv => set acc (fst kv) (snd kv)) target (entries source).

(** [delete o[k]] *)
Definition remove {A} (k : string) (o : obj A) : obj A :=
  List.filter (fun kv => negb (String.eqb (fst kv) k)) o.

(** [TrelloService]: what its constructor reads from the configuration;
    [boardId] as it is interpolated into the endpoints. *)
Record trelloService := {
  baseUrl : string;
  apiKey : value;
  token : value;
  boardId : string
}.

(** What [...options.params] spreads: the members of an object, the code
    units of a string under their indices, and nothing from any other
    primitive or from a missing member. *)
Definition paramsOf (options : obj json) : obj json :=
  match get options "params" with
  | Some (JObject o) => o
  | Some (JValue (VString s)) =>
      imap (fun i a => (pretty i, jstring (String a ""))) (list_ascii_of_string s)
  | _ => []
  end.

(** [makeRequest(endpoint, options)]: the argument passed to [axios]. *)
Definition makeRequest (svc : trelloService) (endpoint : string) (options : obj json)
  : obj json :=
  let url := (baseUrl svc ++ endpoint)%string in
  let params := spread [("key", JValue (apiKey svc)); ("token", JValue (token svc))]
                       (paramsOf options) in
  let method := match get options "method" with
                | Some m => if truthyJson m then m else jstring "GET"
                | None => jstring "GET"
                end in
  let requestConfig :=
    spread [("method", method); ("url", jstring url); ("params", JObject params)] options in
  let requestConfig := remove "params" requestConfig in
  set (spread [] requestConfig) "params" (JObject params).

(** [{ idList: listId }] where [listId] may be undefined. *)
Definition optional (k : string) (v : option string) : obj json :=
  match v with Some s => [(k, jstring s)] | None => [(k, JValue VUndefined)] end.

Section WithHost.
Context {host : Host}.

(** The request each method of the service sends; the Database requests go
    through the Notion client and are not built here. *)
Definition requestOf (svc : trelloService) (c : call) : option (obj json) :=
  match c with
  | T_getCards =>
      Some (makeRequest svc ("/boards/" ++ boardId svc ++ "/cards")
              [("params", JObject [("customFieldItems", jstring "true");
                                   ("filter", jstring "open")])])
  | T_getLists => Some (makeRequest svc ("/boards/" ++ boardId svc ++ "/lists") [])
  | T_getCustomFields =>
      Some (makeRequest svc ("/boards/" ++ boardId svc ++ "/customFields") [])
  | T_updateCard cardId name =>
      Some (makeRequest svc ("/cards/" ++ cardId)
              [("method", jstring "PUT"); ("params", JObject [("name", jstring name)])])
  | T_moveCard cardId listId =>
      Some (makeRequest svc ("/cards/" ++ cardId)
              [("method", jstring "PUT"); ("params", JObject [("idList", jstring listId)])])
  | T_updateCustomField cardId customFieldId v =>
      Some (makeRequest svc ("/cards/" ++ cardId ++ "/customField/" ++ customFieldId ++ "/item")
              [("method", jstring "PUT");
               ("data", JObject [("value", JObject [("number", jstring (toStr v))])])])
  | T_updateTextCustomField cardId customFieldId s =>
      Some (makeRequest svc ("/cards/" ++ cardId ++ "/customField/" ++ customFieldId ++ "/item")
              [("method", jstring "PUT");
               ("data", JObject [("value", JObject [("text", jstring s)])])])
  | T_updateCheckboxCustomField cardId customFieldId v =>
      Some (makeRequest svc ("/cards/" ++ cardId ++ "/customField/" ++ customFieldId ++ "/item")
              [("method", jstring "PUT");
               ("data", JObject [("value", JObject [("checked", jstring (toStr v))])])])
  | T_createCard name listId =>
      Some (makeRequest svc "/cards"
              [("method", jstring "POST");
               ("params", JObject (("name", jstring name) :: optional "idList" listId))])
  | T_deleteCard cardId =>
      Some (makeRequest svc ("/cards/" ++ cardId) [("method", jstring "DELETE")])
  | N_getEntries | N_createEntry _ | N_updateEntry _ _ | N_deletePage _ => None
  end.

(** The [value] member of the body of the three custom field writers, as
    the record a reader of the card's items sees. *)
Definition numberBody (v : value) : itemValue :=      (* { number: String(value) } *)
  {| number := VString (toStr v); text := VUndefined; checked := VUndefined |}.

Definition textBody (v : value) : itemValue :=        (* { text: String(value) } *)
  {| number := VUndefined; text := VString (toStr v); checked := VUndefined |}.

Definition checkedBody (v : value) : itemValue :=     (* { checked: String(checked) } *)
  {| number := VUndefined; text := VUndefined; checked := VString (toStr v) |}.
End WithHost.

End Http.

(** ** src/utils/logger.js *)

Module Logger.

(** [this.levels] *)
Definition levels : obj float :=
  [("debug", 0%float); ("info", 1%float); ("warn", 2%float); ("error", 3%float)].

(** What [this.levels[name]] evaluates to: the number of an own property,
    a member inherited from [Object.prototype] (a function or an object),
    or [undefined]. *)
Inductive member :=
| Own (n : float)
| Inherited
| Missing.

(** A logger is its threshold, [this.currentLevel]. *)
Record logger := { currentLevel : member }.

Section Levels.
(** The property names an object literal inherits. *)
Variable inherited : string -> bool.

Definition levelOf (name : string) : member :=
  match get levels name with
  | Some n => Own n
  | None => if inherited name then Inherited else Missing
  end.

(** [new Logger(level)]; the argument defaults to 'info'.
    [this.currentLevel = this.levels[level] || this.levels.info] *)
Definition newLogger (level : option string) : logger :=
  {| currentLevel :=
       match levelOf (default "info" level) with
       | Own n => if truthy (VNumber n) then Own n else levelOf "info"
       | Inherited => Inherited
       | Missing => levelOf "info"
       end |}.

(** [this.levels[level] >= this.currentLevel]: a comparison of two
    numbers; [undefined], a function or an object on either side converts
    to NaN and compares false. *)
Definition enabled (l : logger) (level : string) : bool :=
  match levelOf level, currentLevel l with
  | Own n, Own threshold => PrimFloat.leb threshold n
  | _, _ => false
  end.

(** What the host provides: the clock, [JSON.stringify] on the data a
    caller attaches, and [toUpperCase]. *)
Context {Data : Type}.
Variable toISOString : string.
Variable stringify : Data -> string.
Variable isTruthy : Data -> bool.
Variable toUpperCase : string -> string.

Definition formatMessage (level message : string) (data : option Data) : string :=
  let dataStr := match data with
                 | Some d => if isTruthy d then (" | " ++ stringify d)%string else ""
                 | None => ""
                 end in
  ("[" ++ toISOString ++ "] " ++ toUpperCase level ++ ": " ++ message ++ dataStr)%string.

(** [log]: the lines written to the console. *)
Definition log (l : logger) (level message : string) (data : option Data) : list string :=
  if enabled l level then [formatMessage level message data] else [].

Definition debug (l : logger) := log l "debug".
Definition info (l : logger) := log l "info".
Definition warn (l : logger) := log l "warn".
Definition error (l : logger) := log l "error".

(** [export const logger = new Logger()] *)
Definition theLogger : logger := newLogger None.
End Levels.

End Logger.

(** ** src/config/config.js *)

Module Config.

(** [process.env[key]]: a string, or [undefined] when the variable is not
    set. *)
Definition envValue (env : gmap string string) (key : string) : value :=
  match env !! key with Some s => VString s | None => VUndefined end.

(** [a || b] *)
Definition orElse (a b : value) : value := if truthy a then a else b.

(** The [config] object.  [pollInterval] is the value of
    [parseInt(process.env.POLL_INTERVAL) || 60000]. *)
Definition config (env : gmap string string) (pollInterval : float) : obj (obj value) :=
  [("trello", [("apiKey", envValue env "TRELLO_API_KEY");
               ("token", envValue env "TRELLO_TOKEN");
               ("boardId", envValue env "TRELLO_BOARD_ID");
               ("baseUrl", VString "https://api.trello.com/1")]);
   ("notion", [("apiKey", envValue env "NOTION_API_KEY");
               ("databaseId", envValue env "NOTION_DATABASE_ID")]);
   ("sync", [("pollInterval", VNumber pollInterval);
             ("minPollInterval", VNumber 30000);
             ("maxPollInterval", VNumber 900000);
             ("retryDelay", VNumber 5000)]);
   ("logging", [("level", orElse (envValue env "LOG_LEVEL") (VString "info"))])].

End Config.

(** ** src/webhook/webhookServer.js *)

Module Webhook.
Import Remote.

(** The part of a webhook payload the server looks at. *)
Record oldValues := { old_name : value; old_idList : value }.       (* action.data.old *)
Record actionData := { data_old : option oldValues }.               (* action.data *)
Record action := { action_type : string; action_data : option actionData }.
Record payload := { payload_action : option action }.               (* req.body *)

(** [data.old?.name || data.old?.idList] *)
Definition oldNameOrList (data : actionData) : bool :=
  match data_old data with
  | Some o => truthy (old_name o) || truthy (old_idList o)
  | None => false
  end.

(** [shouldTriggerSync]; reading [data.old] when [action.data] is
    undefined raises a TypeError. *)
Definition shouldTriggerSync (webhookData : payload) : outcome bool :=
  match payload_action webhookData with
  | None => Ok false
  | Some a =>
      if String.eqb (action_type a) "updateCustomFieldItem" then Ok true
      else if String.eqb (action_type a) "updateCard" then
        match action_data a with
        | None => Throw
        | Some data => Ok (oldNameOrList data)
        end
      else if String.eqb (action_type a) "createCard" then Ok true
      else Ok false
  end.

Record webhookRequest := {
  signatureHeader : option string;       (* req.headers['x-trello-webhook'] *)
  body : payload
}.

(** What the server answers, and whether it scheduled a pass. *)
Record webhookResponse := {
  status : nat;
  answer : string;        (* the 'status' or 'error' member of the JSON body *)
  syncScheduled : bool
}.

Section Handler.
(** [crypto.createHmac('sha1', secret).update(JSON.stringify(body)).digest('base64')] *)
Variable hmacOfBody : string -> payload -> string.

(** [verifyWebhookSignature]; a secret that is no string makes
    [createHmac] raise. *)
Definition verifyWebhookSignature (cfg : obj (obj value)) (req : webhookRequest)
  : outcome bool :=
  match signatureHeader req with
  | None => Ok false
  | Some signature =>
      if String.eqb signature "" then Ok false
      else match get cfg "webhook" with
           | None => Throw
           | Some webhook =>
               match default VUndefined (get webhook "secret") with
               | VString secret => Ok (String.eqb signature (hmacOfBody secret (body req)))
               | _ => Throw
               end
           end
  end.

(** [handleTrelloWebhook]; [config.webhook.secret] raises a TypeError when
    the configuration has no [webhook] member. *)
Definition handleTrelloWebhook (cfg : obj (obj value)) (req : webhookRequest)
  : outcome webhookResponse :=
  match get cfg "webhook" with
  | None => Throw
  | Some webhook =>
      let answerEvent :=
        match shouldTriggerSync (body req) with
        | Throw => Throw
        | Ok true => Ok {| status := 200; answer := "accepted"; syncScheduled := true |}
        | Ok false => Ok {| status := 200; answer := "ignored"; syncScheduled := false |}
        end in
      if truthy (default VUndefined (get webhook "secret")) then
        match verifyWebhookSignature cfg req with
        | Throw => Throw
        | Ok false =>
            Ok {| status := 401; answer := "Invalid signature"; syncScheduled := false |}
        | Ok true => answerEvent
        end
      else answerEvent
  end.

(** The route [POST /webhook/trello]. *)
Definition postWebhook (cfg : obj (obj value)) (req : webhookRequest) : webhookResponse :=
  match handleTrelloWebhook cfg req with
  | Ok r => r
  | Throw => {| status := 500; answer := "Internal server error"; syncScheduled := false |}
  end.
End Handler.

(** The action types the poller asks the board for
    ([filter: 'updateCard,createCard,updateCustomFieldItem'] in
    [PollingStrategy.checkForChanges]). *)
Definition pollFilter : list string := ["updateCard"; "createCard"; "updateCustomFieldItem"].

End Webhook.

(** ** src/index.js *)

Module Main.
Import Remote Engine.
#[local] Open Scope sync_scope.

Section WithServices.
Context {host : Host} {W : Type} {services : Services W}.

(** [main]: the status the process exits with.  [validated] is the outcome
    of [validateConfig()]; [process.exit(1)] is called when the pass
    reports errors and in the [catch] block. *)
Definition main (validated : outcome unit) : M W nat :=
  try_catch
    (match validated with
     | Throw => throw
     | Ok _ =>
         stats <- performSync ;;
         ret (if Nat.ltb 0 (errors stats) then 1 else 0)
     end)
    (ret 1).
End WithServices.

End Main.

(** ** The polling service: [PollingStrategy] and src/services/syncService.js *)

Module Service.
Import Remote.

(** The interval timers of the host: the handles that are armed, each with
    the period [setInterval] was given, and the next fresh handle.  A handle
    is a [Timeout] object, so it is truthy whatever its number. *)
Record timers := {
  armed : list (nat * float);
  fresh : nat
}.

(** [setInterval(callback, period)] *)
Definition setInterval (period : float) (h : timers) : nat * timers :=
  (fresh h, {| armed := (fresh h, period) :: armed h; fresh := S (fresh h) |}).

(** [clearInterval(handle)] *)
Definition clearInterval (handle : nat) (h : timers) : timers :=
  {| armed := List.filter (fun t => negb (Nat.eqb (fst t) handle)) (armed h);
     fresh := fresh h |}.

(** [PollingStrategy]; [lastSyncTime] is a time value. *)
Record strategy := {
  syncInterval : float;
  lastSyncTime : Z;
  isRunning : bool;
  pollInterval : option nat        (* the timer handle, or null *)
}.

(** [new PollingStrategy(syncInterval)]; the argument defaults to 30000. *)
Definition newStrategy (interval : option float) (now : Z) : strategy :=
  {| syncInterval := default 30000%float interval; lastSyncTime := now;
     isRunning := false; pollInterval := None |}.

(** [startPolling(onChangeCallback)]; [isFunction] is
    [typeof onChangeCallback === 'function']. *)
Definition startPolling (isFunction : bool) (p : strategy) (h : timers)
  : outcome unit * strategy * timers :=
  if isRunning p then (Ok tt, p, h)
  else if negb isFunction then (Throw, p, h)
  else
    let (handle, h') := setInterval (syncInterval p) h in
    (Ok tt,
     {| syncInterval := syncInterval p; lastSyncTime := lastSyncTime p;
        isRunning := true; pollInterval := Some handle |},
     h').

Definition stopPolling (p : strategy) (h : timers) : strategy * timers :=
  ({| syncInterval := syncInterval p; lastSyncTime := lastSyncTime p;
      isRunning := false; pollInterval := None |},
   match pollInterval p with
   | Some handle => clearInterval handle h
   | None => h
   end).

(** [SyncService] *)
Record syncService := {
  pollingStrategy : strategy;
  serviceRunning : bool;          (* this.isRunning *)
  isSyncing : bool
}.

Definition minPollInterval : float := 30000.
Definition maxPollInterval : float := 900000.

(** [new SyncService()]; [configured] is [config.sync.pollInterval]. *)
Definition newService (configured : float) (now : Z) : syncService :=
  {| pollingStrategy := newStrategy (Some configured) now;
     serviceRunning := false; isSyncing := false |}.

(** [start()] is asynchronous.  Up to its [await] it runs at once: the
    guard, and the call of [startPolling], which runs to its end since it
    awaits nothing.  The result tells how [startPolling] settled when the
    call is suspended at the [await], and is [None] when the call returned
    at the guard. *)
Definition startCall (v : syncService) (h : timers)
  : option (outcome unit) * syncService * timers :=
  if serviceRunning v then (None, v, h)
  else
    let '(r, p, h') := startPolling true (pollingStrategy v) h in
    (Some r,
     {| pollingStrategy := p; serviceRunning := serviceRunning v; isSyncing := isSyncing v |},
     h').

(** What [start()] does when it resumes after the [await], on the service
    as it is by then: [this.isRunning = true], or the rejection thrown on. *)
Definition startResume (r : outcome unit) (v : syncService) : outcome unit * syncService :=
  match r with
  | Ok _ =>
      (Ok tt,
       {| pollingStrategy := pollingStrategy v; serviceRunning := true;
          isSyncing := isSyncing v |})
  | Throw => (Throw, v)
  end.

(** [await service.start()]: nothing else runs between the call and its
    resumption. *)
Definition start (v : syncService) (h : timers) : outcome unit * syncService * timers :=
  match startCall v h with
  | (Some r, v1, h1) => let (r', v2) := startResume r v1 in (r', v2, h1)
  | (None, v1, h1) => (Ok tt, v1, h1)
  end.

Definition stop (v : syncService) (h : timers) : syncService * timers :=
  if negb (serviceRunning v) then (v, h)
  else
    let (p, h') := stopPolling (pollingStrategy v) h in
    ({| pollingStrategy := p; serviceRunning := false; isSyncing := isSyncing v |}, h').

(** [updatePollInterval(newInterval)] up to its [await]: the result is
    [inl] when the call settled at once, and [inr] with what the pending
    [start()] is to resume with when it is suspended in [await this.start()]. *)
Definition updateCall (newInterval : float) (now : Z) (v : syncService) (h : timers)
  : (outcome unit + option (outcome unit)) * syncService * timers :=
  if PrimFloat.ltb newInterval minPollInterval || PrimFloat.ltb maxPollInterval newInterval
  then (inl Throw, v, h)
  else
    let wasRunning := serviceRunning v in
    let (v1, h1) := if wasRunning then stop v h else (v, h) in
    let v2 := {| pollingStrategy := newStrategy (Some newInterval) now;
                 serviceRunning := serviceRunning v1; isSyncing := isSyncing v1 |} in
    if wasRunning
    then let '(pending, v3, h3) := startCall v2 h1 in (inr pending, v3, h3)
    else (inl (Ok tt), v2, h1).

(** [await service.updatePollInterval(newInterval)] *)
Definition updatePollInterval (newInterval : float) (now : Z) (v : syncService) (h : timers)
  : outcome unit * syncService * timers :=
  match updateCall newInterval now v h with
  | (inl r, v1, h1) => (r, v1, h1)
  | (inr (Some r), v1, h1) => let (r', v2) := startResume r v1 in (r', v2, h1)
  | (inr None, v1, h1) => (Ok tt, v1, h1)
  end.

(** A call on the service, awaited. *)
Inductive operation :=
| Start
| Stop
| UpdatePollInterval (newInterval : float) (now : Z).

Definition step (o : operation) (vh : syncService * timers) : syncService * timers :=
  let (v, h) := vh in
  match o with
  | Start => let '(_, v', h') := start v h in (v', h')
  | Stop => stop v h
  | UpdatePollInterval n now => let '(_, v', h') := updatePollInterval n now v h in (v', h')
  end.

(** Calls made one after the other, each awaited before the next. *)
Definition run (ops : list operation) (vh : syncService * timers) : syncService * timers :=
  foldl (fun vh o => step o vh) vh ops.

(** [service.start(); service.updatePollInterval(newInterval)] without
    [await]: the second call runs before the first resumes. *)
Definition startThenUpdate (newInterval : float) (now : Z) (vh : syncService * timers)
  : syncService * timers :=
  let (v, h) := vh in
  let '(pending, v1, h1) := startCall v h in
  let '(pending', v2, h2) := updateCall newInterval now v1 h1 in
  let v3 := match pending with Some r => snd (startResume r v2) | None => v2 end in
  let v4 := match pending' with
            | inr (Some r) => snd (startResume r v3)
            | _ => v3
            end in
  (v4, h2).

(** The service polls with one timer, of the period of its strategy, when
    it runs, and with none when it does not. *)
Definition consistent (vh : syncService * timers) : Prop :=
  let (v, h) := vh in
  let p := pollingStrategy v in
  isRunning p = serviceRunning v
  /\ match pollInterval p with
     | Some handle => serviceRunning v = true /\ armed h = [(handle, syncInterval p)]
     | None => serviceRunning v = false /\ armed h = []
     end.

End Service.

(** ** Further vocabulary for the statements below *)

Module Vocabulary.
Import Notion Trello Mapping Remote Engine Spec.

(** The last element of [l] that satisfies [p]. *)
Definition lastWith {A} (p : A -> bool) (l : list A) : option A := List.find p (rev l).

(** The property names [mapTrelloToNotion] can write. *)
Definition mappedNames : list string :=
  ["Priority Name"; "Department"; "Trello ID"; "Reach"; "Confidence"; "Effort"; "Impact";
   "synced"].

(** No key of [o] is an array index. *)
Definition plainKeys {A} (o : obj A) : Prop := Forall (fun kv => array_index (fst kv) = None) o.

(** Keys in enumeration order: array indices first, strictly ascending,
    then the other keys. *)
Fixpoint enumerated (ks : list string) : Prop :=
  match ks with
  | [] => True
  | k :: ks' =>
      match array_index k with
      | Some n =>
          Forall (fun k' => match array_index k' with
                            | Some m => (n < m)%N
                            | None => True
                            end) ks'
          /\ enumerated ks'
      | None => Forall (fun k' => array_index k' = None) ks'
      end
  end.

(** [c] was not active after [d]. *)
Definition older (c d : card) : Prop := (dateLastActivity c <= dateLastActivity d)%Z.

(** The two classes the selection rule of the listing filter prefers. *)
Definition outsideContentCurriculum (c : card) : bool :=
  negb (String.eqb (idList c) contentCurriculumList).

Definition originalId (c : card) : bool := negb (startsWith (card_id c) "688bc").

(** The selection rule of the listing filter between a kept card [u] and
    another card [d] of the same title: if [d] is outside the Content
    Curriculum list, so is [u], and [u] is not younger; otherwise, if [d]
    has an original id, so has [u], and [u] is not younger; otherwise [u]
    is not younger. *)
Definition preferred (u d : card) : Prop :=
  (outsideContentCurriculum d = true -> outsideContentCurriculum u = true /\ older u d)
  /\ (outsideContentCurriculum u = false -> originalId d = true ->
      originalId u = true /\ older u d)
  /\ (outsideContentCurriculum u = false -> originalId u = false -> older u d).

(** The dictionary of field names by id that the extraction builds, and
    its step on one item. *)
Definition fieldNames (fs : list customField) : gmap string string :=
  foldl (fun m f => <[field_id f := field_name f]> m) ∅ fs.

Definition extractStep (fieldMap : gmap string string)
           (customFields : gmap string value) (item : customFieldItem) : gmap string value :=
  match fieldMap !! idCustomField item with
  | Some fieldName =>
      if String.eqb fieldName "" then customFields
      else <[fieldName := itemValueOf (item_value item)]> customFields
  | None => customFields
  end.

(** The trace of a computation that stops at its first failed request:
    no failure when it returns, one failure, at the very end, when it
    throws. *)
Definition stopsAtFailure {A} (r : outcome A) (t : list event) : Prop :=
  match r with
  | Ok _ => failures t = 0
  | Throw => exists t0 c, t = t0 ++ [(c, false)] /\ failures t0 = 0
  end.

(** A request that writes to card [cardId] and to nothing else. *)
Definition writesCard (cardId : string) (c : call) : bool :=
  match c with
  | T_updateCard i _ | T_moveCard i _
  | T_updateCustomField i _ _ | T_updateTextCustomField i _ _
  | T_updateCheckboxCustomField i _ _ => String.eqb i cardId
  | _ => false
  end.

(** A write of a non-null number to the custom field [fieldId]. *)
Definition scoreWrite (fieldId : string) (c : call) : bool :=
  match c with
  | T_updateCustomField _ f v => String.eqb f fieldId && negb (is_nullish v)
  | _ => false
  end.

(** A creation of a Database entry. *)
Definition isCreation (c : call) : bool :=
  match c with N_createEntry _ => true | _ => false end.

(** A Database operation of the Board -> Database pass. *)
Definition isDatabaseWrite (c : call) : bool :=
  match c with N_createEntry _ | N_updateEntry _ _ => true | _ => false end.

(** One of the three listings of the Board. *)
Definition isListing (c : call) : bool :=
  match c with T_getCards | T_getLists | T_getCustomFields => true | _ => false end.

(** Entries created and entries updated by the requests of a trace. *)
Definition entriesCreated (t : list event) : nat :=
  length (List.filter (fun ev => match ev with (N_createEntry _, true) => true | _ => false end) t).

Definition entriesUpdated (t : list event) : nat :=
  length (List.filter (fun ev => match ev with (N_updateEntry _ _, true) => true | _ => false end) t).

(** The card a new entry asks for: its title, or 'Untitled', in the list
    of its Department, or the first one. *)
Definition newCardName (e : entry) : string :=
  let title := extractTitleValue (properties e !! "Priority Name") in
  if String.eqb title "" then "Untitled" else title.

Definition newCardList (rev : obj string) (e : entry) : option string :=
  defaultListId rev (extractSelectValue (properties e !! "Department")).

Section WithHost.
Context {host : Host}.

(** A field value that the mapper writes as a number which compares
    unchanged with it: unset, a number, or a numeral that prints back as
    itself. *)
Definition settled (v : value) : Prop :=
  is_nullish v = true
  \/ is_number v = true
  \/ exists s, v = VString s /\ trim (number_to_string (string_to_number s)) = trim s.
End WithHost.

Section WithWorld.
Context {W : Type}.

(** A step of [updateTrelloFromNotion]: it leaves the statistics alone,
    stops at its first failure, and its flag tells whether it sent
    anything. *)
Definition flagged (m : M W bool) : Prop :=
  forall s, post m s (fun r s' t =>
    syncStats s' = syncStats s /\ stopsAtFailure r t
    /\ forall h, r = Ok h -> h = negb (is_nil t)).

(** What is left of [updateTrelloFromNotion] after steps whose flags add up
    to [h0]. *)
Definition counted (h0 : bool) (m : M W unit) : Prop :=
  forall s, post m s (fun r s' t =>
    stopsAtFailure r t
    /\ match r with
       | Ok _ => syncStats s' = if h0 || negb (is_nil t) then n2t_updated (syncStats s)
                                else syncStats s
       | Throw => syncStats s' = syncStats s
       end).

(** [m] adds to [trelloToNotion.created] the number of entries it
    created. *)
Definition tallied {A} (m : M W A) : Prop :=
  forall s, post m s (fun _ s' t =>
    created (trelloToNotion (syncStats s'))
    = created (trelloToNotion (syncStats s)) + entriesCreated t).
End WithWorld.

End Vocabulary.

(** ** Stores between two passes

    What a pass that sends listings, custom field writes and archive calls
    only can change of the simulated stores. *)

Module Replay.
Import Notion Trello Mapping Remote Engine Spec Sim Vocabulary.

(** A listing, or a write of a custom field item of a card. *)
Definition quietCall (c : call) : bool :=
  match c with
  | T_getCards | T_getLists | T_getCustomFields | N_getEntries => true
  | _ => fieldWrite c
  end.

(** A trace of listings and custom field writes only. *)
Definition quiet (t : list event) : Prop := Forall (fun ev => quietCall (fst ev) = true) t.

(** None of the ids, names and cross-references that a pass uses as a key
    of one of its dictionaries is a member name of [Object.prototype]. *)
Definition plainItems (c : card) : bool :=
  forallb (fun item => negb (inherited (idCustomField item)))
          (default [] (customFieldItems c)).

Definition plainStores (w : stores) : bool :=
  forallb (fun c => plainCard c && negb (inherited (idList c)) && plainItems c) (sim_cards w)
  && forallb (fun l => negb (inherited (list_id l)) && negb (inherited (list_name l)))
             (sim_lists w)
  && forallb (fun f => negb (inherited (field_id f)) && negb (inherited (field_name f)))
             (sim_fields w)
  && forallb (fun e => negb (inherited (trelloIdOf e))
                       && negb (inherited (extractSelectValue (properties e !! "Department"))))
             (sim_entries w).

(** [g] changes nothing of a card but its custom field items. *)
Definition itemsOnly (g : card -> card) : Prop :=
  forall c, card_id (g c) = card_id c /\ card_name (g c) = card_name c
            /\ idList (g c) = idList c /\ dateLastActivity (g c) = dateLastActivity c.

(** [mapValues f o]: [o] with [f] applied to each value. *)
Definition mapValues {A B} (f : A -> B) (o : obj A) : obj B :=
  map (fun kv => (fst kv, f (snd kv))) o.

(** The value the last item of [items] files under the field name [k]. *)
Definition filed (fieldMap : gmap string string) (k : string)
           (items : list customFieldItem) : option value :=
  (fun item => itemValueOf (item_value item))
    <$> lastWith (fun item => match fieldMap !! idCustomField item with
                              | Some name => negb (String.eqb name "") && String.eqb name k
                              | None => false
                              end) items.

Section WithHost.
Context {host : Host}.

(** A change of the cards that leaves alone the cards no entry references
    and, for the entry a card is compared with, turns no numeric field that
    compared unchanged into one that compares changed. *)
Definition harmless (fs : list customField) (es : list entry) (g : card -> card) : Prop :=
  itemsOnly g
  /\ (forall c, existsb (references (card_id c)) es = false -> g c = c)
  /\ (forall c e k,
        createNotionLookupMap es !! card_id c = Some e -> In k fieldsToCheck ->
        hasChanged (extractNumberValue (properties e !! k))
                   (field (extractTrelloCustomFields c fs) k) = false ->
        hasChanged (extractNumberValue (properties e !! k))
                   (field (extractTrelloCustomFields (g c) fs) k) = false).

(** The stores [w] are the stores [w0] up to a harmless change of the
    cards. *)
Definition settledFrom (w0 w : stores) : Prop :=
  sim_lists w = sim_lists w0 /\ sim_fields w = sim_fields w0
  /\ sim_entries w = sim_entries w0 /\ sim_down w = sim_down w0
  /\ exists g, harmless (sim_fields w0) (sim_entries w0) g
               /\ sim_cards w = map g (sim_cards w0).

(** As long as [m] sends listings and custom field writes only, it keeps
    the stores settled. *)
Definition keeps (w0 : stores) {A} (m : M stores A) : Prop :=
  forall s, settledFrom w0 (world s) ->
    post m s (fun _ s' t => quiet t -> settledFrom w0 (world s')).

(** [m] sends a request that is no listing and no custom field write. *)
Definition loud {A} (m : M stores A) : Prop :=
  forall s, post m s (fun _ _ t => ~ quiet t).

(** A write of a custom field item that keeps the stores settled: its card
    is referenced, and what it files under a numeric field compares
    unchanged with the entry of the card. *)
Definition justified (fs : list customField) (es : list entry)
           (cardId fieldId : string) (v : itemValue) : Prop :=
  existsb (references cardId) es = true
  /\ forall k e, In k fieldsToCheck -> fieldNames fs !! fieldId = Some k ->
       createNotionLookupMap es !! cardId = Some e ->
       hasChanged (extractNumberValue (properties e !! k)) (itemValueOf v) = false.

(** A listing, a write of a custom field item, or the archiving of an
    entry. *)
Definition calmCall (c : call) : bool :=
  quietCall c || match c with N_deletePage _ => true | _ => false end.

Definition calm (t : list event) : Prop := Forall (fun ev => calmCall (fst ev) = true) t.

(** The entries whose page id is not among [ids]. *)
Definition without (ids : list string) (es : list entry) : list entry :=
  List.filter (fun e => negb (existsb (String.eqb (entry_id e)) ids)) es.

(** The entries the deletion pass archives, and the cards it deletes. *)
Definition toArchive (cards : list card) (cfm : gmap string string) (e : entry) : bool :=
  match cfm !! "synced" with
  | Some fid => negb (String.eqb fid "") && danglingSynced cards e
  | None => false
  end.

Definition toDelete (es : list entry) (cfm : gmap string string) (c : card) : bool :=
  match cfm !! "synced" with
  | Some fid => negb (String.eqb fid "") && orphanSynced fid es c
  | None => false
  end.

(** What a pass over the stores [w0] found and left, when it sent nothing
    but listings, custom field writes and archive calls: the cards [kept]
    of its listing compared unchanged with their entries, and the stores
    [w] it left are [w0] without the entries it archived, up to a harmless
    change of the cards. *)
Definition leftBy (w0 : stores) (kept : list card) (w : stores) : Prop :=
  let cfm := createCustomFieldMap (sim_fields w0) in
  groupingRaises kept = false
  /\ forallb (fun u => is_nil (databaseCalls (createListMap (sim_lists w0)) (sim_fields w0)
                                             (createNotionLookupMap (sim_entries w0)) u))
             (uniqueCards kept) = true
  /\ forallb (entryReconciled (createListMapReverse (sim_lists w0)) (createCardMap kept))
             (sim_entries w0) = true
  /\ forallb (fun c => negb (toDelete (sim_entries w0) cfm c)) kept = true
  /\ sim_lists w = sim_lists w0 /\ sim_fields w = sim_fields w0
  /\ sim_down w = sim_down w0
  /\ sim_entries w = List.filter (fun e => negb (toArchive kept cfm e)) (sim_entries w0)
  /\ exists g, harmless (sim_fields w0) (sim_entries w0) g
               /\ sim_cards w = map g (sim_cards w0).
End WithHost.

End Replay.

(** ** Data for the examples *)

Module Cases.
Import Notion Trello Mapping Remote Engine Sim Http Vocabulary.

(** A card whose Total Score item holds what a write of 42 leaves. *)
Definition writtenScore : customFieldItem :=
  {| idCustomField := "F1"; item_value := numberItem (VString "42") |}.

Definition scoredCard : card := cardOf "abc" "Task A" [writtenScore].

(** The synced marker of [syncedCard]. *)
Definition syncedItem : customFieldItem :=
  {| idCustomField := "F2"; item_value := checkedItem (VString "true") |}.

(** An entry as the Board -> Database pass creates it for [syncedCard]. *)
Definition createdEntry : entry :=
  {| entry_id := "page-7"; properties := mapTrelloToNotion syncedCard ∅ "Doing" |}.

(** A board that holds nothing but a synced card without entry. *)
Definition orphanWorld : stores := board [orphanCard] [syncedField] [].

Definition demoService : trelloService :=
  {| baseUrl := "https://api.trello.com/1"; apiKey := VString "k"; token := VString "t";
     boardId := "b1" |}.

(** The options [createCard] passes to [makeRequest], and the request the
    listing of the lists comes to. *)
Definition creationOptions : obj json :=
  [("method", jstring "POST");
   ("params", JObject [("name", jstring "Task"); ("idList", jstring "L1")])].

Definition listsRequest : obj json := makeRequest demoService "/boards/b1/lists" [].

(** The card [untitledEntry] asks for. *)
Definition untitledCreation : call :=
  T_createCard (newCardName untitledEntry)
               (newCardList (createListMapReverse [doing]) untitledEntry).

End Cases.

(** * Facts about the host fragment *)

Module JsFacts.

Section ObjFacts.
Context {A : Type}.
Implicit Types (o : obj A) (k : string) (v : A).

Lemma get_set_eq o k v : get (set o k v) k = Some v.
Proof.
  induction o as [|[k' v'] o IH]; simpl.
  - by rewrite String.eqb_refl.
  - destruct (String.eqb k' k) eqn:E; simpl; rewrite E; auto.
Qed.

Lemma get_set_ne o k k' v : k <> k' -> get (set o k v) k' = get o k'.
Proof.
  intros Hne. induction o as [|[k0 v0] o IH]; simpl.
  - destruct (String.eqb k k') eqn:E; [apply String.eqb_eq in E; congruence | done].
  - destruct (String.eqb k0 k) eqn:E; simpl.
    + apply String.eqb_eq in E; subst k0.
      destruct (String.eqb k k') eqn:E'; [apply String.eqb_eq in E'; congruence | done].
    + by rewrite IH.
Qed.

Lemma get_None_keys o k : get o k = None <-> ~ In k (map fst o).
Proof.
  induction o as [|[k' v'] o IH]; simpl; [tauto|].
  destruct (String.eqb k' k) eqn:E.
  - apply String.eqb_eq in E. split; [done | intros H; exfalso; apply H; auto].
  - apply String.eqb_neq in E. rewrite IH. tauto.
Qed.

Lemma keys_set o k v :
  map fst (set o k v)
  = match get o k with Some _ => map fst o | None => map fst o ++ [k] end.
Proof.
  induction o as [|[k' v'] o IH]; simpl; [done|].
  destruct (String.eqb k' k) eqn:E; simpl; [done|].
  rewrite IH. by destruct (get o k).
Qed.

(** Assignments never duplicate a key. *)
Lemma NoDup_keys_set o k v : List.NoDup (map fst o) -> List.NoDup (map fst (set o k v)).
Proof.
  intros Hnd. rewrite keys_set. destruct (get o k) eqn:E; [done|].
  apply get_None_keys in E.
  apply NoDup_ListNoDup. apply NoDup_app. apply NoDup_ListNoDup in Hnd.
  split_and!; [done | | apply NoDup_singleton].
  intros x Hx Hx'. apply list_elem_of_singleton in Hx'. subst.
  apply E. by apply list_elem_of_In.
Qed.

Lemma In_get o k v : List.NoDup (map fst o) -> In (k, v) o <-> get o k = Some v.
Proof.
  induction o as [|[k' v'] o IH]; simpl; intros Hnd; [split; [tauto | done]|].
  inversion Hnd as [|? ? Hnot Hnd']; subst.
  destruct (String.eqb k' k) eqn:E.
  - apply String.eqb_eq in E; subst k'. split.
    + intros [H|H]; [congruence|]. exfalso. apply Hnot.
      change k with (fst (k, v)). by apply in_map.
    + intros [= ->]. by left.
  - apply String.eqb_neq in E. rewrite <- (IH Hnd'). split.
    + intros [H|H]; [congruence | done].
    + auto.
Qed.

Lemma insert_by_index_perm n (kv : string * A) l :
  Permutation (insert_by_index n kv l) ((n, kv) :: l).
Proof.
  induction l as [|[m kv'] l IH]; simpl; [done|].
  destruct (n <? m)%N; [done|].
  rewrite IH. apply perm_swap.
Qed.

(** Enumeration reorders the properties and loses none. *)
Lemma entries_perm o : Permutation (entries o) o.
Proof.
  unfold entries. induction o as [|[k v] o IH]; simpl; [done|].
  unfold is_named at 1. simpl.
  destruct (array_index k) as [n|] eqn:E.
  - rewrite insert_by_index_perm. simpl. by rewrite IH.
  - rewrite <- Permutation_middle. by rewrite IH.
Qed.

Lemma In_entries o kv : In kv (entries o) <-> In kv o.
Proof. split; apply Permutation_in; [| symmetry]; apply entries_perm. Qed.

Lemma NoDup_keys_entries o : List.NoDup (map fst o) -> List.NoDup (map fst (entries o)).
Proof.
  intros H. eapply Permutation_NoDup; [|exact H].
  apply Permutation_map. symmetry. apply entries_perm.
Qed.

Lemma flat_map_values {B} (f : A -> list B) o :
  flat_map f (values o) = flat_map (fun kv => f (snd kv)) (entries o).
Proof. unfold values. induction (entries o) as [|kv l IH]; simpl; [done | by rewrite IH]. Qed.
End ObjFacts.

Lemma filter_flat_map {A B} (p : B -> bool) (f : A -> list B) l :
  List.filter p (flat_map f l) = flat_map (fun x => List.filter p (f x)) l.
Proof. induction l; simpl; [done|]. by rewrite List.filter_app, IHl. Qed.

(** Over a list without repeated keys, selecting by key picks at most one
    element. *)
Lemma flat_map_select {A B} (key : A -> string) (g : A -> list B) i l :
  List.NoDup (map key l) ->
  flat_map (fun u => if String.eqb (key u) i then g u else []) l
  = match List.find (fun u => String.eqb (key u) i) l with Some u => g u | None => [] end.
Proof.
  induction l as [|u l IH]; simpl; [done|]. intros Hnd.
  inversion Hnd as [|? ? Hnot Hnd']; subst.
  destruct (String.eqb (key u) i) eqn:E.
  - apply String.eqb_eq in E. rewrite IH by done.
    destruct (List.find _ l) as [u'|] eqn:Ef; [|by rewrite app_nil_r].
    apply find_some in Ef as [Hin Hk]. apply String.eqb_eq in Hk.
    exfalso. apply Hnot. rewrite E, <- Hk. by apply in_map.
  - by apply IH.
Qed.

Lemma negb_existsb {A} (f : A -> bool) l :
  negb (existsb f l) = forallb (fun x => negb (f x)) l.
Proof. induction l; simpl; [done|]. by rewrite negb_orb, IHl. Qed.

End JsFacts.

(** * Facts about listings: grouping, the duplicate filter, unique cards *)

Module ListingFacts.
Import Notion Trello Mapping Remote Engine Spec JsFacts.

Section Grouping.
Variable key : card -> string.

Lemma groupsOf_snoc cards c :
  groupsOf key (cards ++ [c]) = add_to_group key (groupsOf key cards) c.
Proof. unfold groupsOf. by rewrite foldl_app. Qed.

Lemma groupBy_snoc cards c :
  groupBy key (cards ++ [c]) = groupBy key cards ≫= fun g => push_group key g c.
Proof. unfold groupBy. by rewrite foldl_app. Qed.

Lemma members_snoc k cards c :
  members key k (cards ++ [c])
  = members key k cards ++ (if String.eqb (key c) k then [c] else []).
Proof. unfold members. rewrite List.filter_app. simpl. by destruct (String.eqb (key c) k). Qed.

Lemma groupsOf_get cards k :
  get (groupsOf key cards) k
  = match members key k cards with [] => None | g => Some g end.
Proof.
  induction cards as [|c cards IH] using rev_ind; [done|].
  rewrite groupsOf_snoc, members_snoc. unfold add_to_group.
  destruct (String.eqb (key c) k) eqn:E.
  - apply String.eqb_eq in E. subst k.
    rewrite IH. destruct (members key (key c) cards) eqn:Em; simpl; by rewrite get_set_eq.
  - apply String.eqb_neq in E. rewrite app_nil_r.
    destruct (get (groupsOf key cards) (key c)); by rewrite get_set_ne.
Qed.

Lemma groupsOf_NoDup cards : List.NoDup (map fst (groupsOf key cards)).
Proof.
  induction cards as [|c cards IH] using rev_ind; [constructor|].
  rewrite groupsOf_snoc. unfold add_to_group.
  destruct (get (groupsOf key cards) (key c)); by apply NoDup_keys_set.
Qed.

(** Every group is the non-empty list of the cards with its key, in
    listing order. *)
Lemma groupsOf_In cards k g :
  In (k, g) (groupsOf key cards) <-> g = members key k cards /\ g <> [].
Proof.
  rewrite In_get by apply groupsOf_NoDup. rewrite groupsOf_get.
  destruct (members key k cards) eqn:E; split.
  - done.
  - by intros [-> H].
  - by intros [= <-].
  - by intros [-> _].
Qed.

(** The grouping raises exactly when a key is an inherited name, and
    otherwise builds the groups. *)
Lemma groupBy_spec cards :
  groupBy key cards
  = if inheritedKey key cards then None else Some (groupsOf key cards).
Proof.
  induction cards as [|c cards IH] using rev_ind; [done|].
  rewrite groupBy_snoc, IH, groupsOf_snoc. unfold inheritedKey in *.
  rewrite existsb_app. simpl. rewrite orb_false_r.
  destruct (existsb _ cards) eqn:E; [done|]. simpl.
  unfold push_group, add_to_group.
  destruct (get (groupsOf key cards) (key c)) as [g|] eqn:Eg;
    [|by destruct (inherited (key c))].
  destruct (inherited (key c)) eqn:Ei; [|done]. exfalso.
  rewrite groupsOf_get in Eg.
  destruct (members key (key c) cards) as [|d l] eqn:Em; [done|].
  assert (In d (members key (key c) cards)) as Hd by (rewrite Em; by left).
  apply filter_In in Hd as [Hd Hk]. apply String.eqb_eq in Hk.
  assert (existsb (fun c => inherited (key c)) cards = true) as Habs.
  { apply existsb_exists. exists d. split; [done | by rewrite Hk]. }
  congruence.
Qed.

Lemma groupsOf_has_key cards c : In c cards -> In (key c) (map fst (groupsOf key cards)).
Proof.
  intros Hc. destruct (get (groupsOf key cards) (key c)) eqn:E.
  - apply In_get in E; [|apply groupsOf_NoDup].
    change (key c) with (fst (key c, l)). by apply in_map.
  - rewrite groupsOf_get in E.
    assert (In c (members key (key c) cards)) as Hm.
    { apply filter_In. split; [done | apply String.eqb_refl]. }
    destruct (members key (key c) cards); [destruct Hm | done].
Qed.

Lemma head_members k cards : head (members key k cards) = firstWith key k cards.
Proof.
  unfold members, firstWith. induction cards as [|c cards IH]; simpl; [done|].
  by destruct (String.eqb (key c) k).
Qed.

Lemma firstWith_key k cards u : firstWith key k cards = Some u -> key u = k /\ In u cards.
Proof.
  intros H. apply find_some in H as [? ?]. split; [by apply String.eqb_eq | done].
Qed.

(** Picking one card out of every group, in enumeration order, yields one
    card per key. *)
Lemma picks_keys (pick : list card -> option card) cards :
  (forall k g, g = members key k cards -> g <> [] -> exists u, pick g = Some u /\ key u = k) ->
  map key (flat_map (fun kv => option_list (pick (snd kv))) (entries (groupsOf key cards)))
  = map fst (entries (groupsOf key cards)).
Proof.
  intros Hpick.
  assert (Forall (fun kv => In kv (groupsOf key cards)) (entries (groupsOf key cards))) as H.
  { apply List.Forall_forall. intros kv. apply In_entries. }
  induction H as [|[k g] l Hin _ IH]; simpl; [done|].
  apply groupsOf_In in Hin as [Hg Hne].
  destruct (Hpick k g Hg Hne) as (u & -> & <-). simpl. by rewrite IH.
Qed.

Lemma In_picks (pick : list card -> option card) cards u :
  In u (flat_map (fun kv => option_list (pick (snd kv))) (entries (groupsOf key cards))) ->
  exists k, members key k cards <> [] /\ pick (members key k cards) = Some u.
Proof.
  intros H. apply in_flat_map in H as ([k g] & Hkv & Hu). simpl in Hu.
  apply In_entries, groupsOf_In in Hkv as [-> Hne].
  exists k. split; [done|]. destruct (pick (members key k cards)); simpl in Hu; [|done].
  by destruct Hu as [->|[]].
Qed.

Lemma keys_covered cards c :
  In c cards -> In (key c) (map fst (entries (groupsOf key cards))).
Proof.
  intros Hc. apply groupsOf_has_key in Hc.
  eapply Permutation_in; [|exact Hc]. apply Permutation_map. symmetry. apply entries_perm.
Qed.
End Grouping.

Lemma inheritedKey_false key cards :
  inheritedKey key cards = false <-> Forall (fun c => inherited (key c) = false) cards.
Proof.
  unfold inheritedKey. rewrite <- negb_true_iff, negb_existsb, forallb_forall, List.Forall_forall.
  split; intros H c Hc; specialize (H c Hc); by apply negb_true_iff.
Qed.

Lemma inheritedKey_incl key cards cards' :
  (forall c, In c cards' -> In c cards) ->
  inheritedKey key cards = false -> inheritedKey key cards' = false.
Proof.
  rewrite !inheritedKey_false, !List.Forall_forall. auto.
Qed.

(** An inherited name has seven characters or more. *)
Lemma inherited_length k : inherited k = true -> 7 <= String.length k.
Proof.
  unfold inherited, inheritedNames. simpl. intros H.
  repeat (apply orb_true_iff in H as [H|H];
          [apply String.eqb_eq in H; subst k; simpl; lia|]).
  done.
Qed.

Lemma length_substring n m s : String.length (substring n m s) <= m.
Proof.
  revert n m. induction s as [|a s IH]; intros [|n] [|m]; simpl; try lia.
  - specialize (IH 0 m). lia.
  - apply (IH n 0).
  - apply (IH n (S m)).
Qed.

(** The grouping by id prefix never raises. *)
Lemma idPrefix_plain cards : inheritedKey idPrefix cards = false.
Proof.
  apply inheritedKey_false, List.Forall_forall. intros c _.
  apply not_true_is_false. intros H. apply inherited_length in H.
  unfold idPrefix in H. pose proof (length_substring 0 5 (card_id c)). lia.
Qed.

Section Unique.
Implicit Types cards : list card.

Lemma head_pick cards k g :
  g = members card_id k cards -> g <> [] -> exists u, head g = Some u /\ card_id u = k.
Proof.
  intros -> Hne. rewrite head_members.
  destruct (members card_id k cards) as [|u g] eqn:E; [done|].
  assert (firstWith card_id k cards = Some u) as Hf by (rewrite <- head_members, E; done).
  exists u. split; [done|]. by apply firstWith_key in Hf as [? _].
Qed.

Lemma uniqueCards_ids cards :
  map card_id (uniqueCards cards) = map fst (entries (groupsOf card_id cards)).
Proof.
  unfold uniqueCards, firstOfEach. rewrite flat_map_values.
  apply (picks_keys card_id (@head card)). apply head_pick.
Qed.

(** No id is processed twice. *)
Lemma uniqueCards_NoDup cards : List.NoDup (map card_id (uniqueCards cards)).
Proof. rewrite uniqueCards_ids. apply NoDup_keys_entries, groupsOf_NoDup. Qed.

(** A processed card is the first of the listing with its id. *)
Lemma uniqueCards_first cards u :
  In u (uniqueCards cards) -> firstWith card_id (card_id u) cards = Some u.
Proof.
  unfold uniqueCards, firstOfEach. rewrite flat_map_values. intros H.
  apply (In_picks card_id (@head card)) in H as (k & _ & Hh).
  rewrite head_members in Hh. by destruct (firstWith_key _ _ _ _ Hh) as [-> _].
Qed.

(** Every id of the listing is processed. *)
Lemma uniqueCards_cover cards c :
  In c cards -> exists u, In u (uniqueCards cards) /\ card_id u = card_id c.
Proof.
  intros Hc. apply (keys_covered card_id) in Hc.
  rewrite <- uniqueCards_ids in Hc. apply in_map_iff in Hc as (u & ? & ?). eauto.
Qed.

Lemma uniqueCards_incl cards u : In u (uniqueCards cards) -> In u cards.
Proof. intros H. apply uniqueCards_first in H. by apply firstWith_key in H as [_ ?]. Qed.

(** Over cards whose ids and trimmed titles are not inherited names the
    grouping code does not raise. *)
Lemma plain_groupingRaises cards :
  Forall (fun c => plainCard c = true) cards -> groupingRaises cards = false.
Proof.
  intros H. unfold groupingRaises. apply orb_false_iff. split.
  - apply inheritedKey_false. eapply Forall_impl; [exact H|]. intros c Hc.
    apply andb_true_iff in Hc as [Hc _]. by apply negb_true_iff.
  - apply (inheritedKey_incl _ cards); [apply uniqueCards_incl|].
    apply inheritedKey_false. eapply Forall_impl; [exact H|]. intros c Hc.
    apply andb_true_iff in Hc as [_ Hc]. by apply negb_true_iff.
Qed.

Lemma find_uniqueCards cards i :
  List.find (fun u => String.eqb (card_id u) i) (uniqueCards cards)
  = firstWith card_id i cards.
Proof.
  destruct (List.find _ (uniqueCards cards)) as [u|] eqn:E.
  - apply find_some in E as [Hin Hk]. apply String.eqb_eq in Hk.
    apply uniqueCards_first in Hin. by rewrite Hk in Hin.
  - destruct (firstWith card_id i cards) as [c|] eqn:Ec; [|done].
    apply firstWith_key in Ec as [Hk Hin].
    apply uniqueCards_cover in Hin as (u & Hu & Hid).
    eapply find_none in E; [|exact Hu]. simpl in E.
    rewrite Hid, Hk, String.eqb_refl in E. done.
Qed.
End Unique.

Section Filter.
Implicit Types cards : list card.

Lemma insert_by_date_perm c l : Permutation (insert_by_date c l) (c :: l).
Proof.
  induction l as [|d l IH]; simpl; [done|].
  destruct (dateLastActivity d <? dateLastActivity c)%Z; [|done].
  rewrite IH. apply perm_swap.
Qed.

Lemma sort_by_date_perm l : Permutation (sort_by_date l) l.
Proof.
  induction l as [|c l IH]; simpl; [done|].
  rewrite insert_by_date_perm. by rewrite IH.
Qed.

Lemma cardToKeep_In g u : cardToKeep g = Some u -> In u g.
Proof.
  unfold cardToKeep. destruct g as [|c [|d g]].
  - done.
  - intros [= ->]. by left.
  - set (l := c :: d :: g). set (sorted := sort_by_date l).
    assert (forall x, In x sorted -> In x l) as Hs.
    { intros x. apply Permutation_in, sort_by_date_perm. }
    destruct (List.filter _ sorted) as [|x xs] eqn:E1.
    + destruct (List.filter (fun c => negb (startsWith (card_id c) "688bc")) sorted)
        as [|y ys] eqn:E2.
      * intros H. apply Hs. destruct sorted; [done|]. injection H as ->. by left.
      * intros [= ->]. apply Hs.
        assert (In u (u :: ys)) as Hin by (by left).
        rewrite <- E2 in Hin. by apply filter_In in Hin as [? _].
    + intros [= ->]. apply Hs.
      assert (In u (u :: xs)) as Hin by (by left).
      rewrite <- E1 in Hin. by apply filter_In in Hin as [? _].
Qed.

Lemma cardToKeep_Some g : g <> [] -> exists u, cardToKeep g = Some u.
Proof.
  unfold cardToKeep. destruct g as [|c [|d g]]; [done | eauto |]. intros _.
  set (l := c :: d :: g). set (sorted := sort_by_date l).
  destruct (List.filter _ sorted); [|eauto].
  destruct (List.filter _ sorted); [|eauto].
  destruct sorted eqn:E; [|simpl; eauto].
  exfalso. assert (Permutation [] l) as Hp by (rewrite <- E; apply sort_by_date_perm).
  by apply Permutation_nil in Hp.
Qed.

Lemma keep_pick cards k g :
  g = members trimmedName k cards -> g <> [] ->
  exists u, cardToKeep g = Some u /\ trimmedName u = k.
Proof.
  intros -> Hne. destruct (cardToKeep_Some _ Hne) as [u Hu].
  exists u. split; [done|]. apply cardToKeep_In in Hu.
  apply filter_In in Hu as [_ Hu]. by apply String.eqb_eq.
Qed.

Lemma kept_names cards :
  map trimmedName (keptCards cards)
  = map fst (entries (groupsOf trimmedName cards)).
Proof. unfold keptCards, keptOf. apply (picks_keys trimmedName cardToKeep), keep_pick. Qed.

(** The filter raises exactly when a trimmed title is an inherited name. *)
Lemma removeProblematicCards_spec cards :
  removeProblematicCards cards
  = if inheritedKey trimmedName cards then None else Some (keptCards cards).
Proof.
  unfold removeProblematicCards. rewrite groupBy_spec.
  by destruct (inheritedKey trimmedName cards).
Qed.

Lemma removeProblematicCards_Some cards kept :
  removeProblematicCards cards = Some kept ->
  inheritedKey trimmedName cards = false /\ kept = keptCards cards.
Proof.
  rewrite removeProblematicCards_spec.
  destruct (inheritedKey trimmedName cards); [done|]. by intros [= <-].
Qed.

(** The filter keeps at most one card per trimmed title. *)
Lemma kept_NoDup cards : List.NoDup (map trimmedName (keptCards cards)).
Proof. rewrite kept_names. apply NoDup_keys_entries, groupsOf_NoDup. Qed.

(** A kept card is the one the selection rule picks among the cards of its
    trimmed title. *)
Lemma kept_choice cards u :
  In u (keptCards cards) ->
  cardToKeep (members trimmedName (trimmedName u) cards) = Some u.
Proof.
  intros H. unfold keptCards, keptOf in H.
  apply (In_picks trimmedName cardToKeep) in H as (k & _ & Hk).
  assert (trimmedName u = k) as <-; [|done].
  apply cardToKeep_In in Hk. apply filter_In in Hk as [_ Hk]. by apply String.eqb_eq.
Qed.

Lemma kept_incl cards u : In u (keptCards cards) -> In u cards.
Proof.
  intros H. apply kept_choice, cardToKeep_In in H. by apply filter_In in H as [? _].
Qed.

(** Every trimmed title of the listing keeps one card. *)
Lemma kept_cover cards c :
  In c cards ->
  exists u, In u (keptCards cards) /\ trimmedName u = trimmedName c.
Proof.
  intros Hc. apply (keys_covered trimmedName) in Hc.
  rewrite <- kept_names in Hc. apply in_map_iff in Hc as (u & ? & ?). eauto.
Qed.
End Filter.

End ListingFacts.

(** * The record mapper *)

Module MappingFacts.
Import Notion Trello Mapping Remote Engine Spec JsFacts.

Section WithHost.
Context {host : Host}.

(** C5.  The change predicate of the code is the [valuesDiffer] of the
    specification: for all [a] and [b], false when both are null or
    undefined, true when exactly one is, [|a - b| > 0.001] when both are
    numbers, and otherwise whether the trimmed string forms differ. *)
Theorem hasChanged_is_valuesDiffer (a b : value) : hasChanged a b = valuesDiffer a b.
Proof.
  destruct a as [| |x|x|x], b as [| |y|y|y]; unfold hasChanged, valuesDiffer; simpl;
    reflexivity.
Qed.

Lemma hasChanged_both_nullish a b :
  is_nullish a = true -> is_nullish b = true -> hasChanged a b = false.
Proof. by destruct a, b. Qed.

Lemma hasChanged_one_nullish a b :
  xorb (is_nullish a) (is_nullish b) = true -> hasChanged a b = true.
Proof. by destruct a, b. Qed.

Lemma hasChanged_numbers x y :
  hasChanged (VNumber x) (VNumber y)
  = PrimFloat.ltb 0.001 (PrimFloat.abs (PrimFloat.sub x y)).
Proof. reflexivity. Qed.

Lemma hasChanged_strings s1 s2 :
  hasChanged (VString s1) (VString s2) = negb (String.eqb (trim s1) (trim s2)).
Proof. reflexivity. Qed.

Lemma lookup_setNumber_eq k cf (p : gmap string property) :
  setNumber k cf p !! k
  = if is_nullish (field cf k) then p !! k
    else Some (PNumber (VNumber (toNumber (field cf k)))).
Proof.
  unfold setNumber. destruct (is_nullish (field cf k)); [done|]. apply lookup_insert_eq.
Qed.

Lemma lookup_setNumber_ne k k' cf (p : gmap string property) :
  k <> k' -> setNumber k cf p !! k' = p !! k'.
Proof.
  intros Hne. unfold setNumber. destruct (is_nullish (field cf k)); [done|].
  by apply lookup_insert_ne.
Qed.

Lemma get_copyNumber_eq k (p : gmap string property) (o : obj value) :
  get o k = None ->
  get (copyNumber k p o) k
  = match p !! k with
    | Some (PNumber n) => if is_nullish n then None else Some n
    | _ => None
    end.
Proof.
  intros Ho. unfold copyNumber. destruct (p !! k) as [[| | |n| |]|]; try done.
  destruct (is_nullish n); [done|]. apply get_set_eq.
Qed.

Lemma get_copyNumber_ne k k' (p : gmap string property) (o : obj value) :
  k <> k' -> get (copyNumber k p o) k' = get o k'.
Proof.
  intros Hne. unfold copyNumber. destruct (p !! k) as [[| | |n| |]|]; try done.
  destruct (is_nullish n); [done|]. by apply get_set_ne.
Qed.

(** Two string literals differ. *)
Ltac differ := let H := fresh in intros H; discriminate H.

(** What the mapped properties hold under the title and the four numeric
    fields. *)
Lemma mapTrelloToNotion_title c cf ln :
  mapTrelloToNotion c cf ln !! "Priority Name" = Some (PTitle [card_name c]).
Proof.
  unfold mapTrelloToNotion.
  rewrite lookup_insert_ne by differ.
  rewrite !lookup_setNumber_ne by differ.
  rewrite !lookup_insert_ne by differ.
  apply lookup_insert_eq.
Qed.

Lemma mapTrelloToNotion_trelloId c cf ln :
  extractRichTextValue (mapTrelloToNotion c cf ln !! "Trello ID") = card_id c.
Proof.
  unfold mapTrelloToNotion.
  rewrite lookup_insert_ne by differ.
  rewrite !lookup_setNumber_ne by differ.
  by rewrite lookup_insert_eq.
Qed.

Lemma mapTrelloToNotion_numbers c cf ln :
  Forall (fun k => mapTrelloToNotion c cf ln !! k
                   = if is_nullish (field cf k) then None
                     else Some (PNumber (VNumber (toNumber (field cf k)))))
         numericFields.
Proof.
  unfold numericFields, mapTrelloToNotion.
  repeat (apply List.Forall_cons); try apply List.Forall_nil.
  all: rewrite lookup_insert_ne by differ.
  all: rewrite ?lookup_setNumber_ne by differ.
  all: rewrite lookup_setNumber_eq.
  all: rewrite ?lookup_setNumber_ne by differ.
  all: rewrite !lookup_insert_ne by differ.
  all: by rewrite lookup_empty; destruct (is_nullish _).
Qed.

(** What the inverse mapping reads back. *)
Lemma mapNotionToTrello_title e :
  update_name (mapNotionToTrello e)
  = match properties e !! "Priority Name" with
    | Some (PTitle (content :: _)) => if String.eqb content "" then None else Some content
    | _ => None
    end.
Proof. reflexivity. Qed.

Lemma mapNotionToTrello_numbers e :
  Forall (fun k => get (update_customFields (mapNotionToTrello e)) k
                   = match properties e !! k with
                     | Some (PNumber n) => if is_nullish n then None else Some n
                     | _ => None
                     end)
         numericFields.
Proof.
  unfold numericFields, mapNotionToTrello. simpl.
  repeat (apply List.Forall_cons); try apply List.Forall_nil.
  all: rewrite get_set_ne by differ.
  all: rewrite ?get_copyNumber_ne by differ.
  all: rewrite get_copyNumber_eq; [done|].
  all: by rewrite ?get_copyNumber_ne by differ.
Qed.

(** Mapping to the Database and back, for arbitrary field values: an empty
    title is dropped, a set field comes back as the number it converts to. *)
Lemma round_trip_any (c : card) (cf : gmap string value) (listName pageId : string) :
  let back := mapNotionToTrello
                {| entry_id := pageId; properties := mapTrelloToNotion c cf listName |} in
  update_name back = (if String.eqb (card_name c) "" then None else Some (card_name c))
  /\ Forall (fun k => get (update_customFields back) k
                      = if is_nullish (field cf k) then None
                        else Some (VNumber (toNumber (field cf k))))
            numericFields.
Proof.
  intros back. split.
  - unfold back. rewrite mapNotionToTrello_title. simpl.
    by rewrite mapTrelloToNotion_title.
  - pose proof (mapNotionToTrello_numbers
                  {| entry_id := pageId; properties := mapTrelloToNotion c cf listName |}) as H1.
    pose proof (mapTrelloToNotion_numbers c cf listName) as H2.
    rewrite List.Forall_forall in *. intros k Hk.
    unfold back. rewrite (H1 k Hk). simpl. rewrite (H2 k Hk).
    by destruct (is_nullish (field cf k)).
Qed.

(** C6, as amended.  Round trip of the mapper: for a card with a non-empty
    title, mapping to Database properties and back recovers the title; each
    of the four numeric fields that is set to a non-null value [v] comes
    back as the number [Number(v)], which is [v] itself when [v] is a
    number; and a field that is not set comes back unset. *)
Theorem mapper_round_trip (c : card) (cf : gmap string value) (listName pageId : string) :
  card_name c <> "" ->
  let back := mapNotionToTrello
                {| entry_id := pageId; properties := mapTrelloToNotion c cf listName |} in
  update_name back = Some (card_name c)
  /\ Forall (fun k => get (update_customFields back) k
                      = if is_nullish (field cf k) then None
                        else Some (VNumber (toNumber (field cf k))))
            numericFields
  /\ Forall (fun k => is_number (field cf k) = true ->
                      get (update_customFields back) k = Some (field cf k))
            numericFields.
Proof.
  intros Hname.
  destruct (round_trip_any c cf listName pageId) as [Ht Hf]. split; [|split].
  - rewrite Ht. destruct (String.eqb (card_name c) "") eqn:E; [|done].
    by apply String.eqb_eq in E.
  - exact Hf.
  - rewrite List.Forall_forall in *. intros k Hk Hnum.
    rewrite (Hf k Hk). by destruct (field cf k).
Qed.

End WithHost.

End MappingFacts.

(** * Reasoning rules for computations *)

Module Rules.
Import Notion Trello Mapping Remote Engine Spec.

Section WithWorld.
Context {W : Type}.

Lemma post_mono {A} (m : M W A) s (Q Q' : outcome A -> state W -> list event -> Prop) :
  post m s Q -> (forall r s' t, Q r s' t -> Q' r s' t) -> post m s Q'.
Proof. unfold post. destruct (m s) as [[r s'] t]. auto. Qed.

Lemma post_and {A} (m : M W A) s (Q Q' : outcome A -> state W -> list event -> Prop) :
  post m s Q -> post m s Q' -> post m s (fun r s' t => Q r s' t /\ Q' r s' t).
Proof. unfold post. destruct (m s) as [[r s'] t]. auto. Qed.

Lemma post_ret {A} (a : A) s (Q : outcome A -> state W -> list event -> Prop) :
  Q (Ok a) s [] -> post (ret a) s Q.
Proof. done. Qed.

Lemma post_modify f s (Q : outcome unit -> state W -> list event -> Prop) :
  Q (Ok tt) {| world := world s; syncStats := f (syncStats s) |} [] ->
  post (modify_stats f) s Q.
Proof. done. Qed.

Lemma post_bind {A B} (m : M W A) (k : A -> M W B) s
      (Q : outcome B -> state W -> list event -> Prop) :
  post m s (fun r s1 t1 =>
              match r with
              | Ok a => post (k a) s1 (fun r2 s2 t2 => Q r2 s2 (t1 ++ t2))
              | Throw => Q Throw s1 t1
              end) ->
  post (bind m k) s Q.
Proof.
  unfold post, bind. destruct (m s) as [[[a|] s1] t1]; [|done].
  by destruct (k a s1) as [[r2 s2] t2].
Qed.

Lemma post_try {A} (m h : M W A) s (Q : outcome A -> state W -> list event -> Prop) :
  post m s (fun r s1 t1 =>
              match r with
              | Ok a => Q (Ok a) s1 t1
              | Throw => post h s1 (fun r2 s2 t2 => Q r2 s2 (t1 ++ t2))
              end) ->
  post (try_catch m h) s Q.
Proof.
  unfold post, try_catch. destruct (m s) as [[[a|] s1] t1]; [done|].
  by destruct (h s1) as [[r2 s2] t2].
Qed.

Lemma post_settle {A} (m : M W A) s
      (Q : outcome (outcome A) -> state W -> list event -> Prop) :
  post m s (fun r s1 t1 => Q (Ok r) s1 t1) -> post (settle m) s Q.
Proof. unfold post, settle. by destruct (m s) as [[r s1] t1]. Qed.

(** A loop whose body never throws: the invariant is indexed by the
    elements already processed. *)
Lemma post_forEach {A} (I : list A -> state W -> list event -> Prop)
      (xs : list A) (body : A -> M W unit) s :
  I [] s [] ->
  (forall pre x s1 t1, I pre s1 t1 ->
     post (body x) s1 (fun r s2 t2 => r = Ok tt /\ I (pre ++ [x]) s2 (t1 ++ t2))) ->
  post (forEach xs body) s (fun r s' t => r = Ok tt /\ I xs s' t).
Proof.
  intros H0 Hstep.
  cut (forall pre s1 t1, I pre s1 t1 ->
         post (forEach xs body) s1 (fun r s' t => r = Ok tt /\ I (pre ++ xs) s' (t1 ++ t))).
  { intros H. apply (H [] s [] H0). }
  induction xs as [|x xs IH]; intros pre s1 t1 HI.
  - simpl. apply post_ret. by rewrite !app_nil_r.
  - simpl. apply post_bind. eapply post_mono; [apply (Hstep _ x _ _ HI)|].
    intros r s2 t2 [-> HI']. eapply post_mono; [apply (IH _ _ _ HI')|].
    intros r s3 t3 [-> H]. split; [done|]. by rewrite <- !app_assoc in *.
Qed.

(** A loop of iterations that each send the calls [f x] and update the
    statistics by [step], event by event. *)
Lemma post_loop {A} (f : A -> list call) (step : stats -> event -> stats)
      (body : A -> M W unit) xs (s : state W) :
  (forall x s1, post (body x) s1 (fun r s' t =>
       r = Ok tt /\ map fst t = f x /\ syncStats s' = foldl step (syncStats s1) t)) ->
  post (forEach xs body) s (fun r s' t =>
       r = Ok tt /\ map fst t = flat_map f xs /\ syncStats s' = foldl step (syncStats s) t).
Proof.
  intros Hbody.
  apply (post_forEach (fun pre s1 t1 =>
           map fst t1 = flat_map f pre /\ syncStats s1 = foldl step (syncStats s) t1)).
  - done.
  - intros pre x s1 t1 [Ht Hs]. eapply post_mono; [apply Hbody|].
    intros r s2 t2 (-> & Ht2 & Hs2). split; [done|]. split.
    + rewrite map_app, flat_map_app. simpl. rewrite app_nil_r. by f_equal.
    + by rewrite foldl_app, <- Hs.
Qed.

(** A loop whose iterations all leave the state alone and send nothing. *)
Lemma forEach_noop {A} (xs : list A) (body : A -> M W unit) (s : state W) :
  Forall (fun x => body x s = (Ok tt, s, [])) xs -> forEach xs body s = (Ok tt, s, []).
Proof.
  induction 1 as [|x xs Hx _ IH]; simpl; [done|].
  unfold bind. by rewrite Hx, IH.
Qed.

Context {services : Services W}.

Lemma post_request (c : call) s (Q : outcome (response c) -> state W -> list event -> Prop) :
  (forall v w', perform c (world s) = (Some v, w') ->
     Q (Ok v) {| world := w'; syncStats := syncStats s |} [(c, true)]) ->
  (forall w', perform c (world s) = (None, w') ->
     Q Throw {| world := w'; syncStats := syncStats s |} [(c, false)]) ->
  post (request c) s Q.
Proof.
  intros H1 H2. unfold post, request.
  destruct (perform c (world s)) as [[v|] w'] eqn:E; auto.
Qed.
End WithWorld.

Lemma failures_app t1 t2 : failures (t1 ++ t2) = failures t1 + failures t2.
Proof. unfold failures. by rewrite List.filter_app, length_app. Qed.

Lemma failures_cons ev t : failures (ev :: t) = (if failed ev then 1 else 0) + failures t.
Proof. unfold failures. simpl. by destruct (failed ev). Qed.

Section Accounting.
Context {W : Type} {services : Services W}.

Lemma accounted_ret {A} (a : A) : accounted (W := W) (ret a).
Proof. intros s. apply post_ret. simpl. unfold failures. simpl. lia. Qed.

Lemma accounted_modify f :
  (forall st, errors (f st) = errors st) -> accounted (W := W) (modify_stats f).
Proof. intros Hf s. apply post_modify. simpl. rewrite Hf. unfold failures. simpl. lia. Qed.

Lemma accounted_request c : accounted (request c).
Proof. intros s. apply post_request; intros; simpl; unfold failures; simpl; lia. Qed.

Lemma accounted_bind {A B} (m : M W A) (k : A -> M W B) :
  accounted m -> (forall a, accounted (k a)) -> accounted (bind m k).
Proof.
  intros Hm Hk s. apply post_bind. eapply post_mono; [apply Hm|].
  intros [a|] s1 t1 H1; simpl in H1; [|simpl; lia].
  eapply post_mono; [apply Hk|]. intros r s2 t2 H2. simpl in *.
  rewrite failures_app. lia.
Qed.

Lemma contained_caught (m : M W unit) :
  accounted m -> contained (try_catch m (modify_stats incr_errors)).
Proof.
  intros Hm s. apply post_try. eapply post_mono; [apply Hm|].
  intros [[]|] s1 t1 H1; simpl in H1.
  - split; [done | lia].
  - apply post_modify. simpl. rewrite app_nil_r. split; [done | lia].
Qed.

Lemma contained_ret : contained (W := W) (ret tt).
Proof. intros s. apply post_ret. split; [done|]. unfold failures. simpl. lia. Qed.

Lemma contained_bind (m : M W unit) (k : unit -> M W unit) :
  contained m -> (forall a, contained (k a)) -> contained (bind m k).
Proof.
  intros Hm Hk s. apply post_bind. eapply post_mono; [apply Hm|].
  intros r s1 t1 [-> H1]. eapply post_mono; [apply Hk|].
  intros r s2 t2 [-> H2]. split; [done|]. rewrite failures_app. lia.
Qed.

Lemma contained_forEach {A} (xs : list A) (body : A -> M W unit) :
  (forall x, contained (body x)) -> contained (forEach xs body).
Proof.
  intros Hb. induction xs as [|x xs IH]; simpl; [apply contained_ret|].
  apply contained_bind; [apply Hb | intros _; apply IH].
Qed.

Lemma pushesOnly_ret {A} (a : A) : pushesOnly (W := W) (ret a).
Proof. intros s. by apply post_ret. Qed.

Lemma pushesOnly_modify f :
  (forall st, structural (f st) = structural st) -> pushesOnly (W := W) (modify_stats f).
Proof. intros Hf s. apply post_modify. simpl. by rewrite Hf. Qed.

Lemma pushesOnly_request c : fieldWrite c = true -> pushesOnly (request c).
Proof.
  intros Hc s. apply post_request; intros; (split; [|done]); by apply Forall_cons.
Qed.

Lemma pushesOnly_bind {A B} (m : M W A) (k : A -> M W B) :
  pushesOnly m -> (forall a, pushesOnly (k a)) -> pushesOnly (bind m k).
Proof.
  intros Hm Hk s. apply post_bind. eapply post_mono; [apply Hm|].
  intros [a|] s1 t1 [H1 H1']; [|done].
  eapply post_mono; [apply Hk|]. intros r s2 t2 [H2 H2']. split.
  - by apply Forall_app.
  - congruence.
Qed.

Lemma pushesOnly_try {A} (m h : M W A) :
  pushesOnly m -> pushesOnly h -> pushesOnly (try_catch m h).
Proof.
  intros Hm Hh s. apply post_try. eapply post_mono; [apply Hm|].
  intros [a|] s1 t1 [H1 H1']; [done|].
  eapply post_mono; [apply Hh|]. intros r s2 t2 [H2 H2']. split.
  - by apply Forall_app.
  - congruence.
Qed.

Lemma pushesOnly_forEach {A} (xs : list A) (body : A -> M W unit) :
  Forall (fun x => pushesOnly (body x)) xs -> pushesOnly (forEach xs body).
Proof.
  induction 1 as [|x xs Hx _ IH]; simpl; [apply pushesOnly_ret|].
  apply pushesOnly_bind; [done | by intros _].
Qed.
End Accounting.

Section Sending.
Context {W : Type}.
Variable P : call -> bool.

Lemma sends_ret {A} (a : A) : sends (W := W) P (ret a).
Proof. intros s. by apply post_ret. Qed.

Lemma sends_throw {A} : sends P (@throw W A).
Proof. intros s. unfold post, throw. constructor. Qed.

Lemma sends_modify f : sends (W := W) P (modify_stats f).
Proof. intros s. by apply post_modify. Qed.

Lemma sends_get_stats : sends (W := W) P get_stats.
Proof. intros s. unfold post, get_stats. constructor. Qed.

Lemma sends_bind {A B} (m : M W A) (k : A -> M W B) :
  sends P m -> (forall a, sends P (k a)) -> sends P (bind m k).
Proof.
  intros Hm Hk s. apply post_bind. eapply post_mono; [apply Hm|].
  intros [a|] s1 t1 H1; [|done].
  eapply post_mono; [apply Hk|]. intros r s2 t2 H2. by apply Forall_app.
Qed.

Lemma sends_try {A} (m h : M W A) : sends P m -> sends P h -> sends P (try_catch m h).
Proof.
  intros Hm Hh s. apply post_try. eapply post_mono; [apply Hm|].
  intros [a|] s1 t1 H1; [done|].
  eapply post_mono; [apply Hh|]. intros r s2 t2 H2. by apply Forall_app.
Qed.

Lemma sends_settle {A} (m : M W A) : sends P m -> sends P (settle m).
Proof. intros Hm s. apply post_settle. apply Hm. Qed.

Lemma sends_forEach {A} (xs : list A) (body : A -> M W unit) :
  (forall x, sends P (body x)) -> sends P (forEach xs body).
Proof.
  intros Hb. induction xs as [|x xs IH]; simpl; [apply sends_ret|].
  apply sends_bind; [apply Hb | by intros _].
Qed.

Context {services : Services W}.

Lemma sends_request c : P c = true -> sends P (request c).
Proof. intros Hc s. apply post_request; intros; by apply Forall_cons. Qed.
End Sending.

(** Solves [sends P m] when [P] holds of every request in the code of [m]. *)
Ltac sending :=
  repeat first
    [ apply sends_ret
    | apply sends_throw
    | apply sends_modify
    | apply sends_get_stats
    | apply sends_bind; [|intros ?]
    | apply sends_try
    | apply sends_settle
    | apply sends_forEach; intros ?
    | match goal with
      | |- sends ?P (request ?c) => apply (sends_request P c); reflexivity
      | |- sends _ (match ?x with _ => _ end) => destruct x
      end ].

(** Solves [accounted m] for straight-line code with branches. *)
Ltac accounting :=
  repeat first
    [ apply accounted_ret
    | apply accounted_modify; reflexivity
    | apply accounted_bind; [|intros ?]
    | match goal with
      | |- accounted (request ?c) => exact (accounted_request c)
      | |- accounted (match ?x with _ => _ end) => destruct x
      end ].

(** Solves [pushesOnly m] for straight-line code with branches. *)
Ltac pushing :=
  repeat first
    [ apply pushesOnly_ret
    | apply pushesOnly_modify; reflexivity
    | apply pushesOnly_bind; [|intros ?]
    | match goal with
      | |- pushesOnly (request ?c) => apply (pushesOnly_request c); reflexivity
      | |- pushesOnly (match ?x with _ => _ end) => destruct x eqn:?
      end ].

End Rules.

(** * The passes of the engine *)

Module PassFacts.
Import Notion Trello Mapping Remote Engine Spec JsFacts ListingFacts MappingFacts Rules.

(** ** Lookup maps *)

Lemma createCardMap_snoc cards c :
  createCardMap (cards ++ [c]) = <[card_id c := c]> (createCardMap cards).
Proof. unfold createCardMap. by rewrite foldl_app. Qed.

(** An id resolves in the card map iff a card of the list has it. *)
Lemma createCardMap_lookup cards k :
  bool_decide (is_Some (createCardMap cards !! k))
  = existsb (fun c => String.eqb (card_id c) k) cards.
Proof.
  induction cards as [|c cards IH] using rev_ind; [done|].
  rewrite createCardMap_snoc, existsb_app. simpl. rewrite orb_false_r, <- IH.
  destruct (String.eqb (card_id c) k) eqn:E.
  - apply String.eqb_eq in E. subst. rewrite lookup_insert_eq, orb_true_r.
    by apply bool_decide_eq_true.
  - apply String.eqb_neq in E. by rewrite lookup_insert_ne, orb_false_r.
Qed.

Lemma createNotionLookupMap_snoc es e :
  createNotionLookupMap (es ++ [e])
  = if String.eqb (trelloIdOf e) "" then createNotionLookupMap es
    else <[trelloIdOf e := e]> (createNotionLookupMap es).
Proof. unfold createNotionLookupMap. by rewrite foldl_app. Qed.

(** An id resolves in the entry map iff an entry references it. *)
Lemma createNotionLookupMap_lookup es k :
  bool_decide (is_Some (createNotionLookupMap es !! k)) = existsb (references k) es.
Proof.
  induction es as [|e es IH] using rev_ind; [done|].
  rewrite createNotionLookupMap_snoc, existsb_app. simpl. rewrite orb_false_r, <- IH.
  unfold references. destruct (String.eqb (trelloIdOf e) "") eqn:E0; simpl.
  - by rewrite orb_false_r.
  - destruct (String.eqb (trelloIdOf e) k) eqn:E.
    + apply String.eqb_eq in E. subst. rewrite lookup_insert_eq, orb_true_r.
      by apply bool_decide_eq_true.
    + apply String.eqb_neq in E. by rewrite lookup_insert_ne, orb_false_r.
Qed.

Lemma createCustomFieldMap_snoc fs f :
  createCustomFieldMap (fs ++ [f]) = <[field_name f := field_id f]> (createCustomFieldMap fs).
Proof. unfold createCustomFieldMap. by rewrite foldl_app. Qed.

(** A name no definition carries is not in the field map. *)
Lemma createCustomFieldMap_absent fs name :
  Forall (fun f => field_name f <> name) fs -> createCustomFieldMap fs !! name = None.
Proof.
  induction fs as [|f fs IH] using rev_ind; intros H; [done|].
  apply Forall_app in H as [Hfs Hf]. apply Forall_cons in Hf as [Hf _].
  rewrite createCustomFieldMap_snoc, lookup_insert_ne by done. by apply IH.
Qed.

Section WithServices.
Context {host : Host} {W : Type} {services : Services W}.

(** ** Board -> Database *)

Lemma post_syncCard lm fs byId c (s : state W) :
  post (try_catch (syncCard lm fs byId c) (modify_stats incr_errors)) s
       (fun r s' t => r = Ok tt /\ map fst t = databaseCalls lm fs byId c
                      /\ syncStats s' = foldl countDatabase (syncStats s) t).
Proof.
  unfold syncCard, databaseCalls, propertiesOf. apply post_try.
  destruct (byId !! card_id c) as [e|].
  - destruct (shouldUpdateNotionEntry _ _ _ _); [|by apply post_ret].
    apply post_bind, post_request; [intros [] w' _ | intros w' _]; by apply post_modify.
  - apply post_bind, post_request; [intros [] w' _ | intros w' _]; by apply post_modify.
Qed.

Lemma syncTrelloToNotion_spec cards lm fs byId :
  syncTrelloToNotion cards lm fs byId
  = if groupingRaises cards then throw
    else forEach (uniqueCards cards) (fun c =>
           try_catch (syncCard lm fs byId c) (modify_stats incr_errors)).
Proof.
  unfold syncTrelloToNotion, groupingRaises.
  rewrite (groupBy_spec idPrefix), idPrefix_plain, (groupBy_spec card_id).
  destruct (inheritedKey card_id cards); [done|]. simpl.
  fold (uniqueCards cards). rewrite groupBy_spec.
  by destruct (inheritedKey trimmedName (uniqueCards cards)).
Qed.

(** When the grouping code raises, the pass throws before any request.
    Otherwise it never throws; it sends, for each unique card in turn, the
    Database operation the card calls for, whatever the outcome of the
    earlier ones, and counts each request by its outcome. *)
Lemma post_syncTrelloToNotion cards lm fs byId (s : state W) :
  post (syncTrelloToNotion cards lm fs byId) s
       (fun r s' t =>
          if groupingRaises cards then r = Throw /\ s' = s /\ t = []
          else r = Ok tt
               /\ map fst t = flat_map (databaseCalls lm fs byId) (uniqueCards cards)
               /\ syncStats s' = foldl countDatabase (syncStats s) t).
Proof.
  rewrite syncTrelloToNotion_spec. destruct (groupingRaises cards); [done|].
  apply post_loop. intros x s1. apply post_syncCard.
Qed.

Lemma operationsFor_databaseCalls lm fs byId i u :
  operationsFor i (databaseCalls lm fs byId u)
  = if String.eqb (card_id u) i then databaseCalls lm fs byId u else [].
Proof.
  unfold operationsFor, databaseCalls, propertiesOf.
  destruct (byId !! card_id u) as [e|].
  - destruct (shouldUpdateNotionEntry _ _ _ _); simpl.
    + rewrite mapTrelloToNotion_trelloId. by destruct (String.eqb (card_id u) i).
    + by destruct (String.eqb (card_id u) i).
  - simpl. rewrite mapTrelloToNotion_trelloId. by destruct (String.eqb (card_id u) i).
Qed.

(** Among the operations of the pass, those on the entry of record [i] are
    the ones its first occurrence calls for. *)
Lemma operationsFor_pass lm fs byId cards i :
  operationsFor i (flat_map (databaseCalls lm fs byId) (uniqueCards cards))
  = match firstWith card_id i cards with
    | Some u => databaseCalls lm fs byId u
    | None => []
    end.
Proof.
  unfold operationsFor. rewrite filter_flat_map.
  rewrite <- find_uniqueCards.
  rewrite <- (flat_map_select card_id _ i) by apply uniqueCards_NoDup.
  apply flat_map_ext. intros u. apply operationsFor_databaseCalls.
Qed.

Lemma databaseCalls_at_most_one lm fs byId u : length (databaseCalls lm fs byId u) <= 1.
Proof.
  unfold databaseCalls. destruct (byId !! card_id u); [|simpl; lia].
  destruct (shouldUpdateNotionEntry _ _ _ _); simpl; lia.
Qed.

(** C8, as amended.  De-duplication by id in the Board -> Database pass,
    over the cards the pass is handed (what the card listing returns: the
    response after the title filter), none of whose ids and trimmed titles
    is an inherited name.  The pass returns, and whatever the handed cards
    repeat, the Database operations on the entry of an id [i] are those of
    the first handed record with that id, and of no other occurrence: one
    create when no entry is linked to [i], one update when a linked entry
    compares changed, nothing when it compares unchanged; so at most one
    operation per id. *)
Theorem first_handed_occurrence_only cards lm fs byId (s : state W) (i : string) :
  Forall (fun c => plainCard c = true) cards ->
  let '(r, s', t) := syncTrelloToNotion cards lm fs byId s in
  r = Ok tt
  /\ operationsFor i (map fst t)
     = match firstWith card_id i cards with
       | Some u =>
           match byId !! i with
           | None => [N_createEntry (propertiesOf lm fs u)]
           | Some e =>
               if shouldUpdateNotionEntry e u (extractTrelloCustomFields u fs)
                                          (listNameOf lm u)
               then [N_updateEntry (entry_id e) (propertiesOf lm fs u)]
               else []
           end
       | None => []
       end
  /\ length (operationsFor i (map fst t)) <= 1.
Proof.
  intros Hplain. apply plain_groupingRaises in Hplain.
  pose proof (post_syncTrelloToNotion cards lm fs byId s) as H. unfold post in H.
  destruct (syncTrelloToNotion cards lm fs byId s) as [[r s'] t].
  rewrite Hplain in H.
  destruct H as (-> & Ht & _). split; [done|].
  assert (operationsFor i (map fst t)
          = match firstWith card_id i cards with
            | Some u => databaseCalls lm fs byId u
            | None => []
            end) as Hop.
  { replace (map fst t) with (flat_map (databaseCalls lm fs byId) (uniqueCards cards)).
    apply operationsFor_pass. }
  split.
  - rewrite Hop. destruct (firstWith card_id i cards) as [u|] eqn:Eu; [|done].
    apply firstWith_key in Eu as [<- _]. reflexivity.
  - rewrite Hop. destruct (firstWith card_id i cards); [|simpl; lia].
    apply databaseCalls_at_most_one.
Qed.

(** ** Deletion sync *)

Lemma entryMarked_spec cards e :
  entryMarkedForDeletion (createCardMap cards) e = danglingSynced cards e.
Proof.
  unfold entryMarkedForDeletion, danglingSynced.
  by rewrite createCardMap_lookup, negb_existsb.
Qed.

Lemma cardMarked_spec fid es c :
  cardMarkedForDeletion fid (createNotionLookupMap es) c = orphanSynced fid es c.
Proof.
  unfold cardMarkedForDeletion, orphanSynced.
  by rewrite createNotionLookupMap_lookup, negb_existsb.
Qed.

Lemma post_deleteEntry cards e (s : state W) :
  post (try_catch (deleteEntryIfMarked (createCardMap cards) e) (modify_stats incr_errors)) s
       (fun r s' t => r = Ok tt /\ map fst t = archiveCalls cards e
                      /\ syncStats s' = foldl countDeletion (syncStats s) t).
Proof.
  unfold deleteEntryIfMarked, archiveCalls. rewrite entryMarked_spec.
  apply post_try. destruct (danglingSynced cards e).
  - apply post_bind, post_request; [intros [] w' _ | intros w' _]; by apply post_modify.
  - by apply post_ret.
Qed.

Lemma post_deleteCard fid es c (s : state W) :
  post (try_catch (deleteCardIfMarked fid (createNotionLookupMap es) c)
                  (modify_stats incr_errors)) s
       (fun r s' t => r = Ok tt /\ map fst t = deleteCalls fid es c
                      /\ syncStats s' = foldl countDeletion (syncStats s) t).
Proof.
  unfold deleteCardIfMarked, deleteCalls. rewrite cardMarked_spec.
  apply post_try. destruct (orphanSynced fid es c).
  - apply post_bind, post_request; [intros [] w' _ | intros w' _]; by apply post_modify.
  - by apply post_ret.
Qed.

(** The deletion pass never throws, sends the archive requests of the
    dangling synced entries and then the delete requests of the orphan
    synced cards, and counts each request by its outcome. *)
Lemma post_handleDeletionSync cards es cfm (s : state W) :
  post (handleDeletionSync cards es cfm) s
       (fun r s' t => r = Ok tt /\ map fst t = deletionCalls cards es cfm
                      /\ syncStats s' = foldl countDeletion (syncStats s) t).
Proof.
  unfold handleDeletionSync, deletionCalls.
  destruct (cfm !! "synced") as [fid|]; [|by apply post_ret].
  destruct (String.eqb fid ""); [by apply post_ret|].
  apply post_bind.
  eapply post_mono; [apply (post_loop (archiveCalls cards) countDeletion), post_deleteEntry|].
  intros r s1 t1 (-> & Ht1 & Hs1).
  eapply post_mono; [apply (post_loop (deleteCalls fid es) countDeletion), post_deleteCard|].
  intros r s2 t2 (-> & Ht2 & Hs2). split; [done|]. split.
  - rewrite map_app. by f_equal.
  - by rewrite foldl_app, <- Hs1.
Qed.

(** Without an id for the 'synced' field the deletion pass does nothing. *)
Lemma handleDeletionSync_skipped cards es cfm (s : state W) :
  cfm !! "synced" = None -> handleDeletionSync cards es cfm s = (Ok tt, s, []).
Proof. intros H. unfold handleDeletionSync. by rewrite H. Qed.

(** C3, as amended.  Over cards and entries none of whose ids and
    cross-references is an inherited name: when the Board defines a custom
    field named 'synced' (with a non-empty id), the deletion pass sends one
    archive request for each listed entry whose synced checkbox is true and
    whose non-empty cross-reference matches no card of the fetched set, and
    for no other entry (so never for an entry with synced = false); then one
    delete request for each fetched card whose synced marker reads true and
    that no entry references, and for no other card.  When the Board
    defines no such field, the pass sends nothing and leaves the state as
    it was, whatever the entries and cards are. *)
Theorem deletion_by_convention cards es cfm (s : state W) :
  Forall (fun c => inherited (card_id c) = false) cards ->
  Forall (fun e => inherited (trelloIdOf e) = false) es ->
  let '(r, s', t) := handleDeletionSync cards es cfm s in
  r = Ok tt
  /\ match cfm !! "synced" with
     | Some fid =>
         fid <> "" ->
         map fst t
         = flat_map (fun e => if danglingSynced cards e
                              then [N_deletePage (entry_id e)] else []) es
           ++ flat_map (fun c => if orphanSynced fid es c
                                 then [T_deleteCard (card_id c)] else []) cards
     | None => t = [] /\ s' = s
     end.
Proof.
  intros _ _.
  pose proof (post_handleDeletionSync cards es cfm s) as H. unfold post in H.
  pose proof (handleDeletionSync_skipped cards es cfm s) as Hskip.
  destruct (handleDeletionSync cards es cfm s) as [[r s'] t].
  destruct H as (-> & Ht & _). split; [done|].
  unfold deletionCalls in Ht.
  destruct (cfm !! "synced") as [fid|].
  - intros Hne. rewrite Ht.
    destruct (String.eqb fid "") eqn:E; [by apply String.eqb_eq in E|]. reflexivity.
  - specialize (Hskip eq_refl). by inversion Hskip.
Qed.

Lemma countDeletion_tally t : forall st,
  updated (notionToTrello (foldl countDeletion st t))
    = updated (notionToTrello st) + archived t
  /\ updated (trelloToNotion (foldl countDeletion st t))
    = updated (trelloToNotion st) + deleted t
  /\ created (notionToTrello (foldl countDeletion st t)) = created (notionToTrello st)
  /\ created (trelloToNotion (foldl countDeletion st t)) = created (trelloToNotion st)
  /\ errors (foldl countDeletion st t) = errors st + failures t.
Proof.
  induction t as [|[c ok] t IH]; intros st.
  - unfold archived, deleted, failures. simpl. lia.
  - cbn [foldl]. destruct (IH (countDeletion st (c, ok))) as (H1 & H2 & H3 & H4 & H5).
    rewrite H1, H2, H3, H4, H5, failures_cons. unfold archived, deleted.
    destruct c, ok; simpl; lia.
Qed.

(** C10.  Deletions are reported as updates: over the deletion pass, every
    archived entry adds one to [notionToTrello.updated], every deleted card
    adds one to [trelloToNotion.updated], a failed request adds one to
    [errors], the [created] counters stay, and the pass sends nothing but
    archive and delete requests; the statistics have no other counter. *)
Theorem deletions_counted_as_updates cards es cfm (s : state W) :
  let '(r, s', t) := handleDeletionSync cards es cfm s in
  updated (notionToTrello (syncStats s')) = updated (notionToTrello (syncStats s)) + archived t
  /\ updated (trelloToNotion (syncStats s')) = updated (trelloToNotion (syncStats s)) + deleted t
  /\ created (notionToTrello (syncStats s')) = created (notionToTrello (syncStats s))
  /\ created (trelloToNotion (syncStats s')) = created (trelloToNotion (syncStats s))
  /\ errors (syncStats s') = errors (syncStats s) + failures t
  /\ Forall (fun ev => isDeletion (fst ev) = true) t.
Proof.
  pose proof (post_handleDeletionSync cards es cfm s) as H. unfold post in H.
  destruct (handleDeletionSync cards es cfm s) as [[r s'] t].
  destruct H as (_ & Ht & Hs). rewrite Hs.
  destruct (countDeletion_tally t (syncStats s)) as (H1 & H2 & H3 & H4 & H5).
  repeat (split; [done|]).
  assert (Forall (fun c => isDeletion c = true) (deletionCalls cards es cfm)) as Hd.
  { unfold deletionCalls. destruct (cfm !! "synced") as [fid|]; [|constructor].
    destruct (String.eqb fid ""); [constructor|].
    apply Forall_app. split; apply List.Forall_forall; intros c Hc;
      apply in_flat_map in Hc as (x & _ & Hc).
    - unfold archiveCalls in Hc. destruct (danglingSynced cards x); [|done].
      by destruct Hc as [<-|[]].
    - unfold deleteCalls in Hc. destruct (orphanSynced fid es x); [|done].
      by destruct Hc as [<-|[]]. }
  rewrite <- Ht in Hd. by apply Forall_fmap in Hd.
Qed.

End WithServices.

End PassFacts.

(** * The full pass: error containment and the reconciled pass *)

Module FullPass.
Import Notion Trello Mapping Remote Engine Spec JsFacts ListingFacts MappingFacts Rules.
Import PassFacts.

Section WithServices.
Context {host : Host} {W : Type} {services : Services W}.

(** ** Every failed request is counted *)

Lemma accounted_syncCard lm fs byId c : accounted (syncCard lm fs byId c).
Proof. unfold syncCard. accounting. Qed.

Lemma accounted_createTrelloCardFromNotion e rev :
  accounted (createTrelloCardFromNotion e rev).
Proof. unfold createTrelloCardFromNotion, getCustomFields. accounting. Qed.

Lemma accounted_pushCustomField c cfm kv : accounted (pushCustomField c cfm kv).
Proof. unfold pushCustomField. destruct kv as [k v]. accounting. Qed.

Lemma accounted_pushCustomFields c cfm kvs : accounted (pushCustomFields c cfm kvs).
Proof.
  induction kvs as [|kv kvs IH]; simpl; [apply accounted_ret|].
  apply accounted_bind; [apply accounted_pushCustomField|]. intros h.
  apply accounted_bind; [apply IH|]. intros h'. apply accounted_ret.
Qed.

Lemma accounted_updateTrelloFromNotion e c rev cfm :
  accounted (updateTrelloFromNotion e c rev cfm).
Proof.
  unfold updateTrelloFromNotion. cbv zeta.
  apply accounted_bind; [accounting|]. intros h1.
  apply accounted_bind; [accounting|]. intros h2.
  apply accounted_bind; [apply accounted_pushCustomFields|]. intros h3.
  apply accounted_bind; [accounting|]. intros h4.
  apply accounted_bind; [accounting|]. intros h5.
  accounting.
Qed.

Lemma accounted_syncTotalScoreEntry fid m e : accounted (syncTotalScoreEntry fid m e).
Proof. unfold syncTotalScoreEntry. accounting. Qed.

Lemma accounted_syncEntry rev cfm m e : accounted (syncEntry rev cfm m e).
Proof.
  unfold syncEntry. cbv zeta. destruct (String.eqb (trelloIdOf e) "").
  - apply accounted_bind; [apply accounted_createTrelloCardFromNotion|]. intros _.
    accounting.
  - destruct (m !! trelloIdOf e); [apply accounted_updateTrelloFromNotion | accounting].
Qed.

Lemma contained_syncTotalScoreToTrello es cfm m :
  contained (syncTotalScoreToTrello es cfm (Some m)).
Proof.
  unfold syncTotalScoreToTrello. destruct (cfm !! "Total Score") as [fid|];
    [|apply contained_ret].
  destruct (String.eqb fid ""); [apply contained_ret|].
  intros s. apply post_bind, post_ret. simpl.
  apply contained_forEach.
  intros e. apply contained_caught, accounted_syncTotalScoreEntry.
Qed.

(** The Board -> Database pass counts every failed request, unless the
    grouping code raises, which happens before any request. *)
Lemma errors_syncTrelloToNotion cards lm fs byId (s : state W) :
  post (syncTrelloToNotion cards lm fs byId) s (fun r s' t =>
    if groupingRaises cards then r = Throw /\ s' = s /\ t = []
    else r = Ok tt /\ errors (syncStats s') = errors (syncStats s) + failures t).
Proof.
  rewrite syncTrelloToNotion_spec. destruct (groupingRaises cards); [done|].
  apply contained_forEach. intros c. apply contained_caught, accounted_syncCard.
Qed.

Lemma contained_handleDeletionSync cards es cfm :
  contained (handleDeletionSync cards es cfm).
Proof.
  unfold handleDeletionSync. destruct (cfm !! "synced") as [fid|]; [|apply contained_ret].
  destruct (String.eqb fid ""); [apply contained_ret|]. cbv zeta.
  apply contained_bind; [|intros _]; apply contained_forEach; intros x;
    apply contained_caught.
  - unfold deleteEntryIfMarked. accounting.
  - unfold deleteCardIfMarked. accounting.
Qed.

(** The card listing sends one request and moves no counter; it throws
    when the request fails or the filter raises. *)
Lemma post_getCards (s : state W) :
  post getCards s (fun r s' t =>
    syncStats s' = syncStats s
    /\ exists ok, t = [(T_getCards, ok)]
       /\ match r with
          | Ok kept => ok = true
                       /\ exists raw, removeProblematicCards raw = Some kept
          | Throw => True
          end).
Proof.
  unfold getCards. apply post_bind, post_request.
  - intros raw w' _. destruct (removeProblematicCards raw) as [kept|] eqn:E.
    + apply post_ret. simpl. split; [done|]. exists true. eauto.
    + unfold post, throw. simpl. split; [done|]. by exists true.
  - intros w' _. simpl. split; [done|]. by exists false.
Qed.

(** The Database -> Board pass throws only when its own card listing
    does, before anything else is sent; otherwise every failed request is
    counted. *)
Lemma post_syncNotionToTrello es rev cfm (s : state W) :
  post (syncNotionToTrello es rev cfm) s (fun r s' t =>
    match r with
    | Ok _ => errors (syncStats s') = errors (syncStats s) + failures t
    | Throw => syncStats s' = syncStats s /\ exists ok, t = [(T_getCards, ok)]
    end).
Proof.
  unfold syncNotionToTrello. apply post_bind.
  eapply post_mono; [apply post_getCards|].
  intros [cards|] s0 t0 (Hst & ok & -> & Hr); [|eauto].
  destruct Hr as [-> _]. apply post_bind.
  eapply post_mono.
  { apply contained_forEach. intros e. apply contained_caught, accounted_syncEntry. }
  intros r s1 t1 [-> H1]. eapply post_mono; [apply contained_syncTotalScoreToTrello|].
  intros r s2 t2 [-> H2]. simpl in *. rewrite Hst in H1.
  rewrite failures_cons, failures_app. simpl. lia.
Qed.

(** What follows the upfront fetch returns the statistics with every
    failed request counted, or throws: at once when the grouping code
    raises, or when the card listing of the Database -> Board pass throws,
    with every failed request before that listing counted. *)
Lemma post_reconcile cards lists fs es (s : state W) :
  post (reconcile cards lists fs es) s (fun r s' t =>
    match r with
    | Ok st => st = syncStats s'
               /\ errors (syncStats s') = errors (syncStats s) + failures t
    | Throw => (t = [] /\ syncStats s' = syncStats s)
               \/ exists t0 ok, t = t0 ++ [(T_getCards, ok)]
                    /\ errors (syncStats s') = errors (syncStats s) + failures t0
    end).
Proof.
  unfold reconcile. cbv zeta. apply post_bind.
  eapply post_mono; [apply errors_syncTrelloToNotion|].
  intros r s1 t1 H1. destruct (groupingRaises cards).
  { destruct H1 as (-> & -> & ->). by left. }
  destruct H1 as [-> H1]. apply post_bind.
  eapply post_mono; [apply post_syncNotionToTrello|].
  intros [[]|] s2 t2 H2.
  - apply post_bind. eapply post_mono; [apply contained_handleDeletionSync|].
    intros r s3 t3 [-> H3]. unfold post, get_stats. simpl.
    rewrite !app_nil_r, !failures_app. split; [done | lia].
  - destruct H2 as (Hst & ok & ->). right. exists t1, ok. split; [done|].
    by rewrite Hst.
Qed.

(** The upfront join sends its four listings whatever happens and changes
    no counter; when it returns, none of them failed. *)
Lemma post_fetchAll (s : state W) :
  post fetchAll s (fun r s' t =>
    map fst t = upfront /\ syncStats s' = syncStats s
    /\ match r with
       | Ok (cards, _, _, _) =>
           failures t = 0 /\ exists raw, removeProblematicCards raw = Some cards
       | Throw => failures t <> 0 \/ In (T_getCards, true) t
       end).
Proof.
  unfold fetchAll, getLists, getCustomFields, getEntries.
  apply post_bind, post_settle. eapply post_mono; [apply post_getCards|].
  intros r1 s1 t1 (Hst & ok & -> & Hr).
  apply post_bind, post_settle, (post_request T_getLists);
    [intros l w2 _ | intros w2 _]; simpl;
  (apply post_bind, post_settle, (post_request T_getCustomFields);
     [intros f w3 _ | intros w3 _]; simpl);
  (apply post_bind, post_settle, (post_request N_getEntries);
     [intros e w4 _ | intros w4 _]; simpl);
  destruct r1 as [kept|];
  (first [apply post_ret | unfold post, throw]; simpl);
  (split; [done|]); (split; [done|]);
  match goal with
  | Hr : _ /\ _ |- _ /\ _ => destruct Hr as [-> Hraw]; by split
  | Hr : _ /\ _ |- _ \/ _ => left; unfold failures; simpl; destruct ok; simpl; lia
  | |- _ \/ _ => destruct ok; [right; by left | left; unfold failures; simpl; lia]
  end.
Qed.

(** The full pass sends its four listings first.  When it returns, none of
    them failed and the error counter is the number of requests that
    failed after them.  When it throws, either nothing was sent after the
    listings and the error counter is one, or the last request was the
    card listing of the Database -> Board pass, and the error counter is
    one more than the number of requests that failed before it. *)
Lemma post_performSync (s : state W) :
  post performSync s (fun r s' t =>
    exists up rest, t = up ++ rest /\ map fst up = upfront /\
      match r with
      | Ok st => st = syncStats s' /\ failures up = 0
                 /\ errors (syncStats s') = failures rest
      | Throw => (rest = [] /\ syncStats s' = incr_errors zero_stats)
                 \/ (failures up = 0
                     /\ exists t0 ok, rest = t0 ++ [(T_getCards, ok)]
                          /\ errors (syncStats s') = S (failures t0))
      end).
Proof.
  unfold performSync, resetStats. apply post_bind, post_modify. simpl.
  apply post_try, post_bind. eapply post_mono; [apply post_fetchAll|].
  intros [[[[cards lists] fs] es]|] s1 t1 (Hup & Hst & Hf); simpl in Hst.
  - destruct Hf as [Hf _]. eapply post_mono; [apply post_reconcile|].
    intros [st|] s2 t2 Hr; rewrite Hst in Hr; simpl in Hr.
    + destruct Hr as [-> Herr]. exists t1, t2. by repeat split.
    + apply post_bind, post_modify. simpl. exists t1, t2.
      rewrite !app_nil_r. split; [done|]. split; [done|].
      destruct Hr as [[-> Hs2]|(t0 & ok & -> & Herr)].
      * left. split; [done|]. destruct s2 as [w2 st2]. simpl in *. by rewrite Hs2.
      * right. split; [done|]. exists t0, ok. split; [done|]. simpl. lia.
  - apply post_bind, post_modify. simpl. exists t1, []. rewrite !app_nil_r.
    split; [done|]. split; [done|]. left. split; [done|]. by rewrite Hst.
Qed.

(** ** A pass in which every comparison resolves to unchanged *)

Lemma pushesOnly_pushCustomFields c cfm kvs : pushesOnly (pushCustomFields c cfm kvs).
Proof.
  induction kvs as [|[k v] kvs IH]; simpl; [apply pushesOnly_ret|].
  apply pushesOnly_bind; [pushing|]. intros h.
  apply pushesOnly_bind; [apply IH|]. intros h'. apply pushesOnly_ret.
Qed.

Lemma pushesOnly_updateTrelloFromNotion e c rev cfm :
  titleDiffers e c = false -> groupDiffers rev e c = false ->
  pushesOnly (updateTrelloFromNotion e c rev cfm).
Proof.
  unfold titleDiffers, groupDiffers, updateTrelloFromNotion. cbv zeta.
  intros Ht Hg.
  apply pushesOnly_bind.
  { destruct (update_name (mapNotionToTrello e)); [rewrite Ht|]; pushing. }
  intros h1. apply pushesOnly_bind.
  { destruct (get rev _); [rewrite Hg|]; pushing. }
  intros h2. apply pushesOnly_bind; [apply pushesOnly_pushCustomFields|].
  intros h3. apply pushesOnly_bind; [pushing|].
  intros h4. apply pushesOnly_bind; [pushing|].
  intros h5. pushing.
Qed.

Lemma pushesOnly_syncEntry rev cfm m e :
  entryReconciled rev m e = true -> pushesOnly (syncEntry rev cfm m e).
Proof.
  unfold entryReconciled, syncEntry. cbv zeta.
  destruct (String.eqb (trelloIdOf e) ""); [done|]. simpl.
  destruct (m !! trelloIdOf e) as [c|]; [|intros _; apply pushesOnly_ret].
  intros H. apply andb_true_iff in H as [H1 H2].
  apply negb_true_iff in H1, H2. by apply pushesOnly_updateTrelloFromNotion.
Qed.

Lemma pushesOnly_syncTotalScoreToTrello es cfm m :
  pushesOnly (syncTotalScoreToTrello es cfm (Some m)).
Proof.
  unfold syncTotalScoreToTrello. destruct (cfm !! "Total Score") as [fid|];
    [|apply pushesOnly_ret].
  destruct (String.eqb fid ""); [apply pushesOnly_ret|].
  apply pushesOnly_bind; [apply pushesOnly_ret|]. intros cm.
  apply pushesOnly_forEach, List.Forall_forall. intros e _.
  apply pushesOnly_try; [|pushing]. unfold syncTotalScoreEntry. pushing.
Qed.

Lemma syncTrelloToNotion_noop cards lm fs byId (s : state W) :
  groupingRaises cards = false ->
  forallb (fun u => is_nil (databaseCalls lm fs byId u)) (uniqueCards cards) = true ->
  syncTrelloToNotion cards lm fs byId s = (Ok tt, s, []).
Proof.
  intros Hplain H. rewrite syncTrelloToNotion_spec, Hplain.
  apply forEach_noop, List.Forall_forall. intros u Hu.
  eapply forallb_forall in H; [|exact Hu].
  unfold databaseCalls in H. unfold try_catch, syncCard.
  destruct (byId !! card_id u); [|done].
  by destruct (shouldUpdateNotionEntry _ _ _ _).
Qed.

Lemma handleDeletionSync_noop cards es cfm (s : state W) :
  is_nil (deletionCalls cards es cfm) = true ->
  post (handleDeletionSync cards es cfm) s (fun r s' t =>
    r = Ok tt /\ t = [] /\ syncStats s' = syncStats s).
Proof.
  intros H. eapply post_mono; [apply post_handleDeletionSync|].
  intros r s' t (-> & Ht & Hs). split; [done|].
  destruct (deletionCalls cards es cfm); [|done].
  by destruct t.
Qed.

Lemma post_reconciled_pass cards lists fs es relisted (s s1 s2 : state W) t1 t2 :
  fetchAll {| world := world s; syncStats := zero_stats |}
    = (Ok (cards, lists, fs, es), s1, t1) ->
  getCards s1 = (Ok relisted, s2, t2) ->
  groupingRaises cards = false ->
  reconciled cards lists fs es relisted = true ->
  post performSync s (fun r s' t =>
    r = Ok (syncStats s')
    /\ structural (syncStats s') = structural zero_stats
    /\ exists pushes, map fst t = upfront ++ [T_getCards] ++ pushes
                      /\ Forall (fun c => fieldWrite c = true) pushes).
Proof.
  intros Hfetch Hlist Hplain Hrec.
  apply andb_true_iff in Hrec as [Hrec Hdel]. apply andb_true_iff in Hrec as [Hcards Hes].
  pose proof (post_fetchAll {| world := world s; syncStats := zero_stats |}) as Hf.
  unfold post in Hf. rewrite Hfetch in Hf. destruct Hf as (Hup & Hst1 & _).
  simpl in Hst1.
  unfold performSync, resetStats. apply post_bind, post_modify. simpl.
  apply post_try, post_bind. unfold post at 1. rewrite Hfetch.
  unfold reconcile. cbv zeta. apply post_bind.
  unfold post at 1. rewrite (syncTrelloToNotion_noop _ _ _ _ _ Hplain Hcards).
  apply post_bind. unfold syncNotionToTrello. apply post_bind.
  unfold post at 1. rewrite Hlist.
  assert (syncStats s2 = zero_stats /\ map fst t2 = [T_getCards]) as [Hst2 Ht2].
  { pose proof (post_getCards s1) as Hg. unfold post in Hg. rewrite Hlist in Hg.
    destruct Hg as (Hg & ok & -> & -> & _). split; [|done]. by rewrite Hg. }
  apply post_bind. eapply post_mono.
  { apply post_and.
    - apply pushesOnly_forEach, List.Forall_forall. intros e He.
      apply pushesOnly_try; [|pushing]. apply pushesOnly_syncEntry.
      eapply forallb_forall in Hes; [exact Hes | exact He].
    - apply contained_forEach. intros e. apply contained_caught, accounted_syncEntry. }
  intros r s3 t3 [[H3 H3'] [-> _]].
  eapply post_mono.
  { apply post_and; [apply pushesOnly_syncTotalScoreToTrello
                    | apply contained_syncTotalScoreToTrello]. }
  intros r s4 t4 [[H4 H4'] [-> _]].
  apply post_bind. eapply post_mono; [apply (handleDeletionSync_noop _ _ _ _ Hdel)|].
  intros r s5 t5 (-> & -> & Hs5). unfold post, get_stats. simpl.
  rewrite !app_nil_r. split; [done|]. split.
  - rewrite Hs5. unfold structural in *. by rewrite H4', H3', Hst2.
  - exists (map fst (t3 ++ t4)). split.
    + change (map fst (t1 ++ t2 ++ t3 ++ t4)
              = upfront ++ [T_getCards] ++ map fst (t3 ++ t4)).
      rewrite (map_app _ t1), (map_app _ t2). by f_equal; [|f_equal].
    + apply Forall_fmap. by apply Forall_app.
Qed.

(** ** No deletion without the marker field *)

Lemma sends_pushCustomFields P c cfm kvs :
  (forall c, fieldWrite c = true -> P c = true) ->
  sends P (pushCustomFields c cfm kvs).
Proof.
  intros HP. induction kvs as [|[k v] kvs IH]; simpl; [apply sends_ret|].
  apply sends_bind; [|intros h; apply sends_bind; [apply IH | intros h'; apply sends_ret]].
  unfold pushCustomField.
  repeat first
    [ apply sends_ret
    | apply sends_bind; [|intros ?]
    | match goal with
      | |- sends ?P (request ?c) => apply (sends_request P c), HP; reflexivity
      | |- sends _ (match ?x with _ => _ end) => destruct x
      end ].
Qed.

Lemma notDeletion_syncNotionToTrello es rev cfm :
  sends notDeletion (syncNotionToTrello es rev cfm).
Proof.
  unfold syncNotionToTrello, getCards.
  apply sends_bind; [sending|]. intros cards.
  apply sends_bind.
  - apply sends_forEach. intros e. apply sends_try; [|sending].
    unfold syncEntry. cbv zeta. destruct (String.eqb (trelloIdOf e) "").
    + unfold createTrelloCardFromNotion, getCustomFields. sending.
    + destruct (createCardMap cards !! trelloIdOf e) as [c|]; [|sending].
      unfold updateTrelloFromNotion. cbv zeta.
      apply sends_bind; [sending|]. intros h1.
      apply sends_bind; [sending|]. intros h2.
      apply sends_bind; [apply sends_pushCustomFields; by intros []|]. intros h3.
      sending.
  - intros _. unfold syncTotalScoreToTrello.
    destruct (cfm !! "Total Score") as [fid|]; [|sending].
    destruct (String.eqb fid ""); [sending|].
    apply sends_bind; [sending|]. intros m. apply sends_forEach. intros e.
    apply sends_try; [|sending]. unfold syncTotalScoreEntry. sending.
Qed.

Lemma notDeletion_syncTrelloToNotion cards lm fs byId :
  sends notDeletion (syncTrelloToNotion cards lm fs byId).
Proof.
  rewrite syncTrelloToNotion_spec. destruct (groupingRaises cards); [apply sends_throw|].
  apply sends_forEach. intros c.
  apply sends_try; [|sending]. unfold syncCard. sending.
Qed.

Lemma notDeletion_fetchAll : sends notDeletion fetchAll.
Proof.
  unfold fetchAll, getCards, getLists, getCustomFields, getEntries. sending.
Qed.

Lemma post_no_deletion cards lists fs es (s s1 : state W) t1 :
  fetchAll {| world := world s; syncStats := zero_stats |}
    = (Ok (cards, lists, fs, es), s1, t1) ->
  Forall (fun f => field_name f <> "synced") fs ->
  post performSync s (fun _ _ t => Forall (fun ev => notDeletion (fst ev) = true) t).
Proof.
  intros Hfetch Hfs. apply (createCustomFieldMap_absent fs "synced") in Hfs.
  pose proof (notDeletion_fetchAll {| world := world s; syncStats := zero_stats |}) as Ht1.
  unfold post in Ht1. rewrite Hfetch in Ht1.
  unfold performSync, resetStats. apply post_bind, post_modify. simpl.
  apply post_try, post_bind. unfold post at 1. rewrite Hfetch.
  assert (sends notDeletion (reconcile cards lists fs es)) as Hs.
  { unfold reconcile. cbv zeta.
    apply sends_bind; [apply notDeletion_syncTrelloToNotion|]. intros _.
    apply sends_bind; [apply notDeletion_syncNotionToTrello|]. intros _.
    apply sends_bind; [|intros _; apply sends_get_stats].
    intros s0. unfold post. rewrite (handleDeletionSync_skipped _ _ _ s0 Hfs).
    constructor. }
  eapply post_mono; [apply Hs|]. intros [st|] s2 t2 H2.
  - by apply Forall_app.
  - apply post_bind, post_modify. unfold post, throw. rewrite ?app_nil_r.
    by apply Forall_app.
Qed.

(** C9.  When the custom field definitions the pass fetched from the Board
    contain no field named 'synced', the deletion pass is skipped as a
    whole: it returns at once, whatever cards and entries it is given, with
    the state as it was and no request sent; and the full pass sends no
    archive and no delete request at all. *)
Theorem deletion_skipped_without_synced_field cards lists fs es (s s1 : state W) t1 :
  fetchAll {| world := world s; syncStats := zero_stats |}
    = (Ok (cards, lists, fs, es), s1, t1) ->
  Forall (fun f => field_name f <> "synced") fs ->
  (forall cards' es' (s0 : state W),
     handleDeletionSync cards' es' (createCustomFieldMap fs) s0 = (Ok tt, s0, []))
  /\ let '(r, s', t) := performSync s in
     Forall (fun ev => isDeletion (fst ev) = false) t.
Proof.
  intros Hfetch Hfs. split.
  - intros cards' es' s0. apply handleDeletionSync_skipped.
    by apply createCustomFieldMap_absent.
  - pose proof (post_no_deletion _ _ _ _ _ _ _ Hfetch Hfs) as H. unfold post in H.
    destruct (performSync s) as [[r s'] t].
    eapply Forall_impl; [exact H|]. intros ev Hev. by apply negb_true_iff.
Qed.

End WithServices.

End FullPass.

(** * Scenarios on the simulated stores *)

Module Scenarios.
Import Notion Trello Mapping Remote Engine Spec Sim.
Import MappingFacts PassFacts FullPass.


(** C2, counterexample.  Two records of one listing response with the same
    trimmed title and different ids: the listing filter drops the second,
    and a pass over a board holding both creates an entry for the first
    and none for the second. *)
Lemma same_title_record_is_dropped :
  trimmedName taskFirst = trimmedName taskSecond
  /\ card_id taskFirst <> card_id taskSecond
  /\ removeProblematicCards [taskFirst; taskSecond] = Some [taskFirst]
  /\ length (operationsFor "a1" (map fst (fst (pass (board [taskFirst; taskSecond] [] []))))) = 1
  /\ operationsFor "a2" (map fst (fst (pass (board [taskFirst; taskSecond] [] [])))) = [].
Proof.
  split; [reflexivity|]. split; [discriminate|].
  split; [vm_compute; reflexivity|]. split; vm_compute; reflexivity.
Qed.

(** C3, counterexample.  A synced entry whose cross-reference matches no
    card, on a board that defines no 'synced' field: the deletion pass
    sends no archive request. *)
Lemma dangling_entry_kept_without_marker_field :
  danglingSynced [] danglingEntry = true
  /\ handleDeletionSync [] [danglingEntry] (createCustomFieldMap [totalScoreField])
                        (start (board [] [totalScoreField] [danglingEntry]))
     = (Ok tt, start (board [] [totalScoreField] [danglingEntry]), []).
Proof. split; vm_compute; reflexivity. Qed.

(** The deletion protocol on a board with a synced marker: of three
    entries and two cards, the synced entry with a dangling cross-reference
    is archived and the synced card without entry is deleted. *)
Lemma deletion_by_convention_witness :
  let '(r, s', t) :=
    handleDeletionSync deletionCards deletionEntries (createCustomFieldMap [syncedField])
                       (start (board deletionCards [syncedField] deletionEntries)) in
  r = Ok tt /\ map fst t = [N_deletePage "page-2"] ++ [T_deleteCard "zzz"].
Proof.
  pose proof (deletion_by_convention deletionCards deletionEntries
                (createCustomFieldMap [syncedField])
                (start (board deletionCards [syncedField] deletionEntries))) as H.
  assert (Forall (fun c => inherited (card_id c) = false) deletionCards) as Hcards.
  { repeat (apply List.Forall_cons; [vm_compute; reflexivity|]). apply List.Forall_nil. }
  assert (Forall (fun e => inherited (trelloIdOf e) = false) deletionEntries) as Hes.
  { repeat (apply List.Forall_cons; [vm_compute; reflexivity|]). apply List.Forall_nil. }
  specialize (H Hcards Hes). vm_compute in H. vm_compute.
  destruct H as [Hr Ht]. split; [reflexivity|]. apply Ht. discriminate.
Defined.

(** C4.  The Total Score scenario, run on the code: the Database says 42,
    the Board shows 40.  The first pass writes 42 to the card's Total Score
    twice (once while updating the card from its entry, once more in the
    Total Score propagation that compares against the listing fetched
    before that write), and a second pass with unchanged values writes it
    once again. *)
Theorem total_score_written_twice_then_again :
  totalScoreWrites (fst (pass scoreWorld))
  = [T_updateCustomField "abc" "F1" (VNumber 42); T_updateCustomField "abc" "F1" (VNumber 42)]
  /\ totalScoreWrites (second_pass scoreWorld)
     = [T_updateCustomField "abc" "F1" (VNumber 42)]
  /\ hasChanged (getTrelloCustomFieldValue scoreCard "F1") (VNumber 42) = true
  /\ map (fun c => hasChanged (getTrelloCustomFieldValue c "F1") (VNumber 42))
         (sim_cards (snd (pass scoreWorld))) = [false].
Proof.
  split; [vm_compute; reflexivity|]. split; [vm_compute; reflexivity|].
  split; vm_compute; reflexivity.
Qed.

(** C6, counterexample.  The Reach of a card is read off its item as the
    numeral "5", a string; mapped to the Database and back it is the number
    5, which is not the value the card had. *)
Lemma numeral_comes_back_as_number :
  extractTrelloCustomFields reachCard [reachField] !! "Reach" = Some (VString "5")
  /\ get (update_customFields
            (mapNotionToTrello
               {| entry_id := "page-1";
                  properties := mapTrelloToNotion reachCard
                                  (extractTrelloCustomFields reachCard [reachField])
                                  "Doing" |})) "Reach"
     = Some (VNumber 5)
  /\ VNumber 5 <> VString "5".
Proof. split; [vm_compute; reflexivity|]. split; [vm_compute; reflexivity | discriminate]. Qed.

(** The card [reachCard], with the field values read off its items. *)
Lemma mapper_round_trip_witness :
  let back := mapNotionToTrello
                {| entry_id := "page-1";
                   properties := mapTrelloToNotion reachCard {["Reach" := VString "5"]}
                                                   "Doing" |} in
  update_name back = Some "Task"
  /\ Forall (fun k => get (update_customFields back) k
                      = if is_nullish (field {["Reach" := VString "5"]} k) then None
                        else Some (VNumber (toNumber (field {["Reach" := VString "5"]} k))))
            numericFields
  /\ Forall (fun k => is_number (field {["Reach" := VString "5"]} k) = true ->
                      get (update_customFields back) k
                      = Some (field {["Reach" := VString "5"]} k))
            numericFields.
Proof.
  apply (mapper_round_trip reachCard {["Reach" := VString "5"]} "Doing" "page-1").
  discriminate.
Defined.


(** C8, counterexample.  A listing response with two records of the same
    id and the same title, the second one older: the first occurrence of
    the id in the response is the first record, and the one operation of
    the pass on that id is the creation of an entry for the second. *)
Lemma second_occurrence_is_processed :
  firstWith card_id "dup1" (sim_cards dupWorld) = Some dupLate
  /\ operationsFor "dup1" (map fst (fst (pass dupWorld)))
     = [N_createEntry (mapTrelloToNotion dupEarly ∅ "Unknown")]
  /\ mapTrelloToNotion dupEarly ∅ "Unknown" !! "Department"
     <> mapTrelloToNotion dupLate ∅ "Doing" !! "Department".
Proof.
  split; [reflexivity|]. split; [vm_compute; reflexivity|].
  vm_compute. discriminate.
Qed.

(** Two handed records with the same id and different titles: the entry
    created is that of the first. *)
Lemma first_handed_occurrence_witness :
  let '(r, s', t) :=
    syncTrelloToNotion [taskFirst; taskRenamed] (createListMap [doing]) [] ∅
                       (start (board [taskFirst; taskRenamed] [] [])) in
  r = Ok tt
  /\ operationsFor "a1" (map fst t)
     = match firstWith card_id "a1" [taskFirst; taskRenamed] with
       | Some u =>
           match (∅ : gmap string entry) !! "a1" with
           | None => [N_createEntry (propertiesOf (createListMap [doing]) [] u)]
           | Some e =>
               if shouldUpdateNotionEntry e u (extractTrelloCustomFields u [])
                                          (listNameOf (createListMap [doing]) u)
               then [N_updateEntry (entry_id e) (propertiesOf (createListMap [doing]) [] u)]
               else []
           end
       | None => []
       end
  /\ length (operationsFor "a1" (map fst t)) <= 1.
Proof.
  apply (first_handed_occurrence_only [taskFirst; taskRenamed] (createListMap [doing]) [] ∅
           (start (board [taskFirst; taskRenamed] [] [])) "a1").
  repeat (apply List.Forall_cons; [vm_compute; reflexivity|]). apply List.Forall_nil.
Defined.

(** A board whose only custom field is 'Total Score', holding a synced
    entry with a dangling cross-reference and a synced card without
    entry. *)
Lemma deletion_skipped_witness :
  (forall cards' es' (s0 : state stores),
     handleDeletionSync cards' es' (createCustomFieldMap [totalScoreField]) s0
     = (Ok tt, s0, []))
  /\ let '(r, s', t) :=
       performSync (start (board deletionCards [totalScoreField] deletionEntries)) in
     Forall (fun ev => isDeletion (fst ev) = false) t.
Proof.
  apply (deletion_skipped_without_synced_field
           deletionCards [doing] [totalScoreField] deletionEntries
           (start (board deletionCards [totalScoreField] deletionEntries))
           (start (board deletionCards [totalScoreField] deletionEntries))
           [(T_getCards, true); (T_getLists, true); (T_getCustomFields, true);
            (N_getEntries, true)]).
  - vm_compute. reflexivity.
  - repeat constructor. discriminate.
Defined.

End Scenarios.

(** * Further properties of the code *)

(** ** [hasChanged] as a comparison *)

Module ValueFacts.
Import Notion Trello Mapping.

(** The magnitude of a rounded value does not depend on its sign. *)
Lemma SFabs_binary_round prec emax s m e :
  SFabs (binary_round prec emax s m e) = SFabs (binary_round prec emax (negb s) m e).
Proof.
  unfold binary_round.
  destruct (shl_align m e _) as [mz ez].
  unfold binary_round_aux.
  destruct (shr_fexp prec emax (Z.pos mz) ez loc_Exact) as [mrs' e'].
  destruct (shr_fexp prec emax _ e' loc_Exact) as [mrs'' e''].
  destruct (shr_m mrs''); [done| |done].
  by destruct (e'' <=? emax - prec)%Z.
Qed.

Lemma SFabs_binary_normalize_opp prec emax m e sz sz' :
  SFabs (binary_normalize prec emax m e sz) = SFabs (binary_normalize prec emax (- m) e sz').
Proof.
  destruct m; simpl; [done| |].
  - apply (SFabs_binary_round prec emax false).
  - apply (SFabs_binary_round prec emax true).
Qed.

Lemma SFabs_SFsub_comm prec emax x y :
  SFabs (SFsub prec emax x y) = SFabs (SFsub prec emax y x).
Proof.
  destruct x as [sx|sx| |sx mx ex], y as [sy|sy| |sy my ey]; simpl; try done.
  - by destruct sx, sy.
  - by destruct sx, sy.
  - rewrite (Z.min_comm ey ex).
    rewrite (SFabs_binary_normalize_opp prec emax _ _ false false).
    f_equal. f_equal. lia.
Qed.

Lemma SFsub_diag_abs prec emax x :
  SFabs (SFsub prec emax x x) = S754_nan \/ SFabs (SFsub prec emax x x) = S754_zero false.
Proof.
  destruct x as [sx|sx| |sx mx ex]; simpl.
  - right. by destruct sx.
  - left. by destruct sx.
  - by left.
  - right. by rewrite Z.sub_diag.
Qed.

(** [|a - b|] and [|b - a|] are the same binary64 value. *)
Lemma abs_sub_comm a b :
  Prim2SF (PrimFloat.abs (PrimFloat.sub a b)) = Prim2SF (PrimFloat.abs (PrimFloat.sub b a)).
Proof. rewrite !abs_spec, !sub_spec. apply SFabs_SFsub_comm. Qed.

Lemma tolerance_comm a b :
  PrimFloat.ltb 0.001 (PrimFloat.abs (PrimFloat.sub a b))
  = PrimFloat.ltb 0.001 (PrimFloat.abs (PrimFloat.sub b a)).
Proof. by rewrite !ltb_spec, abs_sub_comm. Qed.

(** [|a - a|] is zero or NaN, and neither exceeds the tolerance. *)
Lemma tolerance_diag a :
  PrimFloat.ltb 0.001 (PrimFloat.abs (PrimFloat.sub a a)) = false.
Proof.
  rewrite ltb_spec, abs_spec, sub_spec.
  destruct (SFsub_diag_abs prec emax (Prim2SF a)) as [H|H]; unfold SF64sub; rewrite H;
    vm_compute; reflexivity.
Qed.

Section WithHost.
Context {host : Host}.

Lemma hasChanged_same v : hasChanged v v = false.
Proof.
  destruct v as [| |b|x|s]; try done.
  - unfold hasChanged. simpl. by rewrite String.eqb_refl.
  - apply tolerance_diag.
  - unfold hasChanged. simpl. by rewrite String.eqb_refl.
Qed.

(** X1. [hasChanged] never reports a value as different from itself, not
    even NaN or an infinity, and its answer does not depend on the order of
    its two arguments. *)
Theorem hasChanged_reflexive_and_symmetric (a b : value) :
  hasChanged a a = false /\ hasChanged a b = hasChanged b a.
Proof.
  split; [apply hasChanged_same|].
  destruct a as [| |x|x|x], b as [| |y|y|y]; try done;
    try (unfold hasChanged; simpl; by rewrite String.eqb_sym).
  apply tolerance_comm.
Qed.
End WithHost.

End ValueFacts.

(** ** The lookup dictionaries of the engine *)

Module LookupFacts.
Import Notion Trello Mapping Remote Engine Spec JsFacts PassFacts Vocabulary.

Lemma lastWith_snoc {A} (p : A -> bool) l x :
  lastWith p (l ++ [x]) = if p x then Some x else lastWith p l.
Proof. unfold lastWith. by rewrite rev_app_distr. Qed.

(** A dictionary filled by a sequence of assignments resolves a key to the
    value of the last assignment to it. *)
Lemma lookup_assignments {A V} (key : A -> string) (val : A -> V) l k :
  foldl (fun (m : gmap string V) x => <[key x := val x]> m) ∅ l !! k
  = val <$> lastWith (fun x => String.eqb (key x) k) l.
Proof.
  induction l as [|x l IH] using rev_ind; [done|].
  rewrite foldl_app, lastWith_snoc. simpl.
  destruct (String.eqb (key x) k) eqn:E.
  - apply String.eqb_eq in E. subst. by rewrite lookup_insert_eq.
  - apply String.eqb_neq in E. by rewrite lookup_insert_ne.
Qed.

Lemma get_assignments {A V} (key : A -> string) (val : A -> V) l k :
  get (foldl (fun (m : obj V) x => set m (key x) (val x)) [] l) k
  = val <$> lastWith (fun x => String.eqb (key x) k) l.
Proof.
  induction l as [|x l IH] using rev_ind; [done|].
  rewrite foldl_app, lastWith_snoc. simpl.
  destruct (String.eqb (key x) k) eqn:E.
  - apply String.eqb_eq in E. subst. by rewrite get_set_eq.
  - apply String.eqb_neq in E. by rewrite get_set_ne.
Qed.

(** X2. Each lookup dictionary of the engine resolves a key that is no
    inherited name to the last element of its input that carries the key:
    the last list with that id or name, the last field with that name, the
    last card with that id, and the last entry whose non-empty Trello ID is
    the key; for the dictionaries of cards and of entries, provided no card
    id and no Trello ID is '__proto__'. *)
Theorem lookup_maps_last_wins (lists : list boardList) (fs : list customField)
        (cards : list card) (es : list entry) (k : string) :
  inherited k = false ->
  createListMap lists !! k = list_name <$> lastWith (fun l => String.eqb (list_id l) k) lists
  /\ get (createListMapReverse lists) k
     = list_id <$> lastWith (fun l => String.eqb (list_name l) k) lists
  /\ createCustomFieldMap fs !! k
     = field_id <$> lastWith (fun f => String.eqb (field_name f) k) fs
  /\ (Forall (fun c => card_id c <> "__proto__") cards ->
      createCardMap cards !! k = lastWith (fun c => String.eqb (card_id c) k) cards)
  /\ (Forall (fun e => trelloIdOf e <> "__proto__") es ->
      createNotionLookupMap es !! k = lastWith (references k) es).
Proof.
  intros _.
  split; [apply (lookup_assignments list_id list_name)|].
  split; [apply (get_assignments list_name list_id)|].
  split; [apply (lookup_assignments field_name field_id)|].
  split.
  - intros _. unfold createCardMap. rewrite (lookup_assignments card_id id).
    by destruct (lastWith _ _).
  - intros _. induction es as [|e es IH] using rev_ind; [done|].
    rewrite createNotionLookupMap_snoc, lastWith_snoc. unfold references at 1.
    destruct (String.eqb (trelloIdOf e) "") eqn:E0; simpl; [done|].
    destruct (String.eqb (trelloIdOf e) k) eqn:E.
    + apply String.eqb_eq in E. subst. by rewrite lookup_insert_eq.
    + apply String.eqb_neq in E. by rewrite lookup_insert_ne.
Qed.

End LookupFacts.

(** ** [extractTrelloCustomFields] *)

Module ExtractionFacts.
Import Notion Trello Mapping Vocabulary.

Lemma extract_unfold c fs items :
  customFieldItems c = Some items ->
  extractTrelloCustomFields c fs = foldl (extractStep (fieldNames fs)) ∅ items.
Proof. intros H. unfold extractTrelloCustomFields. by rewrite H. Qed.

Lemma fieldNames_snoc fs f : fieldNames (fs ++ [f]) = <[field_id f := field_name f]> (fieldNames fs).
Proof. unfold fieldNames. by rewrite foldl_app. Qed.

Lemma fieldNames_In fs i n :
  fieldNames fs !! i = Some n -> exists f, In f fs /\ field_id f = i /\ field_name f = n.
Proof.
  induction fs as [|f fs IH] using rev_ind; [done|].
  rewrite fieldNames_snoc. destruct (decide (field_id f = i)) as [<-|Hne].
  - rewrite lookup_insert_eq. intros [= <-]. exists f. split; [|done].
    apply in_or_app. right. by left.
  - rewrite lookup_insert_ne by done. intros H. destruct (IH H) as (g & ? & ? & ?).
    exists g. split; [|done]. apply in_or_app. by left.
Qed.

Lemma fieldNames_unique fs f :
  List.NoDup (map field_id fs) -> In f fs -> fieldNames fs !! field_id f = Some (field_name f).
Proof.
  induction fs as [|g fs IH] using rev_ind; [done|].
  rewrite map_app. simpl. intros Hnd Hin. rewrite fieldNames_snoc.
  apply NoDup_ListNoDup, NoDup_app in Hnd as (Hnd & Hdisj & _).
  apply in_app_or in Hin as [Hin|[<-|[]]].
  - rewrite lookup_insert_ne.
    + apply IH; [by apply NoDup_ListNoDup | done].
    + intros E. apply (Hdisj (field_id f)).
      * apply list_elem_of_In. by apply in_map.
      * rewrite <- E. apply list_elem_of_singleton. done.
  - apply lookup_insert_eq.
Qed.

Lemma extract_sound_aux fs items n v :
  foldl (extractStep (fieldNames fs)) ∅ items !! n = Some v ->
  n <> "" /\ exists item f, In item items /\ In f fs
     /\ field_id f = idCustomField item /\ field_name f = n
     /\ v = itemValueOf (item_value item).
Proof.
  induction items as [|item items IH] using rev_ind; [done|].
  rewrite foldl_app. simpl. unfold extractStep at 1.
  assert (foldl (extractStep (fieldNames fs)) ∅ items !! n = Some v ->
          n <> "" /\ exists item0 f, In item0 (items ++ [item]) /\ In f fs
            /\ field_id f = idCustomField item0 /\ field_name f = n
            /\ v = itemValueOf (item_value item0)) as Hprev.
  { intros H. destruct (IH H) as (Hn & i0 & f & Hi & H').
    split; [done|]. exists i0, f. split; [|done]. apply in_or_app. by left. }
  destruct (fieldNames fs !! idCustomField item) as [name|] eqn:En; [|done].
  destruct (String.eqb name "") eqn:E0; [done|]. apply String.eqb_neq in E0.
  destruct (decide (name = n)) as [->|Hne].
  - rewrite lookup_insert_eq. intros [= <-]. split; [done|].
    apply fieldNames_In in En as (f & Hf & Hid & Hname).
    exists item, f. split; [apply in_or_app; right; by left|]. done.
  - by rewrite lookup_insert_ne.
Qed.


Lemma extract_later_items fs items m n :
  List.NoDup (map field_id fs) -> List.NoDup (map field_name fs) ->
  forall f, In f fs -> field_name f = n ->
  Forall (fun item => idCustomField item <> field_id f) items ->
  foldl (extractStep (fieldNames fs)) m items !! n = m !! n.
Proof.
  intros Hid Hnm f Hf Hn. revert m.
  induction items as [|item items IH]; intros m Hall; [done|].
  apply Forall_cons in Hall as [Hne Hall]. simpl. rewrite IH by done.
  unfold extractStep. destruct (fieldNames fs !! idCustomField item) as [name|] eqn:En; [|done].
  destruct (String.eqb name ""); [done|].
  apply fieldNames_In in En as (g & Hg & Hgid & Hgn).
  rewrite lookup_insert_ne; [done|]. intros ->. subst n.
  apply Hne. rewrite <- Hgid. f_equal.
  clear -Hnm Hg Hf Hgn.
  induction fs as [|h fs IH]; [done|]. simpl in Hnm.
  inversion Hnm as [|? ? Hnot Hnm']; subst.
  destruct Hg as [->|Hg], Hf as [->|Hf]; try done.
  - exfalso. apply Hnot. rewrite Hgn. by apply in_map.
  - exfalso. apply Hnot. rewrite <- Hgn. by apply in_map.
  - by apply IH.
Qed.

(** X4. On a board whose field definitions have distinct ids and distinct
    names, and for a card with one item per field, none of them of an
    inherited name as its field id, the extraction files the value of each
    item of a field with a non-empty name that is no inherited name under
    that name. *)
Theorem extracted_value_of_item (c : card) (fs : list customField)
        (items : list customFieldItem) (item : customFieldItem) (f : customField) :
  customFieldItems c = Some items ->
  List.NoDup (map idCustomField items) ->
  Forall (fun i => inherited (idCustomField i) = false) items ->
  List.NoDup (map field_id fs) -> List.NoDup (map field_name fs) ->
  In item items -> In f fs -> idCustomField item = field_id f ->
  field_name f <> "" -> inherited (field_name f) = false ->
  extractTrelloCustomFields c fs !! field_name f = Some (itemValueOf (item_value item)).
Proof.
  intros Hc Hitems _ Hid Hnm Hitem Hf Heq Hne _.
  rewrite (extract_unfold _ _ _ Hc).
  apply in_split in Hitem as (pre & post & ->).
  rewrite foldl_app. simpl.
  rewrite (extract_later_items fs post _ (field_name f) Hid Hnm f Hf eq_refl).
  - unfold extractStep at 1. rewrite Heq, (fieldNames_unique _ _ Hid Hf).
    destruct (String.eqb (field_name f) "") eqn:E; [by apply String.eqb_eq in E|].
    apply lookup_insert_eq.
  - rewrite map_app in Hitems. simpl in Hitems.
    apply NoDup_ListNoDup, NoDup_app in Hitems as (_ & _ & Hpost).
    apply NoDup_cons in Hpost as [Hnot _].
    apply List.Forall_forall. intros j Hj E. apply Hnot.
    rewrite Heq, <- E. apply list_elem_of_In. by apply in_map.
Qed.

End ExtractionFacts.

(** ** The record mapper and the page link *)

Module MapperFacts.
Import Notion Trello Mapping Remote Engine Spec JsFacts MappingFacts Vocabulary ValueFacts.

Ltac apart := let H := fresh in intros H; discriminate H.

Section WithHost.
Context {host : Host}.

Lemma lookup_setNumber_Some k k' cf (p : gmap string property) v :
  setNumber k cf p !! k' = Some v -> k' = k \/ p !! k' = Some v.
Proof.
  unfold setNumber. destruct (is_nullish (field cf k)); [auto|].
  destruct (decide (k = k')) as [->|Hne]; [auto|]. rewrite lookup_insert_ne by done. auto.
Qed.

Lemma mapTrelloToNotion_department c cf ln :
  mapTrelloToNotion c cf ln !! "Department"
  = Some (PSelect (Some (if String.eqb ln "" then "Unknown" else ln))).
Proof.
  unfold mapTrelloToNotion.
  rewrite lookup_insert_ne by apart.
  rewrite !lookup_setNumber_ne by apart.
  rewrite lookup_insert_ne by apart.
  apply lookup_insert_eq.
Qed.

Lemma mapTrelloToNotion_synced c cf ln :
  mapTrelloToNotion c cf ln !! "synced" = Some (PCheckbox true).
Proof. unfold mapTrelloToNotion. apply lookup_insert_eq. Qed.

(** X5. The properties [mapTrelloToNotion] builds: no property outside the
    eight mapped names; the title and the Trello ID are those of the card;
    synced is always true; the Department is never empty; and each of the
    four numeric properties is either absent or a number. *)
Theorem mapped_properties_shape (c : card) (cf : gmap string value) (ln : string) :
  let props := mapTrelloToNotion c cf ln in
  (forall k p, props !! k = Some p -> In k mappedNames)
  /\ props !! "Priority Name" = Some (PTitle [card_name c])
  /\ props !! "Trello ID" = Some (PRichText [card_id c])
  /\ props !! "synced" = Some (PCheckbox true)
  /\ extractSelectValue (props !! "Department") <> ""
  /\ Forall (fun k => props !! k = None
                      \/ exists x, props !! k = Some (PNumber (VNumber x))) numericFields.
Proof.
  intros props. split; [|split; [|split; [|split; [|split]]]].
  - intros k p. unfold props, mapTrelloToNotion, mappedNames.
    destruct (decide (k = "synced")) as [->|H0]; [intros _; simpl; tauto|].
    rewrite lookup_insert_ne by done. intros H.
    repeat (apply lookup_setNumber_Some in H as [->|H]; [simpl; tauto|]).
    repeat (apply lookup_insert_Some in H as [[<- _]|[_ H]]; [simpl; tauto|]).
    done.
  - apply mapTrelloToNotion_title.
  - unfold props, mapTrelloToNotion.
    rewrite lookup_insert_ne by apart.
    rewrite !lookup_setNumber_ne by apart.
    apply lookup_insert_eq.
  - apply mapTrelloToNotion_synced.
  - unfold props. rewrite mapTrelloToNotion_department. simpl.
    destruct (String.eqb ln "") eqn:E; [done|]. by apply String.eqb_neq in E.
  - pose proof (mapTrelloToNotion_numbers c cf ln) as H.
    eapply Forall_impl; [exact H|]. intros k Hk. unfold props. rewrite Hk.
    destruct (is_nullish (field cf k)); [by left | right; eauto].
Qed.

(** X6. An entry that holds exactly what the mapper writes for a card is
    not due for an update when the pass looks at the same card again,
    provided the card is in a named list and each numeric field is unset, a
    number, or a numeral that prints back as itself. *)
Theorem written_entry_compares_unchanged (c : card) (cf : gmap string value)
        (ln pageId : string) :
  ln <> "" -> Forall (fun k => settled (field cf k)) numericFields ->
  shouldUpdateNotionEntry {| entry_id := pageId; properties := mapTrelloToNotion c cf ln |}
                          c cf ln = false.
Proof.
  intros Hln Hcf. unfold shouldUpdateNotionEntry. cbn [properties].
  rewrite mapTrelloToNotion_title. cbn [extractTitleValue]. rewrite hasChanged_same.
  rewrite mapTrelloToNotion_department. cbn [extractSelectValue].
  destruct (String.eqb ln "") eqn:E; [by apply String.eqb_eq in E|].
  rewrite hasChanged_same.
  change fieldsToCheck with numericFields.
  pose proof (mapTrelloToNotion_numbers c cf ln) as Hn.
  apply not_true_is_false. intros Hex. apply existsb_exists in Hex as (k & Hk & Hch).
  rewrite List.Forall_forall in Hcf, Hn. specialize (Hcf k Hk). specialize (Hn k Hk).
  rewrite Hn in Hch. destruct Hcf as [H|[H|(s & H & Hs)]].
  - rewrite H in Hch. simpl in Hch. by destruct (field cf k).
  - destruct (field cf k) as [| |b|x|s]; try done. simpl in Hch.
    by rewrite hasChanged_same in Hch.
  - rewrite H in Hch. simpl in Hch. unfold hasChanged in Hch. simpl in Hch.
    rewrite Hs, String.eqb_refl in Hch. done.
Qed.

End WithHost.

Lemma remove_dashes_clean s a : In a (list_ascii_of_string (remove_dashes s)) -> a <> "-"%char.
Proof.
  induction s as [|b s IH]; simpl; [done|].
  destruct (Ascii.eqb b "-") eqn:E; [done|]. simpl. intros [<-|H]; [|auto].
  by apply Ascii.eqb_neq.
Qed.

Lemma remove_dashes_fixed s :
  (forall a, In a (list_ascii_of_string s) -> a <> "-"%char) -> remove_dashes s = s.
Proof.
  induction s as [|b s IH]; simpl; [done|]. intros H.
  destruct (Ascii.eqb b "-") eqn:E.
  - apply Ascii.eqb_eq in E. exfalso. apply (H b); auto.
  - f_equal. apply IH. auto.
Qed.

Lemma remove_dashes_app s t : remove_dashes (s ++ t) = (remove_dashes s ++ remove_dashes t)%string.
Proof.
  induction s as [|b s IH]; simpl; [done|]. destruct (Ascii.eqb b "-"); simpl; by rewrite IH.
Qed.

(** X7. The page link never contains a dash, is the same for a page id
    with and without its dashes, and two page ids get the same link exactly
    when they agree once their dashes are removed. *)
Theorem page_link_ignores_dashes (pageId : string) :
  (forall a, In a (list_ascii_of_string (generateNotionPageUrl pageId)) -> a <> "-"%char)
  /\ generateNotionPageUrl (remove_dashes pageId) = generateNotionPageUrl pageId
  /\ (forall other, remove_dashes other = remove_dashes pageId <->
                    generateNotionPageUrl other = generateNotionPageUrl pageId).
Proof.
  split; [|split].
  - intros a Ha. apply (remove_dashes_clean (generateNotionPageUrl pageId)).
    unfold generateNotionPageUrl in *. rewrite remove_dashes_app.
    rewrite (remove_dashes_fixed (remove_dashes pageId)) by apply remove_dashes_clean.
    exact Ha.
  - unfold generateNotionPageUrl. f_equal. apply remove_dashes_fixed, remove_dashes_clean.
  - intros other. unfold generateNotionPageUrl. split; [by intros -> |].
    intros H. by simplify_eq.
Qed.

End MapperFacts.

(** ** Objects as dictionaries: enumeration order *)

Module EnumerationFacts.
Import Notion Trello Mapping Remote Engine Spec JsFacts ListingFacts Vocabulary.

(** Array-index keys are canonical numerals. *)
Lemma digit_of_bound a d : digit_of a = Some d -> (d < 10)%N.
Proof.
  unfold digit_of. destruct (_ && _) eqn:E; [|done]. intros [= <-].
  apply andb_true_iff in E as [E1 E2]. apply N.leb_le in E1, E2. lia.
Qed.

Lemma digit_of_inj a b d : digit_of a = Some d -> digit_of b = Some d -> a = b.
Proof.
  unfold digit_of.
  destruct (_ && _) eqn:E1; [|done]. destruct ((48 <=? N_of_ascii b)%N && _) eqn:E2; [|done].
  intros [= H1] [= H2].
  apply andb_true_iff in E1 as [E1 _], E2 as [E2 _]. apply N.leb_le in E1, E2.
  rewrite <- (ascii_N_embedding a), <- (ascii_N_embedding b). f_equal. lia.
Qed.

Lemma digits_value_acc acc s v :
  digits_value acc s = Some v ->
  exists w, digits_value 0 s = Some w /\ (v = acc * 10 ^ N.of_nat (String.length s) + w)%N
            /\ (w < 10 ^ N.of_nat (String.length s))%N.
Proof.
  revert acc v. induction s as [|a s IH]; intros acc v; simpl.
  - intros [= <-]. exists 0%N. split; [done|]. simpl. lia.
  - destruct (digit_of a) as [d|] eqn:Ed; [|done]. intros H.
    apply IH in H as (w & Hw & -> & Hlt).
    pose proof (digit_of_bound _ _ Ed) as Hd.
    change (0 * 10 + d)%N with d.
    destruct (digits_value d s) as [w'|] eqn:Ew'.
    + apply IH in Ew' as (w2 & Hw2 & -> & Hlt2). rewrite Hw in Hw2. injection Hw2 as <-.
      exists (d * 10 ^ N.of_nat (String.length s) + w)%N. split; [done|].
      rewrite Nat2N.inj_succ, N.pow_succ_r'. split; nia.
    + exfalso. clear -Hw Ew'. revert Ew'.
      generalize d. generalize dependent w. generalize 0%N.
      induction s as [|b s IHs]; simpl; [done|]. intros n w.
      destruct (digit_of b); [|done]. intros Hw n'. eauto.
Qed.

(** Two numerals of the same length with the same value are the same. *)
Lemma digits_value_inj s t v :
  String.length s = String.length t ->
  digits_value 0 s = Some v -> digits_value 0 t = Some v -> s = t.
Proof.
  revert t v. induction s as [|a s IH]; intros [|b t] v; simpl; try done.
  intros [= Hlen].
  destruct (digit_of a) as [d|] eqn:Ea; [|done].
  destruct (digit_of b) as [e|] eqn:Eb; [|done].
  change (0 * 10 + d)%N with d. change (0 * 10 + e)%N with e.
  intros Hs Ht.
  apply digits_value_acc in Hs as (w & Hw & -> & Hlt).
  apply digits_value_acc in Ht as (w' & Hw' & Heq & Hlt').
  rewrite <- Hlen in *.
  assert (d = e /\ w = w') as [-> ->].
  { set (P := (10 ^ N.of_nat (String.length s))%N) in *. clearbody P.
    destruct (N.lt_trichotomy d e) as [H|[H|H]]; [exfalso; nia | split; nia | exfalso; nia]. }
  f_equal; [by apply (digit_of_inj _ _ e) | by apply (IH t w')].
Qed.

(** A numeral that starts with a non-zero digit is at least 10^(length-1). *)
Lemma digits_value_lead a s v :
  digits_value 0 (String a s) = Some v -> a <> "0"%char ->
  (10 ^ N.of_nat (String.length s) <= v)%N.
Proof.
  simpl. destruct (digit_of a) as [d|] eqn:Ed; [|done].
  change (0 * 10 + d)%N with d. intros H Ha.
  apply digits_value_acc in H as (w & _ & -> & _).
  assert (d <> 0%N) as Hd.
  { intros ->. apply Ha. apply (digit_of_inj a "0" 0%N Ed). reflexivity. }
  nia.
Qed.

Lemma array_index_inj k1 k2 n :
  array_index k1 = Some n -> array_index k2 = Some n -> k1 = k2.
Proof.
  assert (forall k n, array_index k = Some n ->
            digits_value 0 k = Some n
            /\ (k = "0" \/ exists a s, k = String a s /\ a <> "0"%char)) as Hcanon.
  { intros [|a s] m; simpl; [done|].
    destruct (Ascii.eqb a "0") eqn:Ea; simpl.
    - apply Ascii.eqb_eq in Ea. subst a.
      destruct (String.eqb s "") eqn:Es; simpl; [|done].
      apply String.eqb_eq in Es. subst s. simpl. intros [= <-]. split; [done|]. by left.
    - apply Ascii.eqb_neq in Ea.
      destruct (digit_of a) as [d|] eqn:Ed; [|done].
      destruct (digits_value (0 * 10 + d) s) as [v|] eqn:Ev; [|done].
      destruct (v <? 4294967295)%N; [|done]. intros [= <-]. split; [done|]. right. eauto. }
  intros H1 H2. apply Hcanon in H1 as [V1 C1], H2 as [V2 C2].
  apply (digits_value_inj k1 k2 n); [|done|done].
  destruct C1 as [->|(a & s & -> & Ha)], C2 as [->|(b & t & -> & Hb)]; try done.
  - simpl in V1. injection V1 as <-. apply digits_value_lead in V2; [|done].
    exfalso. pose proof (N.pow_nonzero 10 (N.of_nat (String.length t))). lia.
  - simpl in V2. injection V2 as <-. apply digits_value_lead in V1; [|done].
    exfalso. pose proof (N.pow_nonzero 10 (N.of_nat (String.length s))). lia.
  - pose proof (digits_value_lead _ _ _ V1 Ha) as L1.
    pose proof (digits_value_lead _ _ _ V2 Hb) as L2.
    apply digits_value_acc in V1 as (w1 & _ & E1 & B1).
    apply digits_value_acc in V2 as (w2 & _ & E2 & B2).
    simpl in *. rewrite N.mul_0_l, N.add_0_l in E1, E2. subst w1 w2.
    destruct (Nat.lt_trichotomy (String.length s) (String.length t)) as [Hlt|[->|Hlt]]; [|done|].
    + exfalso. rewrite Nat2N.inj_succ, N.pow_succ_r' in B1.
      assert (10 * 10 ^ N.of_nat (String.length s) <= 10 ^ N.of_nat (String.length t))%N.
      { rewrite <- N.pow_succ_r'. apply N.pow_le_mono_r; lia. }
      lia.
    + exfalso. rewrite Nat2N.inj_succ, N.pow_succ_r' in B2.
      assert (10 * 10 ^ N.of_nat (String.length t) <= 10 ^ N.of_nat (String.length s))%N.
      { rewrite <- N.pow_succ_r'. apply N.pow_le_mono_r; lia. }
      lia.
Qed.

Section PlainKeys.
Context {A : Type}.
Implicit Types (o : obj A).

Lemma index_keys_plain o : plainKeys o -> index_keys o = [].
Proof. induction 1 as [|[k v] o Hk _ IH]; [done|]. simpl in *. by rewrite Hk. Qed.

Lemma filter_named_plain o : plainKeys o -> List.filter is_named o = o.
Proof.
  induction 1 as [|[k v] o Hk _ IH]; [done|]. simpl. unfold is_named at 1. simpl in *.
  by rewrite Hk, IH.
Qed.

Lemma entries_plain o : plainKeys o -> entries o = o.
Proof. intros H. unfold entries. by rewrite index_keys_plain, filter_named_plain. Qed.

(** Successive assignments to fresh keys append. *)
Lemma set_fresh o k v : get o k = None -> set o k v = o ++ [(k, v)].
Proof.
  induction o as [|[k' v'] o IH]; simpl; [done|].
  destruct (String.eqb k' k); [done|]. intros H. by rewrite IH.
Qed.

Lemma In_set o k v : In (k, v) (set o k v).
Proof.
  induction o as [|[k' v'] o IH]; simpl; [by left|].
  destruct (String.eqb k' k) eqn:E; simpl.
  - apply String.eqb_eq in E. subst. by left.
  - by right.
Qed.
End PlainKeys.

Lemma assignments_distinct {A V} (key : A -> string) (val : A -> V) (l : list A) :
  List.NoDup (map key l) ->
  foldl (fun (m : obj V) x => set m (key x) (val x)) [] l = map (fun x => (key x, val x)) l.
Proof.
  induction l as [|x l IH] using rev_ind; [done|].
  rewrite map_app. simpl. intros Hnd.
  apply NoDup_ListNoDup, NoDup_app in Hnd as (Hnd & Hdisj & _).
  rewrite foldl_app, map_app. simpl. rewrite IH by (by apply NoDup_ListNoDup).
  apply set_fresh. apply get_None_keys. rewrite map_map. simpl.
  intros Hin. apply (Hdisj (key x)); [by apply list_elem_of_In|].
  by apply list_elem_of_singleton.
Qed.

Section ObjOrder.
Context {A : Type}.
Implicit Types (o : obj A).

Lemma index_keys_In o n kv :
  In (n, kv) (index_keys o) -> In kv o /\ array_index (fst kv) = Some n.
Proof.
  induction o as [|[k v] o IH]; simpl; [done|].
  destruct (array_index k) as [m|] eqn:E.
  - intros H. apply (Permutation_in _ (insert_by_index_perm m (k, v) _)) in H as [H|H].
    + injection H as <- <-. split; [by left | done].
    + destruct (IH H). split; [by right | done].
  - intros H. destruct (IH H). split; [by right | done].
Qed.

Lemma insert_by_index_first n kv (l : list (N * (string * A))) :
  Forall (fun x => (n < fst x)%N) l -> insert_by_index n kv l = (n, kv) :: l.
Proof.
  destruct 1 as [|[m kv'] l Hm _]; simpl; [done|]. simpl in Hm.
  apply N.ltb_lt in Hm. by rewrite Hm.
Qed.

Lemma entries_enumerated o : enumerated (map fst o) -> entries o = o.
Proof.
  induction o as [|[k v] o IH]; [done|]. simpl.
  destruct (array_index k) as [n|] eqn:E.
  - intros [Hall Hen]. specialize (IH Hen). unfold entries in *. simpl.
    rewrite E. unfold is_named at 1. simpl. rewrite E.
    rewrite insert_by_index_first; [simpl; by rewrite IH|].
    apply List.Forall_forall. intros [m [k' v']] Hin.
    apply index_keys_In in Hin as [Hin Hm]. simpl in *.
    rewrite List.Forall_forall in Hall.
    specialize (Hall k'). rewrite Hm in Hall. apply Hall.
    change k' with (fst (k', v')). by apply in_map.
  - intros Hall. apply entries_plain. constructor; [done|].
    apply Forall_fmap in Hall. exact Hall.
Qed.

Lemma insert_by_index_sorted n kv (l : list (N * (string * A))) :
  StronglySorted (fun x y => (fst x <= fst y)%N) l ->
  StronglySorted (fun x y => (fst x <= fst y)%N) (insert_by_index n kv l).
Proof.
  induction 1 as [|[m kv'] l Hs IH Hall]; simpl; [repeat constructor|].
  destruct (n <? m)%N eqn:E.
  - apply N.ltb_lt in E. constructor; [by constructor|]. constructor; [simpl; lia|].
    eapply Forall_impl; [exact Hall|]. simpl. intros x. lia.
  - apply N.ltb_ge in E. constructor; [done|]. apply List.Forall_forall. intros x Hx.
    apply (Permutation_in _ (insert_by_index_perm n kv l)) in Hx as [<-|Hx]; [done|].
    rewrite List.Forall_forall in Hall. auto.
Qed.

Lemma index_keys_sorted o : StronglySorted (fun x y => (fst x <= fst y)%N) (index_keys o).
Proof.
  induction o as [|[k v] o IH]; simpl; [constructor|].
  destruct (array_index k); [by apply insert_by_index_sorted | done].
Qed.

Lemma index_keys_perm o :
  Permutation (map snd (index_keys o)) (List.filter (fun kv => negb (is_named kv)) o).
Proof.
  induction o as [|[k v] o IH]; simpl; [done|]. unfold is_named at 1. simpl.
  destruct (array_index k) as [n|]; simpl; [|done].
  rewrite insert_by_index_perm. simpl. by constructor.
Qed.

Lemma enumerated_app (l : list (N * (string * A))) (ps : list string) :
  StronglySorted (fun x y => (fst x < fst y)%N) l ->
  Forall (fun x => array_index (fst (snd x)) = Some (fst x)) l ->
  Forall (fun k => array_index k = None) ps ->
  enumerated (map (fun x => fst (snd x)) l ++ ps).
Proof.
  intros Hs Hl Hps. induction Hs as [|[n [k v]] l Hs IH Hall]; simpl.
  - induction Hps as [|k ps Hk Hps IH]; simpl; [done|]. by rewrite Hk.
  - apply Forall_cons in Hl as [Hk Hl]. simpl in Hk. rewrite Hk. split; [|by apply IH].
    apply Forall_app. split.
    + apply Forall_fmap. apply List.Forall_forall. intros [m [k' v']] Hin. simpl.
      rewrite List.Forall_forall in Hl, Hall.
      specialize (Hl _ Hin). specialize (Hall _ Hin). simpl in *. by rewrite Hl.
    + eapply Forall_impl; [exact Hps|]. intros k' ->. done.
Qed.

Lemma enumerated_entries o : List.NoDup (map fst o) -> enumerated (map fst (entries o)).
Proof.
  intros Hnd. unfold entries. rewrite map_app, map_map.
  apply enumerated_app.
  - assert (List.NoDup (map (fun x => fst (snd x)) (index_keys o))) as Hk.
    { rewrite <- map_map. eapply Permutation_NoDup.
      - symmetry. apply Permutation_map, index_keys_perm.
      - clear -Hnd. induction o as [|[k v] o IH]; simpl; [constructor|].
        inversion Hnd as [|? ? Hnot Hnd']; subst. destruct (negb _); [|auto].
        simpl. constructor; [|auto]. intros Hin. apply Hnot.
        apply in_map_iff in Hin as (kv & <- & Hin). apply filter_In in Hin as [Hin _].
        by apply in_map. }
    assert (Forall (fun x => array_index (fst (snd x)) = Some (fst x)) (index_keys o)) as Hi.
    { apply List.Forall_forall. intros [n kv] Hin. by apply index_keys_In in Hin as [_ ?]. }
    pose proof (index_keys_sorted o) as Hs.
    induction Hs as [|x l Hs IH Hall]; [constructor|].
    simpl in Hk. inversion Hk as [|? ? Hnot Hk']; subst.
    apply Forall_cons in Hi as [Hx Hi].
    constructor; [by apply IH|].
    apply List.Forall_forall. intros y Hy.
    rewrite List.Forall_forall in Hall, Hi. specialize (Hall y Hy). specialize (Hi y Hy).
    destruct (N.eq_dec (fst x) (fst y)) as [E|E]; [|lia].
    exfalso. apply Hnot. rewrite E in Hx.
    rewrite (array_index_inj _ _ _ Hx Hi). by apply (in_map (fun x => fst (snd x))).
  - apply List.Forall_forall. intros [n kv] Hin. by apply index_keys_In in Hin as [_ ?].
  - apply Forall_fmap. apply List.Forall_forall. intros [k v] Hin.
    apply filter_In in Hin as [_ H]. unfold is_named in H. simpl in *.
    by destruct (array_index k).
Qed.
End ObjOrder.

(** X8. When the lists of the board have distinct names, none of which is
    an array index or '__proto__', and non-empty ids, a new card whose
    Department is no inherited name goes to the list named after that
    Department, and to the first list of the board when there is no such
    list. *)
Theorem default_list_of_new_card (lists : list boardList) (department : string) :
  List.NoDup (map list_name lists) ->
  Forall (fun l => array_index (list_name l) = None /\ list_id l <> "") lists ->
  Forall (fun l => list_name l <> "__proto__") lists ->
  inherited department = false ->
  defaultListId (createListMapReverse lists) department
  = match List.find (fun l => String.eqb (list_name l) department) lists with
    | Some l => Some (list_id l)
    | None => list_id <$> head lists
    end.
Proof.
  intros Hnd Hall _ _. unfold defaultListId.
  assert (createListMapReverse lists = map (fun l => (list_name l, list_id l)) lists) as Hm.
  { by apply (assignments_distinct list_name list_id). }
  assert (values (createListMapReverse lists) = map list_id lists) as Hv.
  { unfold values. rewrite entries_plain.
    - rewrite Hm, map_map. done.
    - rewrite Hm. unfold plainKeys. apply Forall_fmap. simpl.
      eapply Forall_impl; [exact Hall|]. by intros l [? _]. }
  rewrite Hv.
  assert (get (createListMapReverse lists) department
          = list_id <$> List.find (fun l => String.eqb (list_name l) department) lists) as Hg.
  { rewrite Hm. clear. induction lists as [|l lists IH]; [done|]. simpl.
    destruct (String.eqb (list_name l) department); [done | exact IH]. }
  rewrite Hg. destruct (List.find _ lists) as [l|] eqn:Ef; simpl.
  - apply find_some in Ef as [Hin _].
    rewrite List.Forall_forall in Hall. destruct (Hall l Hin) as [_ Hid].
    destruct (String.eqb (list_id l) "") eqn:E; [by apply String.eqb_eq in E | done].
  - by destruct lists.
Qed.

(** X9. A new card whose Department is no inherited name is left without
    a list only when the board has no list at all; no list of the board
    being named '__proto__'. *)
Theorem new_card_has_a_list (lists : list boardList) (department : string) :
  Forall (fun l => list_name l <> "__proto__") lists ->
  inherited department = false ->
  defaultListId (createListMapReverse lists) department = None <-> lists = [].
Proof.
  intros _ _.
  split; [|by intros ->].
  intros H. destruct lists as [|l lists] using rev_ind; [done|]. exfalso. clear IHlists.
  unfold defaultListId in H.
  assert (values (createListMapReverse (lists ++ [l])) <> []) as Hne.
  { unfold values. intros E. apply map_eq_nil in E.
    assert (In (list_name l, list_id l) (entries (createListMapReverse (lists ++ [l])))) as Hin.
    { apply In_entries. unfold createListMapReverse. rewrite foldl_app.
      apply In_set. }
    by rewrite E in Hin. }
  destruct (get _ department) as [i|]; [destruct (String.eqb i "")|]; try done;
    by destruct (values _).
Qed.

End EnumerationFacts.

(** ** The listing filter *)

Module FilterFacts.
Import Notion Trello Mapping Remote Engine Spec JsFacts ListingFacts Vocabulary.
Import EnumerationFacts PassFacts.

Lemma groupsOf_distinct (key : card -> string) cards :
  List.NoDup (map key cards) -> groupsOf key cards = map (fun c => (key c, [c])) cards.
Proof.
  induction cards as [|c cards IH] using rev_ind; [done|].
  rewrite map_app. simpl. intros Hnd.
  apply NoDup_ListNoDup, NoDup_app in Hnd as (Hnd & Hdisj & _).
  rewrite groupsOf_snoc, map_app. simpl. rewrite IH by (by apply NoDup_ListNoDup).
  unfold add_to_group.
  assert (get (map (fun c0 => (key c0, [c0])) cards) (key c) = None) as Hg.
  { apply get_None_keys. rewrite map_map. simpl. intros Hin.
    apply (Hdisj (key c)); [by apply list_elem_of_In | by apply list_elem_of_singleton]. }
  rewrite Hg. by apply set_fresh.
Qed.

Lemma keep_singletons (l : list card) (o : obj (list card)) :
  Permutation o (map (fun c => (trimmedName c, [c])) l) ->
  Permutation (flat_map (fun kv => option_list (cardToKeep (snd kv))) o) l.
Proof.
  intros Hp. rewrite Hp. clear. induction l as [|c l IH]; simpl; [done|]. by constructor.
Qed.

Lemma keptCards_distinct (cards : list card) :
  List.NoDup (map trimmedName cards) ->
  Permutation (keptCards cards) cards
  /\ (Forall (fun c => array_index (trimmedName c) = None) cards ->
      keptCards cards = cards).
Proof.
  intros Hnd. unfold keptCards, keptOf. rewrite (groupsOf_distinct _ _ Hnd). split.
  - apply keep_singletons, entries_perm.
  - intros Hplain. rewrite entries_plain.
    + clear. induction cards as [|c l IH]; simpl; [done|]. by rewrite IH.
    + unfold plainKeys. by apply Forall_fmap.
Qed.

(** X10. A listing in which no two cards share a trimmed title, and no
    trimmed title is an inherited name, loses no card to the filter: the
    filter returns a rearrangement of the listing, and the listing itself
    when no title is an array index. *)
Theorem distinct_titles_lose_no_card (cards : list card) :
  List.NoDup (map trimmedName cards) ->
  Forall (fun c => inherited (trimmedName c) = false) cards ->
  exists kept, removeProblematicCards cards = Some kept
               /\ Permutation kept cards
               /\ (Forall (fun c => array_index (trimmedName c) = None) cards ->
                   kept = cards).
Proof.
  intros Hnd Hplain. apply inheritedKey_false in Hplain.
  exists (keptCards cards). rewrite removeProblematicCards_spec, Hplain.
  split; [done|]. by apply keptCards_distinct.
Qed.

(** The selection rule keeps an oldest card of the preferred class. *)
Lemma insert_by_date_sorted c l :
  StronglySorted older l -> StronglySorted older (insert_by_date c l).
Proof.
  induction 1 as [|d l Hs IH Hall]; simpl; [repeat constructor|].
  destruct (dateLastActivity d <? dateLastActivity c)%Z eqn:E.
  - constructor; [done|]. apply List.Forall_forall. intros x Hx.
    apply (Permutation_in _ (insert_by_date_perm c l)) in Hx as [<-|Hx].
    + unfold older. lia.
    + rewrite List.Forall_forall in Hall. auto.
  - constructor; [by constructor|]. constructor; [unfold older; lia|].
    eapply Forall_impl; [exact Hall|]. unfold older. intros x. lia.
Qed.

Lemma sort_by_date_sorted l : StronglySorted older (sort_by_date l).
Proof. induction l as [|c l IH]; simpl; [constructor|]. by apply insert_by_date_sorted. Qed.

Lemma filter_sorted (p : card -> bool) l :
  StronglySorted older l -> StronglySorted older (List.filter p l).
Proof.
  induction 1 as [|d l Hs IH Hall]; simpl; [constructor|].
  destruct (p d); [|done]. constructor; [done|].
  apply List.Forall_forall. intros x Hx. apply filter_In in Hx as [Hx _].
  rewrite List.Forall_forall in Hall. auto.
Qed.

(** The head of the sorted, filtered group is an oldest card of the group
    that passes the filter. *)
Lemma head_filter_oldest (p : card -> bool) g u d :
  head (List.filter p (sort_by_date g)) = Some u ->
  In d g -> p d = true -> p u = true /\ older u d.
Proof.
  intros Hu Hd Hp.
  pose proof (filter_sorted p _ (sort_by_date_sorted g)) as Hs.
  assert (In d (List.filter p (sort_by_date g))) as Hin.
  { apply filter_In. split; [|done].
    eapply Permutation_in; [symmetry; apply sort_by_date_perm | done]. }
  destruct (List.filter p (sort_by_date g)) as [|x l] eqn:E; [done|].
  injection Hu as ->. split.
  - assert (In u (List.filter p (sort_by_date g))) as H by (rewrite E; by left).
    by apply filter_In in H as [_ ?].
  - inversion Hs as [|? ? _ Hall]; subst. destruct Hin as [<-|Hin].
    + unfold older. lia.
    + rewrite List.Forall_forall in Hall. auto.
Qed.

Lemma cardToKeep_preference g u d :
  cardToKeep g = Some u -> In d g ->
  (outsideContentCurriculum d = true -> outsideContentCurriculum u = true /\ older u d)
  /\ (outsideContentCurriculum u = false -> originalId d = true ->
      originalId u = true /\ older u d)
  /\ (outsideContentCurriculum u = false -> originalId u = false -> older u d).
Proof.
  unfold cardToKeep. destruct g as [|c [|c' g]]; [done| |].
  - intros [= ->] [->|[]]. unfold older. repeat split; try done; lia.
  - set (l := c :: c' :: g). fold outsideContentCurriculum. fold originalId.
    change (fun c0 => negb (String.eqb (idList c0) contentCurriculumList))
      with outsideContentCurriculum.
    change (fun c0 => negb (startsWith (card_id c0) "688bc")) with originalId.
    intros Hk Hd.
    destruct (List.filter outsideContentCurriculum (sort_by_date l)) as [|x xs] eqn:E1.
    + assert (forall y, In y l -> outsideContentCurriculum y = false) as Hall.
      { intros y Hy. apply not_true_is_false. intros Hp.
        assert (In y (List.filter outsideContentCurriculum (sort_by_date l))) as H.
        { apply filter_In. split; [|done].
          eapply Permutation_in; [symmetry; apply sort_by_date_perm | done]. }
        by rewrite E1 in H. }
      destruct (List.filter originalId (sort_by_date l)) as [|y ys] eqn:E2.
      * assert (forall y, In y l -> originalId y = false) as Hall2.
        { intros y Hy. apply not_true_is_false. intros Hp.
          assert (In y (List.filter originalId (sort_by_date l))) as H.
          { apply filter_In. split; [|done].
            eapply Permutation_in; [symmetry; apply sort_by_date_perm | done]. }
          by rewrite E2 in H. }
        split; [intros H; by rewrite Hall in H|].
        split; [intros _ H; by rewrite Hall2 in H|]. intros _ _.
        apply (head_filter_oldest (fun _ => true) l u d); [|done|done].
        assert (List.filter (fun _ => true) (sort_by_date l) = sort_by_date l) as ->; [|done].
        clear. induction (sort_by_date l); simpl; [done | by f_equal].
      * injection Hk as ->.
        assert (head (List.filter originalId (sort_by_date l)) = Some u) as Hh by (by rewrite E2).
        split; [intros H; by rewrite Hall in H|]. split.
        -- intros _ Hp. by apply (head_filter_oldest originalId l u d).
        -- intros _ Hu. exfalso.
           assert (In u (List.filter originalId (sort_by_date l))) as H by (rewrite E2; by left).
           apply filter_In in H as [_ H]. congruence.
    + injection Hk as ->.
      assert (head (List.filter outsideContentCurriculum (sort_by_date l)) = Some u) as Hh
        by (by rewrite E1).
      assert (outsideContentCurriculum u = true) as Hu.
      { assert (In u (List.filter outsideContentCurriculum (sort_by_date l))) as H
          by (rewrite E1; by left).
        by apply filter_In in H as [_ H]. }
      split; [|split]; try (intros H; congruence).
      intros Hp. by apply (head_filter_oldest outsideContentCurriculum l u d).
Qed.

(** X11. The card the filter keeps for a title is preferred to every card
    of the listing with that title: if any of them is outside the Content
    Curriculum list, the kept one is, and is an oldest such card;
    otherwise, if any of them has an original id, the kept one has, and is
    an oldest such card; otherwise it is an oldest of them all. *)
Theorem kept_card_is_preferred_and_oldest (cards kept : list card) (u d : card) :
  removeProblematicCards cards = Some kept ->
  In u kept -> In d cards -> trimmedName d = trimmedName u ->
  (outsideContentCurriculum d = true -> outsideContentCurriculum u = true /\ older u d)
  /\ (outsideContentCurriculum u = false -> originalId d = true ->
      originalId u = true /\ older u d)
  /\ (outsideContentCurriculum u = false -> originalId u = false -> older u d).
Proof.
  intros Hk Hu Hd Hn. apply removeProblematicCards_Some in Hk as [_ ->].
  apply kept_choice in Hu.
  apply (cardToKeep_preference _ u d Hu).
  apply filter_In. split; [done|]. by apply String.eqb_eq.
Qed.

Lemma keptCards_idempotent (cards : list card) :
  keptCards (keptCards cards) = keptCards cards.
Proof.
  set (kept := keptCards cards).
  unfold keptCards at 1. unfold keptOf.
  rewrite (groupsOf_distinct trimmedName kept) by apply kept_NoDup.
  rewrite entries_enumerated.
  - clear. induction kept as [|c l IH]; simpl; [done|]. by rewrite IH.
  - rewrite map_map. simpl. unfold kept. rewrite kept_names.
    apply enumerated_entries, groupsOf_NoDup.
Qed.

(** X12. Filtering what the filter returned returns it unchanged. *)
Theorem filter_is_idempotent (cards kept : list card) :
  removeProblematicCards cards = Some kept ->
  removeProblematicCards kept = Some kept.
Proof.
  intros Hk. apply removeProblematicCards_Some in Hk as [Hplain ->].
  rewrite removeProblematicCards_spec.
  rewrite (inheritedKey_incl trimmedName cards (keptCards cards)); [|apply kept_incl|done].
  by rewrite keptCards_idempotent.
Qed.

Section WithServices.
Context {host : Host} {W : Type} {services : Services W}.

(** C2, as amended.  Over a listing response none of whose ids and trimmed
    titles is an inherited name, the listing filter returns, and of the
    records that share a trimmed title it keeps exactly one and drops the
    others before reconciliation.  The kept one is preferred to every
    record of its title: the oldest by last activity among those outside
    the Content Curriculum list, else the oldest among those whose id does
    not start with 688bc, else the oldest.  Every trimmed title of the
    response keeps a record, and the Board -> Database pass returns, having
    sent for each id that survived the filter the operation its first kept
    occurrence calls for. *)
Theorem listing_keeps_one_per_title raw lm fs byId (s : state W) :
  Forall (fun c => plainCard c = true) raw ->
  exists kept,
    removeProblematicCards raw = Some kept
    /\ List.NoDup (map trimmedName kept)
    /\ Forall (fun k => In k raw
                        /\ Forall (fun d => trimmedName d = trimmedName k -> preferred k d) raw)
              kept
    /\ Forall (fun c => Exists (fun k => trimmedName k = trimmedName c) kept) raw
    /\ Forall (fun k => Exists (fun u => card_id u = card_id k) (uniqueCards kept)) kept
    /\ let '(r, s', t) := syncTrelloToNotion kept lm fs byId s in
       r = Ok tt
       /\ map fst t = flat_map (databaseCalls lm fs byId) (uniqueCards kept).
Proof.
  intros Hplain. exists (keptCards raw).
  assert (inheritedKey trimmedName raw = false) as Htitles.
  { apply inheritedKey_false. eapply Forall_impl; [exact Hplain|]. intros c Hc.
    apply andb_true_iff in Hc as [_ Hc]. by apply negb_true_iff. }
  split; [by rewrite removeProblematicCards_spec, Htitles|].
  split; [apply kept_NoDup|]. split.
  { apply List.Forall_forall. intros k Hk. split; [by apply kept_incl|].
    apply List.Forall_forall. intros d Hd Hn. apply kept_choice in Hk.
    apply (cardToKeep_preference _ k d Hk).
    apply filter_In. split; [done|]. by apply String.eqb_eq. }
  split.
  { apply List.Forall_forall. intros c Hc. apply List.Exists_exists.
    destruct (kept_cover raw c Hc) as (u & ? & ?). eauto. }
  split.
  { apply List.Forall_forall. intros k Hk. apply List.Exists_exists.
    destruct (uniqueCards_cover _ k Hk) as (u & ? & ?). eauto. }
  assert (groupingRaises (keptCards raw) = false) as Hgroup.
  { apply plain_groupingRaises, List.Forall_forall. intros c Hc.
    rewrite List.Forall_forall in Hplain. by apply Hplain, kept_incl. }
  pose proof (post_syncTrelloToNotion (keptCards raw) lm fs byId s) as H.
  unfold post in H.
  destruct (syncTrelloToNotion (keptCards raw) lm fs byId s) as [[r s'] t].
  rewrite Hgroup in H. by destruct H as (-> & Ht & _).
Qed.

End WithServices.

End FilterFacts.

(** ** [updateTrelloFromNotion] *)

Module UpdateFacts.
Import Notion Trello Mapping Remote Engine Spec JsFacts ListingFacts MappingFacts Rules.
Import PassFacts FullPass Vocabulary.

Lemma stopsAtFailure_app {A B} (t1 t2 : list event) (r : outcome B) (a : A) :
  stopsAtFailure (Ok a) t1 -> stopsAtFailure r t2 -> stopsAtFailure r (t1 ++ t2).
Proof.
  unfold stopsAtFailure. intros H1. destruct r.
  - intros H2. rewrite failures_app. lia.
  - intros (t0 & c & -> & H0). exists (t1 ++ t0), c. split; [by rewrite app_assoc|].
    rewrite failures_app. lia.
Qed.

Section WithServices.
Context {host : Host} {W : Type} {services : Services W}.

Lemma flagged_ret_false : flagged (W := W) (ret false).
Proof. intros s. apply post_ret. split; [done|]. split; [done|]. by intros h [= <-]. Qed.

Lemma flagged_request c : flagged (request c ;; ret true)%sync.
Proof.
  intros s. apply post_bind, post_request.
  - intros v w' _. apply post_ret. simpl. split; [done|]. split; [done|]. by intros h [= <-].
  - intros w' _. simpl. split; [done|]. split; [|done]. by exists [], c.
Qed.

Ltac flagging :=
  first [ apply flagged_ret_false
        | match goal with |- flagged (bind (request ?c) _) => exact (flagged_request c) end ].

Lemma flagged_pushCustomField c cfm kv : flagged (pushCustomField c cfm kv).
Proof.
  destruct kv as [k v]. unfold pushCustomField.
  destruct (cfm !! k) as [fid|]; [|apply flagged_ret_false].
  destruct (_ && _); [|apply flagged_ret_false].
  destruct (String.eqb k "synced"); [flagging|].
  destruct v; cbv iota; flagging.
Qed.

Lemma flagged_or (m1 m2 : M W bool) :
  flagged m1 -> flagged m2 -> flagged (h <- m1 ;; h' <- m2 ;; ret (h || h'))%sync.
Proof.
  intros H1 H2 s. apply post_bind. eapply post_mono; [apply H1|].
  intros [h|] s1 t1 (Hs1 & Hf1 & Hh1); [|done].
  apply post_bind. eapply post_mono; [apply H2|].
  intros [h'|] s2 t2 (Hs2 & Hf2 & Hh2).
  - apply post_ret. rewrite app_nil_r. split; [congruence|]. split.
    + by apply (stopsAtFailure_app t1 t2 (Ok h') h).
    + intros ? [= <-]. rewrite (Hh1 h), (Hh2 h') by done. by destruct t1, t2.
  - split; [congruence|]. split; [|done]. by apply (stopsAtFailure_app t1 t2 Throw h).
Qed.

Lemma flagged_pushCustomFields c cfm kvs : flagged (pushCustomFields c cfm kvs).
Proof.
  induction kvs as [|kv kvs IH]; simpl; [apply flagged_ret_false|].
  apply flagged_or; [apply flagged_pushCustomField | apply IH].
Qed.

Lemma counted_step h0 (m : M W bool) (k : bool -> M W unit) :
  flagged m -> (forall h, counted (h0 || h) (k h)) -> counted h0 (bind m k).
Proof.
  intros Hm Hk s. apply post_bind. eapply post_mono; [apply Hm|].
  intros [h|] s1 t1 (Hs1 & Hf1 & Hh1); [|by rewrite Hs1].
  eapply post_mono; [apply Hk|]. intros r s2 t2 [Hf2 Hs2]. split.
  - by apply (stopsAtFailure_app t1 t2 r h).
  - rewrite (Hh1 h eq_refl) in Hs2. rewrite Hs1 in Hs2. destruct r; [|done].
    rewrite Hs2. by destruct h0, t1, t2.
Qed.

Lemma counted_last h0 :
  counted (W := W) h0 (if h0 then modify_stats n2t_updated else ret tt).
Proof.
  intros s. destruct h0.
  - apply post_modify. by split.
  - apply post_ret. by split.
Qed.

Lemma counted_updateTrelloFromNotion e c rev cfm :
  counted false (updateTrelloFromNotion e c rev cfm).
Proof.
  unfold updateTrelloFromNotion. cbv zeta.
  apply counted_step.
  { destruct (update_name _); [destruct (hasChanged _ _)|];
      flagging. }
  intros h1. apply counted_step.
  { destruct (get rev _); [destruct (_ && _)|];
      flagging. }
  intros h2. apply counted_step; [apply flagged_pushCustomFields|].
  intros h3. apply counted_step.
  { destruct (cfm !! "Total Score"); [destruct (_ && _)|];
      flagging. }
  intros h4. apply counted_step.
  { destruct (cfm !! "Notion Link") as [fid|]; [destruct (String.eqb fid "")|];
      [apply flagged_ret_false | | apply flagged_ret_false].
    destruct (hasChanged _ _); flagging. }
  intros h5. simpl. apply counted_last.
Qed.

Ltac addressed :=
  repeat first
    [ apply sends_ret
    | apply sends_modify
    | apply sends_bind; [|intros ?]
    | match goal with
      | |- sends ?P (request ?c) => apply (sends_request P c); simpl; apply String.eqb_refl
      | |- sends _ (match ?x with _ => _ end) => destruct x
      | |- sends _ (if ?x then _ else _) => destruct x
      end ].

Lemma sends_writesCard_pushCustomFields c cfm kvs :
  sends (writesCard (card_id c)) (pushCustomFields c cfm kvs).
Proof.
  induction kvs as [|[k v] kvs IH]; simpl; [apply sends_ret|].
  apply sends_bind; [|intros h; apply sends_bind; [apply IH | intros h'; apply sends_ret]].
  unfold pushCustomField. addressed.
Qed.

(** X13. An update of a card stops at its first failed request: it returns
    only if every request it sent succeeded, and throws right after the one
    that failed.  It counts the card as updated, once, exactly when it
    returns after having sent something; when it throws it leaves the
    statistics alone. *)
Theorem update_stops_at_first_failure (e : entry) (c : card) (rev : obj string)
        (cfm : gmap string string) (s : state W) :
  let '(r, s', t) := updateTrelloFromNotion e c rev cfm s in
  stopsAtFailure r t
  /\ match r with
     | Ok _ => syncStats s' = if is_nil t then syncStats s else n2t_updated (syncStats s)
     | Throw => syncStats s' = syncStats s
     end.
Proof.
  pose proof (counted_updateTrelloFromNotion e c rev cfm s) as H1. unfold post in H1.
  destruct (updateTrelloFromNotion e c rev cfm s) as [[r s'] t].
  destruct H1 as [Hf Hs]. split; [done|].
  destruct r; [|done]. rewrite Hs. by destruct t.
Qed.

(** X14. Every request an update of a card sends is a write to that card:
    a rename, a move or a custom field write with the id of the card. *)
Theorem update_writes_only_its_card (e : entry) (c : card) (rev : obj string)
        (cfm : gmap string string) (s : state W) :
  let '(r, s', t) := updateTrelloFromNotion e c rev cfm s in
  Forall (fun ev => writesCard (card_id c) (fst ev) = true) t.
Proof.
  assert (sends (writesCard (card_id c)) (updateTrelloFromNotion e c rev cfm)) as H2.
  { unfold updateTrelloFromNotion. cbv zeta.
    apply sends_bind; [addressed|]. intros h1.
    apply sends_bind; [addressed|]. intros h2.
    apply sends_bind; [apply sends_writesCard_pushCustomFields|]. intros h3.
    addressed. }
  specialize (H2 s). unfold post in H2.
  by destruct (updateTrelloFromNotion e c rev cfm s) as [[r s'] t].
Qed.

End WithServices.
End UpdateFacts.

(** ** [createTrelloCardFromNotion] *)

Module CreationFacts.
Import Notion Trello Mapping Remote Engine Spec JsFacts ListingFacts MappingFacts Rules.
Import PassFacts FullPass Vocabulary.

Section WithServices.
Context {host : Host} {W : Type} {services : Services W}.

Ltac finish :=
  split; [done|];
  split; [eexists _, _; split; [reflexivity | split; [done|]; eexists _, _; reflexivity]|];
  split; [unfold failures; simpl; lia | done].

(** X15. For an entry without Trello ID, whose Department is no inherited
    name, the pass first asks for a card with the title of the entry, or
    'Untitled', in the list of its Department.  If that fails nothing else
    is sent.  If it succeeds the next request writes the id of the new card
    back to the entry.  At most one request fails; the entry counts as
    created when none does and as an error otherwise, even if the card
    exists by then. *)
Theorem new_card_counted_when_linked (rev : obj string) (cfm : gmap string string)
        (m : gmap string card) (e : entry) (s : state W) :
  trelloIdOf e = "" ->
  inherited (extractSelectValue (properties e !! "Department")) = false ->
  let create := T_createCard (newCardName e) (newCardList rev e) in
  let '(r, s', t) := try_catch (syncEntry rev cfm m e) (modify_stats incr_errors) s in
  r = Ok tt
  /\ (exists ok rest,
        t = (create, ok) :: rest
        /\ match fst (perform create (world s)) with
           | Some newCard =>
               ok = true
               /\ exists ok2 rest2,
                    rest = (N_updateEntry (entry_id e)
                                          {["Trello ID" := PRichText [card_id newCard]]}, ok2)
                           :: rest2
           | None => ok = false /\ rest = []
           end)
  /\ failures t <= 1
  /\ syncStats s' = if Nat.eqb (failures t) 0 then n2t_created (syncStats s)
                    else incr_errors (syncStats s).
Proof.
  intros He _ create. unfold syncEntry. cbv zeta. rewrite He. simpl String.eqb. cbv iota.
  unfold createTrelloCardFromNotion. cbv zeta.
  fold (newCardName e). fold (newCardList rev e). fold create.
  unfold try_catch, bind, request, getCustomFields, modify_stats, ret.
  destruct (perform create (world s)) as [[newCard|] w1] eqn:E1; simpl.
  2:{ split; [done|]. split; [by exists false, []|]. split; [unfold failures; simpl; lia|]. done. }
  destruct (perform (N_updateEntry _ _) w1) as [[[]|] w2] eqn:E2; simpl.
  2:{ finish. }
  unfold request. simpl.
  destruct (perform T_getCustomFields w2) as [[fields|] w3] eqn:E3; simpl.
  2:{ finish. }
  destruct (createCustomFieldMap fields !! "Notion Link") as [fid|]; simpl.
  2:{ finish. }
  destruct (String.eqb fid ""); simpl.
  { finish. }
  unfold request. simpl.
  destruct (perform (T_updateTextCustomField _ _ _) w3) as [[[]|] w4] eqn:E4; simpl.
  - finish.
  - finish.
Qed.

End WithServices.
End CreationFacts.

(** ** [syncTotalScoreToTrello] *)

Module ScoreFacts.
Import Notion Trello Mapping Remote Engine Spec JsFacts ListingFacts MappingFacts Rules.
Import PassFacts FullPass Vocabulary.

Section WithServices.
Context {host : Host} {W : Type} {services : Services W}.

Lemma post_scoreEntry fid m e (s : state W) :
  post (try_catch (syncTotalScoreEntry fid m e) (modify_stats incr_errors)) s
       (fun r s' t =>
          r = Ok tt /\ length t <= 1
          /\ trelloToNotion (syncStats s') = trelloToNotion (syncStats s)
          /\ notionToTrello (syncStats s') = notionToTrello (syncStats s)
          /\ errors (syncStats s') = errors (syncStats s) + failures t
          /\ Forall (fun ev => scoreWrite fid (fst ev) = true) t).
Proof.
  apply post_try. unfold syncTotalScoreEntry. cbv zeta.
  assert (forall s0 : state W, post (ret tt) s0 (fun r s1 t1 =>
            match r with
            | Ok a => Ok a = Ok tt /\ length t1 <= 1
                      /\ trelloToNotion (syncStats s1) = trelloToNotion (syncStats s0)
                      /\ notionToTrello (syncStats s1) = notionToTrello (syncStats s0)
                      /\ errors (syncStats s1) = errors (syncStats s0) + failures t1
                      /\ Forall (fun ev => scoreWrite fid (fst ev) = true) t1
            | Throw => False
            end)) as Hret.
  { intros s0. apply post_ret. simpl. unfold failures. simpl. repeat split; auto; lia. }
  destruct (String.eqb (trelloIdOf e) ""); [apply Hret|].
  destruct (m !! trelloIdOf e) as [c|]; [|apply Hret].
  destruct (is_nullish _) eqn:Hn; [apply Hret|].
  destruct (hasChanged _ _); [|apply Hret].
  apply (post_request (T_updateCustomField _ _ _)).
  - intros [] w' _. simpl. unfold failures. simpl. repeat split; auto; try lia.
    constructor; [|constructor]. simpl. by rewrite String.eqb_refl, Hn.
  - intros w' _. apply post_modify. simpl. unfold failures. simpl. repeat split; auto; try lia.
    constructor; [|constructor]. simpl. by rewrite String.eqb_refl, Hn.
Qed.

(** X16. The Total Score pass never throws and sends at most one request
    per entry, each a write of a non-null number to the Total Score field;
    without such a field it sends nothing.  It leaves both pairs of
    counters alone and adds one error per failed request. *)
Theorem total_score_pass_scope (es : list entry) (cfm : gmap string string)
        (m : gmap string card) (s : state W) :
  let '(r, s', t) := syncTotalScoreToTrello es cfm (Some m) s in
  r = Ok tt
  /\ trelloToNotion (syncStats s') = trelloToNotion (syncStats s)
  /\ notionToTrello (syncStats s') = notionToTrello (syncStats s)
  /\ errors (syncStats s') = errors (syncStats s) + failures t
  /\ length t <= length es
  /\ match cfm !! "Total Score" with
     | Some fid => Forall (fun ev => scoreWrite fid (fst ev) = true) t
     | None => t = []
     end.
Proof.
  cut (post (syncTotalScoreToTrello es cfm (Some m)) s (fun r s' t =>
         r = Ok tt
         /\ trelloToNotion (syncStats s') = trelloToNotion (syncStats s)
         /\ notionToTrello (syncStats s') = notionToTrello (syncStats s)
         /\ errors (syncStats s') = errors (syncStats s) + failures t
         /\ length t <= length es
         /\ match cfm !! "Total Score" with
            | Some fid => Forall (fun ev => scoreWrite fid (fst ev) = true) t
            | None => t = []
            end)).
  { unfold post. by destruct (syncTotalScoreToTrello es cfm (Some m) s) as [[r s'] t]. }
  unfold syncTotalScoreToTrello.
  destruct (cfm !! "Total Score") as [fid|].
  2:{ apply post_ret. simpl. unfold failures. simpl. repeat split; auto; lia. }
  destruct (String.eqb fid "").
  { apply post_ret. simpl. unfold failures. simpl. repeat split; auto; lia. }
  apply post_bind, post_ret. simpl.
  eapply post_mono.
  { apply (post_forEach (fun pre s1 t1 =>
       trelloToNotion (syncStats s1) = trelloToNotion (syncStats s)
       /\ notionToTrello (syncStats s1) = notionToTrello (syncStats s)
       /\ errors (syncStats s1) = errors (syncStats s) + failures t1
       /\ length t1 <= length pre
       /\ Forall (fun ev => scoreWrite fid (fst ev) = true) t1)).
    - unfold failures. simpl. repeat split; auto; lia.
    - intros pre e s1 t1 (H1 & H2 & H3 & H4 & H5).
      eapply post_mono; [apply post_scoreEntry|].
      intros r s2 t2 (-> & L & G1 & G2 & G3 & G4). split; [done|].
      rewrite failures_app, !length_app. simpl.
      repeat split; try congruence; try lia. by apply Forall_app. }
  intros r s' t (-> & H). done.
Qed.

End WithServices.
End ScoreFacts.

(** ** The counters of the Board -> Database pass *)

Module TallyFacts.
Import Notion Trello Mapping Remote Engine Spec JsFacts ListingFacts MappingFacts Rules.
Import PassFacts FullPass Vocabulary.

Lemma entriesCreated_app t1 t2 : entriesCreated (t1 ++ t2) = entriesCreated t1 + entriesCreated t2.
Proof. unfold entriesCreated. by rewrite List.filter_app, length_app. Qed.

Lemma entriesUpdated_app t1 t2 : entriesUpdated (t1 ++ t2) = entriesUpdated t1 + entriesUpdated t2.
Proof. unfold entriesUpdated. by rewrite List.filter_app, length_app. Qed.

Lemma countDatabase_tally t : forall st,
  Forall (fun ev => match fst ev with
                    | N_createEntry _ | N_updateEntry _ _ => True
                    | _ => False
                    end) t ->
  created (trelloToNotion (foldl countDatabase st t))
    = created (trelloToNotion st) + entriesCreated t
  /\ updated (trelloToNotion (foldl countDatabase st t))
     = updated (trelloToNotion st) + entriesUpdated t
  /\ errors (foldl countDatabase st t) = errors st + failures t
  /\ notionToTrello (foldl countDatabase st t) = notionToTrello st
  /\ entriesCreated t + entriesUpdated t + failures t = length t.
Proof.
  induction t as [|[c ok] t IH]; intros st Hall.
  - unfold entriesCreated, entriesUpdated, failures. simpl. repeat split; lia.
  - apply Forall_cons in Hall as [Hc Hall]. cbn [foldl].
    destruct (IH (countDatabase st (c, ok)) Hall) as (H1 & H2 & H3 & H4 & H5).
    rewrite H1, H2, H3, H4, failures_cons.
    change ((c, ok) :: t) with ([(c, ok)] ++ t).
    rewrite entriesCreated_app, entriesUpdated_app, length_app.
    unfold entriesCreated, entriesUpdated in *.
    destruct c, ok; simpl in *; try done; repeat split; lia.
Qed.

Lemma groupsOf_length (key : card -> string) cards : length (groupsOf key cards) <= length cards.
Proof.
  induction cards as [|c cards IH] using rev_ind; [simpl; lia|].
  rewrite groupsOf_snoc, length_app. simpl. unfold add_to_group.
  assert (forall (o : obj (list card)) k v, length (set o k v) <= S (length o)) as Hset.
  { intros o k v. induction o as [|[k' v'] o IHo]; simpl; [lia|].
    destruct (String.eqb k' k); simpl; lia. }
  destruct (get _ _); (etrans; [apply Hset|]); lia.
Qed.

Lemma uniqueCards_length cards : length (uniqueCards cards) <= length cards.
Proof.
  rewrite <- (length_map card_id), uniqueCards_ids, length_map.
  rewrite (Permutation_length (entries_perm _)). apply groupsOf_length.
Qed.

Section WithServices.
Context {host : Host} {W : Type} {services : Services W}.

Lemma databaseCalls_kind lm fs byId u :
  Forall (fun c => match c with
                   | N_createEntry _ | N_updateEntry _ _ => True
                   | _ => False
                   end) (databaseCalls lm fs byId u).
Proof.
  unfold databaseCalls. destruct (byId !! card_id u); [|by repeat constructor].
  destruct (shouldUpdateNotionEntry _ _ _ _); by repeat constructor.
Qed.

Lemma post_board_tally (cards : list card) (lm : gmap string string)
      (fs : list customField) (byId : gmap string entry) (s : state W) :
  post (syncTrelloToNotion cards lm fs byId) s (fun _ s' t =>
    created (trelloToNotion (syncStats s'))
      = created (trelloToNotion (syncStats s)) + entriesCreated t
    /\ updated (trelloToNotion (syncStats s'))
       = updated (trelloToNotion (syncStats s)) + entriesUpdated t
    /\ errors (syncStats s') = errors (syncStats s) + failures t
    /\ notionToTrello (syncStats s') = notionToTrello (syncStats s)
    /\ entriesCreated t + entriesUpdated t + failures t = length t
    /\ length t <= length cards).
Proof.
  pose proof (post_syncTrelloToNotion cards lm fs byId s) as H. unfold post in *.
  destruct (syncTrelloToNotion cards lm fs byId s) as [[r s'] t].
  destruct (groupingRaises cards).
  { destruct H as (_ & -> & ->). unfold entriesCreated, entriesUpdated, failures.
    simpl. repeat split; lia. }
  destruct H as (_ & Ht & Hs). rewrite Hs.
  assert (Forall (fun ev => match fst ev with
                            | N_createEntry _ | N_updateEntry _ _ => True
                            | _ => False
                            end) t) as Hk.
  { apply (proj1 (List.Forall_map fst (fun c => match c with
                                                 | N_createEntry _ | N_updateEntry _ _ => True
                                                 | _ => False
                                                 end) t)).
    rewrite Ht.
    apply List.Forall_forall. intros c Hc. apply in_flat_map in Hc as (u & _ & Hc).
    pose proof (databaseCalls_kind lm fs byId u) as Hu.
    rewrite List.Forall_forall in Hu. exact (Hu c Hc). }
  destruct (countDatabase_tally t (syncStats s) Hk) as (H1 & H2 & H3 & H4 & H5).
  repeat (split; [done|]).
  replace (length t) with (length (map fst t)) by apply length_map. rewrite Ht.
  etrans; [|apply uniqueCards_length].
  generalize (uniqueCards cards). intros l.
  induction l as [|u l IH]; [simpl; lia|].
  cbn [flat_map]. rewrite length_app. cbn [length].
  pose proof (databaseCalls_at_most_one lm fs byId u). lia.
Qed.

(** X17. The Board -> Database pass sends at most one request per listed
    card, each a creation or an update of an entry, and its counters are
    exact: created and updated grow by the number of creations and updates
    that succeeded, errors by the number of requests that failed, and the
    Database -> Board counters do not move. *)
Theorem board_to_database_tally (cards : list card) (lm : gmap string string)
        (fs : list customField) (byId : gmap string entry) (s : state W) :
  let '(r, s', t) := syncTrelloToNotion cards lm fs byId s in
  created (trelloToNotion (syncStats s'))
    = created (trelloToNotion (syncStats s)) + entriesCreated t
  /\ updated (trelloToNotion (syncStats s'))
     = updated (trelloToNotion (syncStats s)) + entriesUpdated t
  /\ errors (syncStats s') = errors (syncStats s) + failures t
  /\ notionToTrello (syncStats s') = notionToTrello (syncStats s)
  /\ Forall (fun ev => isDatabaseWrite (fst ev) = true) t
  /\ entriesCreated t + entriesUpdated t + failures t = length t
  /\ length t <= length cards.
Proof.
  pose proof (post_board_tally cards lm fs byId s) as H.
  pose proof (post_syncTrelloToNotion cards lm fs byId s) as H'. unfold post in *.
  destruct (syncTrelloToNotion cards lm fs byId s) as [[r s'] t].
  destruct H as (H1 & H2 & H3 & H4 & H5 & H6). repeat (split; [done|]).
  split; [|done]. destruct (groupingRaises cards).
  { destruct H' as (_ & _ & ->). constructor. }
  destruct H' as (_ & Ht & _).
  apply (proj1 (List.Forall_map fst (fun c => isDatabaseWrite c = true) t)).
  rewrite Ht. apply List.Forall_forall. intros c Hc.
  apply in_flat_map in Hc as (u & _ & Hc).
  pose proof (databaseCalls_kind lm fs byId u) as Hu.
  rewrite List.Forall_forall in Hu. specialize (Hu c Hc). by destruct c.
Qed.

(** The whole pass. *)

Lemma tallied_ret {A} (a : A) : tallied (W := W) (ret a).
Proof. intros s. apply post_ret. unfold entriesCreated. simpl. lia. Qed.

Lemma tallied_throw {A} : tallied (@throw W A).
Proof. intros s. unfold post, throw, entriesCreated. simpl. lia. Qed.

Lemma tallied_get_stats : tallied (W := W) get_stats.
Proof. intros s. unfold post, get_stats, entriesCreated. simpl. lia. Qed.

Lemma tallied_modify f :
  (forall st, created (trelloToNotion (f st)) = created (trelloToNotion st)) ->
  tallied (W := W) (modify_stats f).
Proof. intros Hf s. apply post_modify. simpl. rewrite Hf. unfold entriesCreated. simpl. lia. Qed.

Lemma tallied_request c :
  match c with N_createEntry _ => False | _ => True end -> tallied (request c).
Proof.
  intros Hc s. apply post_request; intros; simpl; unfold entriesCreated; simpl;
    destruct c; try done; simpl; lia.
Qed.

Lemma tallied_bind {A B} (m : M W A) (k : A -> M W B) :
  tallied m -> (forall a, tallied (k a)) -> tallied (bind m k).
Proof.
  intros Hm Hk s. apply post_bind. eapply post_mono; [apply Hm|].
  intros [a|] s1 t1 H1; [|done].
  eapply post_mono; [apply Hk|]. intros r s2 t2 H2. simpl in *.
  rewrite entriesCreated_app. lia.
Qed.

Lemma tallied_try {A} (m h : M W A) : tallied m -> tallied h -> tallied (try_catch m h).
Proof.
  intros Hm Hh s. apply post_try. eapply post_mono; [apply Hm|].
  intros [a|] s1 t1 H1; [done|].
  eapply post_mono; [apply Hh|]. intros r s2 t2 H2. simpl in *.
  rewrite entriesCreated_app. lia.
Qed.

Lemma tallied_settle {A} (m : M W A) : tallied m -> tallied (settle m).
Proof. intros Hm s. apply post_settle. apply Hm. Qed.

Lemma tallied_forEach {A} (xs : list A) (body : A -> M W unit) :
  (forall x, tallied (body x)) -> tallied (forEach xs body).
Proof.
  intros Hb. induction xs as [|x xs IH]; simpl; [apply tallied_ret|].
  apply tallied_bind; [apply Hb | by intros _].
Qed.

Ltac tallying :=
  repeat first
    [ apply tallied_ret
    | apply tallied_throw
    | apply tallied_get_stats
    | apply tallied_modify; reflexivity
    | apply tallied_bind; [|intros ?]
    | apply tallied_try
    | apply tallied_settle
    | apply tallied_forEach; intros ?
    | match goal with
      | |- tallied (request ?c) => apply (tallied_request c); exact I
      | |- tallied (match ?x with _ => _ end) => destruct x
      end ].

Lemma tallied_pushCustomFields c cfm kvs : tallied (pushCustomFields c cfm kvs).
Proof.
  induction kvs as [|[k v] kvs IH]; simpl; [apply tallied_ret|].
  apply tallied_bind; [|intros h; apply tallied_bind; [apply IH | intros h'; apply tallied_ret]].
  unfold pushCustomField. tallying.
Qed.

Lemma tallied_syncTrelloToNotion cards lm fs byId :
  tallied (syncTrelloToNotion cards lm fs byId).
Proof.
  intros s. eapply post_mono; [apply post_board_tally|]. intros r s' t H. simpl in H. apply H.
Qed.

Lemma tallied_syncNotionToTrello es rev cfm : tallied (syncNotionToTrello es rev cfm).
Proof.
  unfold syncNotionToTrello, getCards.
  apply tallied_bind; [tallying|]. intros cards.
  apply tallied_bind.
  - apply tallied_forEach. intros e. apply tallied_try; [|tallying].
    unfold syncEntry. cbv zeta. destruct (String.eqb (trelloIdOf e) "").
    + unfold createTrelloCardFromNotion, getCustomFields. tallying.
    + destruct (createCardMap cards !! trelloIdOf e) as [c|]; [|tallying].
      unfold updateTrelloFromNotion. cbv zeta.
      apply tallied_bind; [tallying|]. intros h1.
      apply tallied_bind; [tallying|]. intros h2.
      apply tallied_bind; [apply tallied_pushCustomFields|]. intros h3.
      tallying.
  - intros _. unfold syncTotalScoreToTrello.
    destruct (cfm !! "Total Score") as [fid|]; [|tallying].
    destruct (String.eqb fid ""); [tallying|].
    apply tallied_bind; [tallying|]. intros m. apply tallied_forEach. intros e.
    apply tallied_try; [|tallying]. unfold syncTotalScoreEntry. tallying.
Qed.

Lemma tallied_handleDeletionSync cards es cfm : tallied (handleDeletionSync cards es cfm).
Proof.
  unfold handleDeletionSync. destruct (cfm !! "synced") as [fid|]; [|tallying].
  destruct (String.eqb fid ""); [tallying|]. cbv zeta.
  apply tallied_bind; [|intros _]; apply tallied_forEach; intros x; apply tallied_try;
    try tallying.
  - unfold deleteEntryIfMarked. tallying.
  - unfold deleteCardIfMarked. tallying.
Qed.

(** X18. After a whole pass, whatever fails in it, the number of created
    entries it reports is the number of entry creations the Database
    accepted during the pass. *)
Theorem created_counter_is_exact (s : state W) :
  let '(r, s', t) := performSync s in
  created (trelloToNotion (syncStats s')) = entriesCreated t.
Proof.
  cut (post performSync s (fun _ s' t =>
         created (trelloToNotion (syncStats s')) = entriesCreated t)).
  { unfold post. by destruct (performSync s) as [[r s'] t]. }
  unfold performSync, resetStats. apply post_bind, post_modify. simpl.
  eapply post_mono.
  { apply tallied_try.
    - apply tallied_bind.
      + unfold fetchAll, getCards, getLists, getCustomFields, getEntries. tallying.
      + intros [[[cards lists] fs] es]. unfold reconcile. cbv zeta.
        apply tallied_bind; [apply tallied_syncTrelloToNotion|]. intros _.
        apply tallied_bind; [apply tallied_syncNotionToTrello|]. intros _.
        apply tallied_bind; [apply tallied_handleDeletionSync|]. intros _.
        apply tallied_get_stats.
    - tallying. }
  intros r s' t H. simpl in H. exact H.
Qed.

End WithServices.
End TallyFacts.

(** ** What a field writer leaves is read back unchanged *)

Module RoundTripFacts.
Import Notion Trello Mapping Remote Engine Spec JsFacts ListingFacts MappingFacts Rules.
Import PassFacts FullPass Vocabulary.
Import Http ValueFacts.

Section WithServices.
Context {host : Host} {W : Type} {services : Services W}.

Lemma number_reads_back (c : card) (fieldId : string) (item : customFieldItem) (v : value) :
  findItem c fieldId = Some (Some item) ->
  is_nullish v = false -> toStr v <> "" -> item_value item = numberBody v ->
  hasChanged (getTrelloCustomFieldValue c fieldId) v = false.
Proof.
  intros Hf Hv Hs Hb. unfold getTrelloCustomFieldValue. rewrite Hf, Hb. simpl.
  unfold orNull. simpl.
  destruct (String.eqb (toStr v) "") eqn:E; [by apply String.eqb_eq in E|]. simpl.
  unfold hasChanged. destruct v; try done; simpl; by rewrite String.eqb_refl.
Qed.

(** X19. A card that carries the item a field writer sends reads back as
    written: a checkbox reads as the boolean that was written, and a
    non-empty text or a number with a non-empty print compares unchanged
    with the value that was written. *)
Theorem written_fields_read_back (c : card) (fieldId : string) (item : customFieldItem) :
  findItem c fieldId = Some (Some item) ->
  (forall b, item_value item = checkedBody (VBool b) ->
     getTrelloCheckboxCustomFieldValue c fieldId = VBool b
     /\ itemValueOf (item_value item) = VBool b)
  /\ (forall s, s <> "" -> item_value item = textBody (VString s) ->
        hasChanged (getTrelloTextCustomFieldValue c fieldId) (VString s) = false)
  /\ (forall v, is_nullish v = false -> toStr v <> "" -> item_value item = numberBody v ->
        hasChanged (getTrelloCustomFieldValue c fieldId) v = false).
Proof.
  intros Hf. split; [|split].
  - intros b Hb. unfold getTrelloCheckboxCustomFieldValue. rewrite Hf, Hb. by destruct b.
  - intros s Hs Hb. unfold getTrelloTextCustomFieldValue. rewrite Hf, Hb. simpl.
    unfold orNull. simpl. destruct (String.eqb s "") eqn:E; [by apply String.eqb_eq in E|].
    simpl. apply hasChanged_same.
  - intros v Hv Hs Hb. by apply (number_reads_back c fieldId item).
Qed.

(** X20. Once the Total Score item of a card holds what a write of the
    score of its entry leaves, the Total Score pass sends nothing for that
    entry and changes nothing. *)
Theorem score_once_written_is_left_alone (fieldId : string) (m : gmap string card)
        (e : entry) (c : card) (item : customFieldItem) (s : state W) :
  m !! trelloIdOf e = Some c ->
  findItem c fieldId = Some (Some item) ->
  item_value item = numberBody (extractNumericValue (properties e !! "Total Score")) ->
  toStr (extractNumericValue (properties e !! "Total Score")) <> "" ->
  syncTotalScoreEntry fieldId m e s = (Ok tt, s, []).
Proof.
  intros Hm Hf Hb Hs. unfold syncTotalScoreEntry. cbv zeta.
  destruct (String.eqb (trelloIdOf e) ""); [done|]. rewrite Hm.
  destruct (is_nullish _) eqn:Hn; [done|].
  by rewrite (number_reads_back c fieldId item _ Hf Hn Hs Hb).
Qed.

End WithServices.
End RoundTripFacts.

(** ** How the passes compose *)

Module CompositionFacts.
Import Notion Trello Mapping Remote Engine Spec JsFacts ListingFacts MappingFacts Rules.
Import PassFacts FullPass Vocabulary.

Section WithServices.
Context {host : Host} {W : Type} {services : Services W}.

(** X21. A card for which the Database already holds an entry as the mapper
    writes it is never given a second entry: whatever else the listings
    hold, the Board -> Database pass sends no creation for the id of that
    card. *)
Theorem linked_card_is_not_created_again (cards : list card) (lm : gmap string string)
        (fs : list customField) (es : list entry) (e : entry) (c0 : card)
        (cf : gmap string value) (ln : string) (s : state W) :
  In e es -> properties e = mapTrelloToNotion c0 cf ln -> card_id c0 <> "" ->
  let '(r, s', t) := syncTrelloToNotion cards lm fs (createNotionLookupMap es) s in
  Forall (fun call => isCreation call = false) (operationsFor (card_id c0) (map fst t)).
Proof.
  intros He Hp Hid.
  pose proof (post_syncTrelloToNotion cards lm fs (createNotionLookupMap es) s) as H.
  unfold post in H.
  destruct (syncTrelloToNotion cards lm fs (createNotionLookupMap es) s) as [[r s'] t].
  destruct (groupingRaises cards); [destruct H as (_ & _ & ->); constructor|].
  destruct H as (_ & -> & _). rewrite operationsFor_pass.
  destruct (firstWith card_id (card_id c0) cards) as [u|] eqn:Eu; [|constructor].
  apply firstWith_key in Eu as [Hu _]. unfold databaseCalls. rewrite Hu.
  assert (existsb (references (card_id c0)) es = true) as Href.
  { apply existsb_exists. exists e. split; [done|]. unfold references, trelloIdOf.
    rewrite Hp, mapTrelloToNotion_trelloId, String.eqb_refl.
    destruct (String.eqb (card_id c0) "") eqn:E; [by apply String.eqb_eq in E | done]. }
  rewrite <- createNotionLookupMap_lookup in Href. apply bool_decide_eq_true in Href.
  destruct Href as [e' ->].
  destruct (shouldUpdateNotionEntry _ _ _ _); repeat constructor.
Qed.

Lemma post_reconcile_calls cards lists fs es (s : state W) :
  groupingRaises cards = false ->
  post (reconcile cards lists fs es) s (fun r s' t =>
    match r with
    | Ok _ => exists middle,
        map fst t
        = flat_map (databaseCalls (createListMap lists) fs (createNotionLookupMap es))
                   (uniqueCards cards)
          ++ middle ++ deletionCalls cards es (createCustomFieldMap fs)
    | Throw =>
        map fst t
        = flat_map (databaseCalls (createListMap lists) fs (createNotionLookupMap es))
                   (uniqueCards cards)
          ++ [T_getCards]
    end).
Proof.
  intros Hplain. unfold reconcile. cbv zeta. apply post_bind.
  eapply post_mono; [apply post_syncTrelloToNotion|]. rewrite Hplain.
  intros r s1 t1 (-> & Ht1 & _). apply post_bind.
  eapply post_mono; [apply post_syncNotionToTrello|].
  intros [[]|] s2 t2 H2.
  - apply post_bind. eapply post_mono; [apply post_handleDeletionSync|].
    intros r s3 t3 (-> & Ht3 & _). unfold post, get_stats. simpl.
    exists (map fst t2). rewrite app_nil_r, (map_app _ t1), (map_app _ t2).
    by f_equal; [|f_equal].
  - destruct H2 as (_ & ok & ->). rewrite map_app. by f_equal.
Qed.

(** X22. A card that carries the synced marker while no entry refers to it
    is first given an entry and then deleted, in the same pass.  Over
    cards and entries none of whose ids, trimmed titles and cross-references
    is an inherited name: when what follows the upfront fetch returns, it
    has sent both the creation of an entry for the card and the deletion of
    the card, in this order; it throws only when its second listing of the
    cards does, and then the creation has been sent and that listing is
    the last request. *)
Theorem unreferenced_synced_card_gets_entry_and_is_deleted
        (cards : list card) (lists : list boardList) (fs : list customField)
        (es : list entry) (c : card) (fid : string) (s : state W) :
  Forall (fun c => plainCard c = true) cards ->
  Forall (fun e => inherited (trelloIdOf e) = false) es ->
  firstWith card_id (card_id c) cards = Some c ->
  existsb (references (card_id c)) es = false ->
  createCustomFieldMap fs !! "synced" = Some fid -> fid <> "" ->
  truthy (getTrelloCheckboxCustomFieldValue c fid) = true ->
  let '(r, s', t) := reconcile cards lists fs es s in
  match r with
  | Ok _ =>
      exists before between after,
        map fst t = before ++ [N_createEntry (propertiesOf (createListMap lists) fs c)]
                    ++ between ++ [T_deleteCard (card_id c)] ++ after
  | Throw =>
      exists before after,
        map fst t = before ++ [N_createEntry (propertiesOf (createListMap lists) fs c)]
                    ++ after ++ [T_getCards]
  end.
Proof.
  intros Hplain _ Hfirst Href Hfid Hne Hsynced. apply plain_groupingRaises in Hplain.
  pose proof (post_reconcile_calls cards lists fs es s Hplain) as H. unfold post in *.
  destruct (reconcile cards lists fs es s) as [[r s'] t].
  assert (In c (uniqueCards cards)) as Hu.
  { pose proof (find_uniqueCards cards (card_id c)) as Hf. rewrite Hfirst in Hf.
    by apply find_some in Hf as [? _]. }
  assert (In c cards) as Hc by (by apply firstWith_key in Hfirst as [_ ?]).
  assert (In (N_createEntry (propertiesOf (createListMap lists) fs c))
             (flat_map (databaseCalls (createListMap lists) fs (createNotionLookupMap es))
                       (uniqueCards cards))) as Hcreate.
  { apply in_flat_map. exists c. split; [done|]. unfold databaseCalls.
    destruct (createNotionLookupMap es !! card_id c) as [e|] eqn:E; [|by left].
    assert (bool_decide (is_Some (createNotionLookupMap es !! card_id c)) = true) as Hb.
    { apply bool_decide_eq_true. by rewrite E. }
    rewrite createNotionLookupMap_lookup in Hb. congruence. }
  apply in_split in Hcreate as (a1 & a2 & Ha).
  destruct r as [st|].
  - destruct H as (middle & Ht).
    assert (In (T_deleteCard (card_id c)) (deletionCalls cards es (createCustomFieldMap fs)))
      as Hdelete.
    { unfold deletionCalls. rewrite Hfid.
      destruct (String.eqb fid "") eqn:E; [by apply String.eqb_eq in E|].
      apply in_or_app. right. apply in_flat_map. exists c. split; [done|].
      unfold deleteCalls, orphanSynced. rewrite Hsynced, <- negb_existsb, Href. by left. }
    apply in_split in Hdelete as (d1 & d2 & Hd).
    exists a1, (a2 ++ middle ++ d1), d2. rewrite Ht, Ha, Hd.
    rewrite <- !app_assoc. reflexivity.
  - exists a1, a2. rewrite H, Ha. rewrite <- !app_assoc. reflexivity.
Qed.

End WithServices.
End CompositionFacts.

(** ** The logger *)

Module LoggerFacts.
Import Logger.

Lemma levelOf_cases inherited name :
  levelOf inherited name = Own 0%float \/ levelOf inherited name = Own 1%float
  \/ levelOf inherited name = Own 2%float \/ levelOf inherited name = Own 3%float
  \/ levelOf inherited name = Inherited \/ levelOf inherited name = Missing.
Proof.
  unfold levelOf, levels. cbn [get].
  destruct (String.eqb "debug" name); [by left|].
  destruct (String.eqb "info" name); [by right; left|].
  destruct (String.eqb "warn" name); [by right; right; left|].
  destruct (String.eqb "error" name); [by right; right; right; left|].
  destruct (inherited name); [by right; right; right; right; left|].
  by right; right; right; right; right.
Qed.

Lemma currentLevel_cases inherited level :
  currentLevel (newLogger inherited level) = Own 1%float
  \/ currentLevel (newLogger inherited level) = Own 2%float
  \/ currentLevel (newLogger inherited level) = Own 3%float
  \/ (currentLevel (newLogger inherited level) = Inherited
      /\ exists name, level = Some name /\ levelOf inherited name = Inherited).
Proof.
  destruct level as [name|]; [|left; reflexivity].
  unfold newLogger. change (default "info" (Some name)) with name. cbn [currentLevel].
  destruct (levelOf_cases inherited name) as [H|[H|[H|[H|[H|H]]]]]; rewrite H.
  - left; reflexivity.
  - left; reflexivity.
  - right; left; reflexivity.
  - right; right; left; reflexivity.
  - right. right. right. split; [done|]. by exists name.
  - left; reflexivity.
Qed.

(** X23. No logger ever writes a debug message: the level 'debug' is 0,
    which the constructor replaces by the level of 'info', so a logger made
    for 'debug' is the default logger.  Error messages are written by every
    logger whose level does not name a member that objects inherit. *)
Theorem debug_is_never_logged {Data : Type} (inherited : string -> bool)
        (now : string) (stringify : Data -> string)
        (isTruthy : Data -> bool) (upper : string -> string)
        (level : option string) (message : string) (data : option Data) :
  debug inherited now stringify isTruthy upper (newLogger inherited level) message data = []
  /\ newLogger inherited (Some "debug") = theLogger inherited
  /\ (match level with
      | Some name => levelOf inherited name <> Inherited
      | None => True
      end ->
      error inherited now stringify isTruthy upper (newLogger inherited level) message data
      = [formatMessage now stringify isTruthy upper "error" message data]).
Proof.
  split; [|split].
  - destruct (currentLevel_cases inherited level) as [H|[H|[H|[H _]]]];
      unfold debug, log, enabled; rewrite H; reflexivity.
  - reflexivity.
  - intros Hl.
    destruct (currentLevel_cases inherited level) as [H|[H|[H|[_ (name & -> & H)]]]];
      [| | |done]; unfold error, log, enabled; rewrite H; reflexivity.
Qed.

End LoggerFacts.

(** ** The webhook server *)

Module WebhookFacts.
Import Remote Config Webhook.

(** X24. With the configuration object of src/config/config.js, which has
    no [webhook] member, the handler of the webhook route throws on every
    request, so the route answers each of them with status 500 and never
    schedules a pass. *)
Theorem webhook_always_answers_500 (hmacOfBody : string -> payload -> string)
        (env : gmap string string) (pollInterval : float) (req : webhookRequest) :
  handleTrelloWebhook hmacOfBody (config env pollInterval) req = Throw
  /\ postWebhook hmacOfBody (config env pollInterval) req
     = {| status := 500; answer := "Internal server error"; syncScheduled := false |}.
Proof. split; reflexivity. Qed.

(** X25. The webhook asks for a pass only on the three action types the
    poller also watches.  On a card update the answer is whether the old
    name or the old list is reported, and the check throws exactly when a
    card update comes without [data]. *)
Theorem sync_triggers (w : payload) :
  (shouldTriggerSync w = Ok true ->
   exists a, payload_action w = Some a /\ In (action_type a) pollFilter)
  /\ (forall a, payload_action w = Some a -> action_type a = "updateCard" ->
      shouldTriggerSync w
      = match action_data a with
        | Some data => Ok (oldNameOrList data)
        | None => Throw
        end)
  /\ (shouldTriggerSync w = Throw <->
      exists a, payload_action w = Some a /\ action_type a = "updateCard"
                /\ action_data a = None).
Proof.
  unfold shouldTriggerSync, pollFilter. split; [|split].
  - destruct (payload_action w) as [a|]; [|done]. intros H. exists a. split; [done|].
    destruct (String.eqb (action_type a) "updateCustomFieldItem") eqn:E1.
    { apply String.eqb_eq in E1. rewrite E1. simpl. tauto. }
    destruct (String.eqb (action_type a) "updateCard") eqn:E2.
    { apply String.eqb_eq in E2. rewrite E2. simpl. tauto. }
    destruct (String.eqb (action_type a) "createCard") eqn:E3; [|done].
    apply String.eqb_eq in E3. rewrite E3. simpl. tauto.
  - intros a -> ->. reflexivity.
  - destruct (payload_action w) as [a|]; [|split; [done | by intros (a & H & _)]].
    split.
    + intros H. exists a. split; [done|].
      destruct (String.eqb (action_type a) "updateCustomFieldItem"); [done|].
      destruct (String.eqb (action_type a) "updateCard") eqn:E2.
      * apply String.eqb_eq in E2. split; [done|]. by destruct (action_data a).
      * by destruct (String.eqb (action_type a) "createCard").
    + intros (a' & [= <-] & -> & ->). reflexivity.
Qed.

End WebhookFacts.

(** ** The exit status of a run *)

Module MainFacts.
Import Notion Trello Mapping Remote Engine Spec Rules PassFacts FullPass Main.

Section WithServices.
Context {host : Host} {W : Type} {services : Services W}.

(** X26. A run exits with status 0 or 1, and with 0 exactly when the
    configuration was accepted, the pass returned its statistics and no
    request of the pass failed.  When the configuration is rejected nothing
    is sent. *)
Theorem exit_status_reports_failures (validated : outcome unit) (s : state W) :
  let '(r, s', t) := main validated s in
  exists code, r = Ok code
  /\ (code = 0 \/ code = 1)
  /\ (code = 0 <-> validated = Ok tt
                   /\ (exists st, fst (fst (performSync s)) = Ok st)
                   /\ failures t = 0)
  /\ (validated = Throw -> t = []).
Proof.
  unfold main, try_catch. destruct validated as [[]|].
  2:{ unfold throw, ret. simpl. exists 1. split; [done|]. split; [by right|].
      split; [|done]. split; [done | by intros [? _]]. }
  unfold bind, ret. pose proof (post_performSync s) as H. unfold post in H.
  destruct (performSync s) as [[[st|] s1] t1]; simpl.
  - destruct H as (up & rest & -> & Hup & -> & Hf & Herr).
    rewrite app_nil_r, failures_app, Hf, Herr. simpl.
    destruct (failures rest) as [|n] eqn:Ef; simpl.
    + exists 0. split; [done|]. split; [by left|]. split; [|done].
      split; [|done]. intros _. split; [done|]. split; [eauto | done].
    + exists 1. split; [done|]. split; [by right|]. split; [|done].
      split; [done | intros (_ & _ & ?); lia].
  - exists 1. split; [done|]. split; [by right|]. split; [|done].
    split; [done | by intros (_ & [st ?] & _)].
Qed.

End WithServices.
End MainFacts.

(** ** The polling service *)

Module ServiceFacts.
Import Remote Service.

Lemma consistent_start v h : consistent (v, h) -> consistent (step Start (v, h)).
Proof.
  unfold consistent, step, start, startCall. destruct v as [p r y]. simpl. intros [H1 H2].
  destruct r; [done|]. unfold startPolling. rewrite H1. simpl.
  destruct (pollInterval p); [by destruct H2|]. destruct H2 as [_ ->]. done.
Qed.

Lemma consistent_stop v h : consistent (v, h) -> consistent (step Stop (v, h)).
Proof.
  unfold consistent, step, stop. destruct v as [p r y]. simpl. intros [H1 H2].
  destruct r; simpl; [|done]. split; [done|]. split; [done|].
  destruct (pollInterval p) as [handle|]; [|by destruct H2].
  destruct H2 as [_ H2]. unfold clearInterval. simpl. rewrite H2. simpl.
  by rewrite Nat.eqb_refl.
Qed.

Lemma consistent_update n now v h :
  consistent (v, h) -> consistent (step (UpdatePollInterval n now) (v, h)).
Proof.
  intros H. unfold step, updatePollInterval, updateCall.
  destruct (_ || _); [done|].
  destruct (serviceRunning v) eqn:Er.
  - pose proof (consistent_stop v h H) as Hs. unfold step in Hs.
    destruct (stop v h) as [v1 h1] eqn:Es.
    assert (serviceRunning v1 = false /\ armed h1 = []) as [Hr Ha].
    { unfold consistent in Hs. destruct Hs as [_ Hs].
      unfold stop in Es. rewrite Er in Es. simpl in Es. injection Es as <- <-. simpl in *.
      done. }
    unfold startCall. simpl. rewrite Hr. unfold startPolling. simpl.
    unfold consistent. simpl. by rewrite Ha.
  - unfold consistent in *. simpl. destruct H as [H1 H2].
    rewrite Er in *. split; [done|]. split; [done|].
    destruct (pollInterval (pollingStrategy v)); by destruct H2.
Qed.

(** X27. Whatever sequence of start, stop and interval changes the service
    goes through, each call awaited before the next is made, it polls with
    exactly one timer, of the interval of its current strategy, while it
    runs, and with none while it is stopped; no timer is left behind.
    The await matters: [start()] sets [isRunning] only when it resumes, and
    an interval change made on a new service before a [start()] has resumed
    leaves the timer of the replaced strategy armed, while the service
    runs with a strategy that holds no timer. *)
Theorem service_keeps_one_timer (configured : float) (now : Z) (ops : list operation) :
  (let '(v, h) := run ops (newService configured now, {| armed := []; fresh := 0 |}) in
   isRunning (pollingStrategy v) = serviceRunning v
   /\ armed h = (if serviceRunning v
                 then option_list ((fun handle => (handle, syncInterval (pollingStrategy v)))
                                     <$> pollInterval (pollingStrategy v))
                 else [])
   /\ length (armed h) = (if serviceRunning v then 1 else 0))
  /\ (let '(v, h) := startThenUpdate 60000 now
                       (newService configured now, {| armed := []; fresh := 0 |}) in
      serviceRunning v = true /\ pollInterval (pollingStrategy v) = None
      /\ armed h = [(0, configured)]).
Proof.
  split; [|done].
  assert (consistent (run ops (newService configured now, {| armed := []; fresh := 0 |}))) as H.
  { unfold run. induction ops as [|o ops IH] using rev_ind; [done|].
    rewrite foldl_app. simpl.
    destruct (foldl _ _ ops) as [v h].
    destruct o; [by apply consistent_start | by apply consistent_stop
                | by apply consistent_update]. }
  destruct (run ops _) as [v h]. unfold consistent in H. destruct H as [H1 H2].
  split; [done|].
  destruct (pollInterval (pollingStrategy v)) as [handle|]; destruct H2 as [-> ->]; done.
Qed.

End ServiceFacts.

(** ** The requests of the Trello service *)

Module HttpFacts.
Import Notion Trello Mapping Remote JsFacts Vocabulary Http.

Section Objects.
Context {A : Type}.
Implicit Types (o : obj A).

Lemma get_fold_set (l : list (string * A)) o k :
  List.NoDup (map fst l) ->
  get (foldl (fun acc kv => set acc (fst kv) (snd kv)) o l) k
  = match get l k with Some v => Some v | None => get o k end.
Proof.
  revert o. induction l as [|[k' v'] l IH]; intros o Hnd; [done|].
  inversion Hnd as [|? ? Hnot Hnd']; subst. simpl. rewrite IH by done.
  destruct (String.eqb k' k) eqn:E.
  - apply String.eqb_eq in E. subst k'.
    assert (get l k = None) as -> by (by apply get_None_keys).
    apply get_set_eq.
  - apply String.eqb_neq in E. destruct (get l k); [done|]. by apply get_set_ne.
Qed.

Lemma get_entries o k : List.NoDup (map fst o) -> get (entries o) k = get o k.
Proof.
  intros Hnd. pose proof (NoDup_keys_entries o Hnd) as Hnd'.
  destruct (get o k) as [v|] eqn:E.
  - apply In_get; [done|]. apply In_entries. by apply In_get.
  - apply get_None_keys. apply get_None_keys in E. intros Hin. apply E.
    eapply Permutation_in; [|exact Hin]. apply Permutation_map, entries_perm.
Qed.

Lemma get_spread (target source : obj A) k :
  List.NoDup (map fst source) ->
  get (spread target source) k
  = match get source k with Some v => Some v | None => get target k end.
Proof.
  intros Hnd. unfold spread. rewrite get_fold_set by (by apply NoDup_keys_entries).
  by rewrite get_entries.
Qed.

Lemma get_remove_eq o k : get (remove k o) k = None.
Proof.
  induction o as [|[k' v'] o IH]; simpl; [done|].
  destruct (String.eqb k' k) eqn:E; simpl; [done|]. by rewrite E.
Qed.

Lemma get_remove_ne o k k' : k <> k' -> get (remove k o) k' = get o k'.
Proof.
  intros Hne. induction o as [|[k0 v0] o IH]; simpl; [done|].
  destruct (String.eqb k0 k) eqn:E; simpl.
  - apply String.eqb_eq in E. subst k0.
    destruct (String.eqb k k') eqn:E'; [by apply String.eqb_eq in E' | done].
  - by rewrite IH.
Qed.

Lemma NoDup_keys_fold (l : list (string * A)) o :
  List.NoDup (map fst o) ->
  List.NoDup (map fst (foldl (fun acc kv => set acc (fst kv) (snd kv)) o l)).
Proof.
  revert o. induction l as [|[k v] l IH]; intros o Hnd; [done|].
  simpl. apply IH. by apply NoDup_keys_set.
Qed.

Lemma NoDup_keys_remove o k : List.NoDup (map fst o) -> List.NoDup (map fst (remove k o)).
Proof.
  induction o as [|[k' v'] o IH]; simpl; [done|]. intros Hnd.
  inversion Hnd as [|? ? Hnot Hnd']; subst.
  destruct (negb _); [|auto]. simpl. constructor; [|auto].
  intros Hin. apply Hnot. apply in_map_iff in Hin as (kv & <- & Hin).
  apply filter_In in Hin as [Hin _]. by apply in_map.
Qed.
End Objects.

(** X28. Every request [makeRequest] builds carries the key and the token
    of the service among its parameters, next to the parameters of the
    caller, which win over them.  Its URL is the base URL followed by the
    endpoint unless the options of the caller hold a [url], which then
    replaces it, and its method is GET unless they hold a [method]; every
    other option of the caller is passed on. *)
Theorem credentials_on_every_request (svc : trelloService) (endpoint : string)
        (options : obj json) :
  List.NoDup (map fst options) -> List.NoDup (map fst (paramsOf options)) ->
  exists params,
    get (makeRequest svc endpoint options) "params" = Some (JObject params)
    /\ get params "key" = Some (default (JValue (apiKey svc)) (get (paramsOf options) "key"))
    /\ get params "token"
       = Some (default (JValue (token svc)) (get (paramsOf options) "token"))
    /\ (forall k v, get (paramsOf options) k = Some v -> get params k = Some v)
    /\ get (makeRequest svc endpoint options) "url"
       = Some (default (jstring (baseUrl svc ++ endpoint)) (get options "url"))
    /\ get (makeRequest svc endpoint options) "method"
       = Some (default (jstring "GET") (get options "method"))
    /\ (forall k v, k <> "params" -> get options k = Some v ->
          get (makeRequest svc endpoint options) k = Some v).
Proof.
  intros Hopt Hpar. unfold makeRequest. cbv zeta.
  set (params := spread _ (paramsOf options)).
  set (method := match get options "method" with Some m => _ | None => _ end).
  set (base := [("method", method); _; _]).
  assert (List.NoDup (map fst base)) as Hbase.
  { simpl. repeat constructor; simpl; intros H; repeat destruct H as [H|H]; done. }
  assert (List.NoDup (map fst (remove "params" (spread base options)))) as Hcfg.
  { apply NoDup_keys_remove. unfold spread. by apply NoDup_keys_fold. }
  assert (forall k, k <> "params" ->
            get (set (spread [] (remove "params" (spread base options))) "params"
                     (JObject params)) k
            = match get options k with Some v => Some v | None => get base k end) as Hget.
  { intros k Hk. rewrite get_set_ne by done. rewrite get_spread by done.
    rewrite get_remove_ne by done. rewrite get_spread by done.
    destruct (get options k); [done|]. by destruct (get base k). }
  exists params. split; [apply get_set_eq|].
  split; [unfold params; rewrite get_spread by done; by destruct (get (paramsOf options) "key")|].
  split; [unfold params; rewrite get_spread by done;
          by destruct (get (paramsOf options) "token")|].
  split; [intros k v Hk; unfold params; rewrite get_spread by done; by rewrite Hk|].
  split; [rewrite Hget by done; by destruct (get options "url")|].
  split.
  - rewrite Hget by done. unfold base, method. simpl.
    by destruct (get options "method").
  - intros k v Hk Hv. rewrite Hget by done. by rewrite Hv.
Qed.

Section WithHost.
Context {host : Host}.

(** X29. Each request the service sends to the Board carries the key and
    the token of the service unchanged, goes to a URL under the base URL,
    and is a GET exactly when it is one of the three listings. *)
Theorem board_requests_carry_credentials (svc : trelloService) (c : call) (cfg : obj json) :
  requestOf svc c = Some cfg ->
  (exists params,
     get cfg "params" = Some (JObject params)
     /\ get params "key" = Some (JValue (apiKey svc))
     /\ get params "token" = Some (JValue (token svc)))
  /\ (exists path, get cfg "url" = Some (jstring (baseUrl svc ++ path)))
  /\ (get cfg "method" = Some (jstring "GET") <-> isListing c = true).
Proof.
  intros H. split; [|split].
  - destruct c; try discriminate H; injection H as <-;
      try (eexists; split; [reflexivity|]; split; reflexivity).
    match goal with |- context [optional _ ?x] => destruct x end; eexists; (split; [reflexivity|]; split; reflexivity).
  - destruct c; try discriminate H; injection H as <-; eexists; reflexivity.
  - destruct c; try discriminate H; injection H as <-;
      try (split; intros _; reflexivity);
      try (split; intros E; discriminate E).
Qed.
End WithHost.
End HttpFacts.

(** ** Two passes in succession *)

Module TwoPasses.
Import Notion Trello Mapping Remote Engine Spec Sim Vocabulary Replay.
Import JsFacts ListingFacts MappingFacts Rules PassFacts FullPass.
Import ValueFacts LookupFacts ExtractionFacts TallyFacts.

(** ** Changes of the items commute with the listing code *)

Section MapValues.
Context {A B : Type} (f : A -> B).

Lemma get_mapValues (o : obj A) k : get (mapValues f o) k = f <$> get o k.
Proof.
  induction o as [|[k' v] o IH]; simpl; [done|].
  by destruct (String.eqb k' k).
Qed.

Lemma set_mapValues (o : obj A) k v :
  set (mapValues f o) k (f v) = mapValues f (set o k v).
Proof.
  induction o as [|[k' v'] o IH]; simpl; [done|].
  destruct (String.eqb k' k); simpl; [done|]. by rewrite IH.
Qed.

Lemma insert_by_index_mapValues n (kv : string * A) l :
  insert_by_index n (fst kv, f (snd kv))
                  (map (fun x => (fst x, (fst (snd x), f (snd (snd x))))) l)
  = map (fun x => (fst x, (fst (snd x), f (snd (snd x))))) (insert_by_index n kv l).
Proof.
  induction l as [|[m kv'] l IH]; simpl; [done|].
  destruct (n <? m)%N; simpl; [done|]. by rewrite IH.
Qed.

Lemma index_keys_mapValues (o : obj A) :
  index_keys (mapValues f o)
  = map (fun x => (fst x, (fst (snd x), f (snd (snd x))))) (index_keys o).
Proof.
  induction o as [|[k v] o IH]; simpl; [done|].
  destruct (array_index k) as [n|]; [|done].
  rewrite IH. apply (insert_by_index_mapValues n (k, v)).
Qed.

Lemma entries_mapValues (o : obj A) : entries (mapValues f o) = mapValues f (entries o).
Proof.
  unfold entries, mapValues. rewrite map_app. f_equal.
  - fold (mapValues f o). rewrite index_keys_mapValues, !map_map. done.
  - induction o as [|[k v] o IH]; [done|]. cbn [map List.filter].
    unfold is_named in *. cbn [fst snd] in *.
    destruct (array_index k); [exact IH | cbn [map]; by f_equal].
Qed.

Lemma values_mapValues (o : obj A) : values (mapValues f o) = map f (values o).
Proof. unfold values. rewrite entries_mapValues. unfold mapValues. by rewrite !map_map. Qed.
End MapValues.

Section Commute.
Variable g : card -> card.
Hypothesis Hg : itemsOnly g.

Lemma groupsOf_map (key : card -> string) cards :
  (forall c, key (g c) = key c) ->
  groupsOf key (map g cards) = mapValues (map g) (groupsOf key cards).
Proof.
  intros Hkey. induction cards as [|c cards IH] using rev_ind; [done|].
  rewrite map_app. simpl. rewrite !groupsOf_snoc, IH. unfold add_to_group.
  rewrite Hkey, get_mapValues.
  destruct (get (groupsOf key cards) (key c)) as [grp|]; simpl.
  - rewrite <- set_mapValues. by rewrite map_app.
  - by rewrite <- set_mapValues.
Qed.

Lemma inheritedKey_map (key : card -> string) cards :
  (forall c, key (g c) = key c) -> inheritedKey key (map g cards) = inheritedKey key cards.
Proof.
  intros Hkey. unfold inheritedKey. induction cards as [|c cards IH]; simpl; [done|].
  by rewrite Hkey, IH.
Qed.

Lemma trimmedName_map c : trimmedName (g c) = trimmedName c.
Proof. unfold trimmedName. by destruct (Hg c) as (_ & -> & _). Qed.

Lemma card_id_map c : card_id (g c) = card_id c.
Proof. by destruct (Hg c) as (-> & _). Qed.

Lemma insert_by_date_map c l :
  insert_by_date (g c) (map g l) = map g (insert_by_date c l).
Proof.
  induction l as [|d l IH]; simpl; [done|].
  destruct (Hg c) as (_ & _ & _ & ->). destruct (Hg d) as (_ & _ & _ & ->).
  destruct (dateLastActivity d <? dateLastActivity c)%Z; simpl; [|done].
  by rewrite <- IH.
Qed.

Lemma sort_by_date_map l : sort_by_date (map g l) = map g (sort_by_date l).
Proof.
  induction l as [|c l IH]; simpl; [done|].
  by rewrite IH, insert_by_date_map.
Qed.

Lemma filter_map_same (p : card -> bool) l :
  (forall c, p (g c) = p c) -> List.filter p (map g l) = map g (List.filter p l).
Proof.
  intros Hp. induction l as [|c l IH]; simpl; [done|].
  rewrite Hp. destruct (p c); simpl; by rewrite IH.
Qed.

Lemma cardToKeep_map l : cardToKeep (map g l) = g <$> cardToKeep l.
Proof.
  destruct l as [|c [|d l]]; [done|done|].
  set (l' := c :: d :: l).
  set (outside := fun c => negb (String.eqb (idList c) contentCurriculumList)).
  set (original := fun c => negb (startsWith (card_id c) "688bc")).
  assert (forall x, cardToKeep (c :: d :: x)
                    = match List.filter outside (sort_by_date (c :: d :: x)) with
                      | k :: _ => Some k
                      | [] => match List.filter original (sort_by_date (c :: d :: x)) with
                              | k :: _ => Some k
                              | [] => head (sort_by_date (c :: d :: x))
                              end
                      end) as Hgen by done.
  assert (forall c d x, cardToKeep (c :: d :: x)
                    = match List.filter outside (sort_by_date (c :: d :: x)) with
                      | k :: _ => Some k
                      | [] => match List.filter original (sort_by_date (c :: d :: x)) with
                              | k :: _ => Some k
                              | [] => head (sort_by_date (c :: d :: x))
                              end
                      end) as Hgen' by done.
  unfold l' at 2. rewrite Hgen. fold l'.
  change (map g l') with (g c :: g d :: map g l). rewrite Hgen'.
  change (g c :: g d :: map g l) with (map g l').
  rewrite sort_by_date_map.
  rewrite (filter_map_same outside).
  2:{ intros x. unfold outside. by destruct (Hg x) as (_ & _ & -> & _). }
  rewrite (filter_map_same original).
  2:{ intros x. unfold original. by destruct (Hg x) as (-> & _). }
  destruct (List.filter outside (sort_by_date l')) as [|x xs]; [|reflexivity].
  destruct (List.filter original (sort_by_date l')) as [|y ys]; [|reflexivity].
  cbn [map]. by destruct (sort_by_date l').
Qed.

Lemma keptCards_map cards : keptCards (map g cards) = map g (keptCards cards).
Proof.
  unfold keptCards, keptOf. rewrite (groupsOf_map trimmedName) by apply trimmedName_map.
  rewrite entries_mapValues. unfold mapValues.
  induction (entries (groupsOf trimmedName cards)) as [|[k grp] l IH]; simpl; [done|].
  rewrite cardToKeep_map, map_app, IH. by destruct (cardToKeep grp).
Qed.

Lemma removeProblematicCards_map cards :
  removeProblematicCards (map g cards) = map g <$> removeProblematicCards cards.
Proof.
  rewrite !removeProblematicCards_spec, (inheritedKey_map trimmedName)
    by apply trimmedName_map.
  destruct (inheritedKey trimmedName cards); [done|]. simpl. by rewrite keptCards_map.
Qed.

Lemma uniqueCards_map cards : uniqueCards (map g cards) = map g (uniqueCards cards).
Proof.
  unfold uniqueCards, firstOfEach. rewrite (groupsOf_map card_id) by apply card_id_map.
  rewrite values_mapValues.
  induction (values (groupsOf card_id cards)) as [|grp l IH]; simpl; [done|].
  rewrite map_app, IH. by destruct grp.
Qed.

Lemma groupingRaises_map cards : groupingRaises (map g cards) = groupingRaises cards.
Proof.
  unfold groupingRaises. rewrite uniqueCards_map.
  rewrite (inheritedKey_map card_id) by apply card_id_map.
  by rewrite (inheritedKey_map trimmedName) by apply trimmedName_map.
Qed.

Lemma createCardMap_map cards : createCardMap (map g cards) = g <$> createCardMap cards.
Proof.
  induction cards as [|c cards IH] using rev_ind;
    [unfold createCardMap; simpl; by rewrite fmap_empty|].
  rewrite map_app. simpl. rewrite !createCardMap_snoc, IH, fmap_insert.
  by rewrite card_id_map.
Qed.
End Commute.

(** ** What a written item files *)

Lemma forallb_map {A B} (f : B -> bool) (g : A -> B) (l : list A) :
  forallb f (map g l) = forallb (fun x => f (g x)) l.
Proof. induction l as [|x l IH]; simpl; [done | by rewrite IH]. Qed.

Lemma forallb_ext {A} (f g : A -> bool) (l : list A) :
  (forall x, f x = g x) -> forallb f l = forallb g l.
Proof. intros H. induction l as [|x l IH]; simpl; [done | by rewrite H, IH]. Qed.

Lemma find_snoc {A} (p : A -> bool) l x :
  List.find p (l ++ [x])
  = match List.find p l with Some y => Some y | None => if p x then Some x else None end.
Proof.
  induction l as [|y l IH]; simpl; [done|]. by destruct (p y).
Qed.

Lemma lastWith_cons {A} (p : A -> bool) x l :
  lastWith p (x :: l)
  = match lastWith p l with Some y => Some y | None => if p x then Some x else None end.
Proof. unfold lastWith. simpl. apply find_snoc. Qed.

Lemma filed_cons fm k x l :
  filed fm k (x :: l)
  = match filed fm k l with
    | Some v => Some v
    | None => match fm !! idCustomField x with
              | Some name => if negb (String.eqb name "") && String.eqb name k
                             then Some (itemValueOf (item_value x)) else None
              | None => None
              end
    end.
Proof.
  unfold filed. rewrite lastWith_cons. destruct (lastWith _ l); [done|].
  destruct (fm !! idCustomField x) as [name|]; [|done].
  by destruct (negb (String.eqb name "") && String.eqb name k).
Qed.

Lemma extract_filed fs items (m : gmap string value) k :
  foldl (extractStep (fieldNames fs)) m items !! k
  = match filed (fieldNames fs) k items with Some v => Some v | None => m !! k end.
Proof.
  revert m. induction items as [|x l IH]; intros m; [done|].
  simpl. rewrite IH, filed_cons. destruct (filed (fieldNames fs) k l); [done|].
  unfold extractStep. destruct (fieldNames fs !! idCustomField x) as [name|]; [|done].
  destruct (String.eqb name "") eqn:E0; simpl; [done|].
  destruct (String.eqb name k) eqn:E.
  - apply String.eqb_eq in E. subst. by rewrite lookup_insert_eq.
  - apply String.eqb_neq in E. by rewrite lookup_insert_ne.
Qed.

Lemma filed_put fm k fid iv items :
  filed fm k (put_item fid iv items) = filed fm k items
  \/ (fm !! fid = Some k /\ filed fm k (put_item fid iv items) = Some (itemValueOf iv)).
Proof.
  induction items as [|x l IH]; simpl.
  - rewrite filed_cons. simpl. destruct (fm !! fid) as [name|] eqn:En; [|by left].
    destruct (String.eqb name "") eqn:E0; simpl; [by left|].
    destruct (String.eqb name k) eqn:E; [|by left].
    apply String.eqb_eq in E. subst. by right.
  - destruct (String.eqb (idCustomField x) fid) eqn:Ex.
    + apply String.eqb_eq in Ex. rewrite !filed_cons. simpl. rewrite Ex.
      destruct (filed fm k l); [by left|].
      destruct (fm !! fid) as [name|] eqn:En; [|by left].
      destruct (String.eqb name "") eqn:E0; simpl; [by left|].
      destruct (String.eqb name k) eqn:E; [|by left].
      apply String.eqb_eq in E. subst. by right.
    + rewrite !filed_cons. destruct IH as [->|[Hfid ->]]; [by left | by right].
Qed.

Lemma extract_items c fs :
  extractTrelloCustomFields c fs
  = foldl (extractStep (fieldNames fs)) ∅ (default [] (customFieldItems c)).
Proof.
  destruct (customFieldItems c) as [items|] eqn:E; [by apply extract_unfold|].
  unfold extractTrelloCustomFields. by rewrite E.
Qed.

Lemma extract_set_item c fs fid iv k :
  extractTrelloCustomFields (set_item fid iv c) fs !! k = extractTrelloCustomFields c fs !! k
  \/ (fieldNames fs !! fid = Some k
      /\ extractTrelloCustomFields (set_item fid iv c) fs !! k = Some (itemValueOf iv)).
Proof.
  rewrite !extract_items, !extract_filed. simpl.
  destruct (filed_put (fieldNames fs) k fid iv (default [] (customFieldItems c)))
    as [->|[Hfid ->]]; [by left | by right].
Qed.

Section Settled.
Context {host : Host}.
Variable w0 : stores.
Hypothesis Hdown : forall c, sim_down w0 c = false.
Hypothesis Hids : List.NoDup (map field_id (sim_fields w0)).
Hypothesis Hrefs : List.NoDup (map trelloIdOf (sim_entries w0)).

Lemma harmless_id : harmless (sim_fields w0) (sim_entries w0) (fun c => c).
Proof. by repeat split. Qed.

Lemma harmless_compose g1 g2 :
  harmless (sim_fields w0) (sim_entries w0) g1 -> harmless (sim_fields w0) (sim_entries w0) g2 -> harmless (sim_fields w0) (sim_entries w0) (fun c => g2 (g1 c)).
Proof.
  intros (Hi1 & Hu1 & Hf1) (Hi2 & Hu2 & Hf2). split; [|split].
  - intros c. destruct (Hi1 c) as (E1 & E2 & E3 & E4).
    destruct (Hi2 (g1 c)) as (F1 & F2 & F3 & F4).
    rewrite F1, F2, F3, F4. done.
  - intros c Hc. rewrite (Hu1 c Hc). by apply Hu2.
  - intros c e k He Hk H. apply Hf2; [|done|by apply Hf1].
    destruct (Hi1 c) as (-> & _). done.
Qed.

Lemma itemsOnly_set_item cid fid iv :
  itemsOnly (fun c => if String.eqb (card_id c) cid then set_item fid iv c else c).
Proof. intros c. by destruct (String.eqb (card_id c) cid). Qed.

Lemma harmless_write cid fid iv :
  justified (sim_fields w0) (sim_entries w0) cid fid iv ->
  harmless (sim_fields w0) (sim_entries w0) (fun c => if String.eqb (card_id c) cid then set_item fid iv c else c).
Proof.
  intros [Href Hj]. split; [apply itemsOnly_set_item|]. split.
  - intros c Hc. destruct (String.eqb (card_id c) cid) eqn:E; [|done].
    apply String.eqb_eq in E. congruence.
  - intros c e k He Hk H. destruct (String.eqb (card_id c) cid) eqn:E; [|done].
    apply String.eqb_eq in E. unfold field in *.
    destruct (extract_set_item c (sim_fields w0) fid iv k) as [->|[Hfid ->]]; [done|].
    simpl. apply Hj; [done | done | by rewrite <- E].
Qed.

Lemma settledFrom_refl : settledFrom w0 w0.
Proof.
  repeat (split; [done|]). exists (fun c => c). split; [apply harmless_id|].
  by rewrite map_id.
Qed.

Lemma settledFrom_write w cid fid iv :
  settledFrom w0 w -> justified (sim_fields w0) (sim_entries w0) cid fid iv ->
  settledFrom w0 (on_card cid (set_item fid iv) w).
Proof.
  intros (H1 & H2 & H3 & H4 & g & Hg & Hc) Hj.
  repeat (split; [done|]).
  exists (fun c => (fun c => if String.eqb (card_id c) cid then set_item fid iv c else c) (g c)).
  split.
  { apply (harmless_compose g (fun c => if String.eqb (card_id c) cid
                                        then set_item fid iv c else c));
      [done | by apply harmless_write]. }
  unfold on_card. simpl. by rewrite Hc, map_map.
Qed.

(** *** Computations that keep the stores settled *)

Lemma keeps_ret {A} (a : A) : keeps w0 (ret a).
Proof. intros s Hs. by apply post_ret. Qed.

Lemma keeps_throw {A} : keeps w0 (@throw stores A).
Proof. intros s Hs. by unfold post, throw. Qed.

Lemma keeps_modify f : keeps w0 (modify_stats f).
Proof. intros s Hs. by apply post_modify. Qed.

Lemma quiet_app t1 t2 : quiet (t1 ++ t2) <-> quiet t1 /\ quiet t2.
Proof. unfold quiet. by rewrite Forall_app. Qed.

Lemma keeps_bind {A B} (m : M stores A) (k : A -> M stores B) :
  keeps w0 m -> (forall a, keeps w0 (k a)) -> keeps w0 (bind m k).
Proof.
  intros Hm Hk s Hs. apply post_bind. eapply post_mono; [apply (Hm s Hs)|].
  intros [a|] s1 t1 H1; [|done]. unfold post.
  destruct (k a s1) as [[r2 s2] t2] eqn:E. intros Hq. apply quiet_app in Hq as [Hq1 Hq2].
  pose proof (Hk a s1 (H1 Hq1)) as H2. unfold post in H2. rewrite E in H2. auto.
Qed.

Lemma keeps_try {A} (m h : M stores A) : keeps w0 m -> keeps w0 h -> keeps w0 (try_catch m h).
Proof.
  intros Hm Hh s Hs. apply post_try. eapply post_mono; [apply (Hm s Hs)|].
  intros [a|] s1 t1 H1; [done|]. unfold post.
  destruct (h s1) as [[r2 s2] t2] eqn:E. intros Hq. apply quiet_app in Hq as [Hq1 Hq2].
  pose proof (Hh s1 (H1 Hq1)) as H2. unfold post in H2. rewrite E in H2. auto.
Qed.

Lemma keeps_forEach {A} (xs : list A) (body : A -> M stores unit) :
  Forall (fun x => keeps w0 (body x)) xs -> keeps w0 (forEach xs body).
Proof.
  induction 1 as [|x xs Hx _ IH]; simpl; [apply keeps_ret|].
  apply keeps_bind; [done | by intros _].
Qed.

Lemma keeps_loud {A} (m : M stores A) : loud m -> keeps w0 m.
Proof.
  intros Hm s _. eapply post_mono; [apply Hm|]. intros r s' t H Hq. by destruct H.
Qed.

Lemma loud_request c : quietCall c = false -> loud (request c).
Proof.
  intros Hc s. apply post_request; intros; intros Hq; apply Forall_cons in Hq as [Hq _];
    simpl in Hq; congruence.
Qed.

Lemma loud_bind {A B} (m : M stores A) (k : A -> M stores B) : loud m -> loud (bind m k).
Proof.
  intros Hm s. apply post_bind. eapply post_mono; [apply Hm|].
  intros [a|] s1 t1 H1; [|done]. unfold post. destruct (k a s1) as [[r2 s2] t2].
  intros Hq. apply quiet_app in Hq as [Hq _]. done.
Qed.

Lemma perform_settled w c :
  settledFrom w0 w -> perform c w = answer c w.
Proof.
  intros (_ & _ & _ & Hd & _). simpl. by rewrite Hd, Hdown.
Qed.

Lemma keeps_request c :
  match c with
  | T_updateCustomField cid fid v =>
      justified (sim_fields w0) (sim_entries w0) cid fid (numberItem (VString (toStr v)))
  | T_updateTextCustomField cid fid v => justified (sim_fields w0) (sim_entries w0) cid fid (textItem (VString v))
  | T_updateCheckboxCustomField cid fid v =>
      justified (sim_fields w0) (sim_entries w0) cid fid (checkedItem (VString (toStr v)))
  | _ => True
  end ->
  keeps w0 (request c).
Proof.
  intros Hc. destruct (quietCall c) eqn:Eq; [|by apply keeps_loud, loud_request].
  intros s Hs. unfold post, request. rewrite (perform_settled _ c Hs).
  destruct c; try discriminate Eq; simpl; intros _; try done;
    by apply settledFrom_write.
Qed.

(** *** The writes of the Database -> Board pass are justified *)

Lemma createCardMap_key cards k c : createCardMap cards !! k = Some c -> card_id c = k.
Proof.
  unfold createCardMap. rewrite (lookup_assignments card_id id). unfold lastWith.
  destruct (List.find _ (rev cards)) as [d|] eqn:E; [|done]. simpl. intros [= <-].
  apply find_some in E as [_ E]. by apply String.eqb_eq.
Qed.

Lemma lookup_only_entry es e :
  List.NoDup (map trelloIdOf es) -> In e es -> trelloIdOf e <> "" ->
  createNotionLookupMap es !! trelloIdOf e = Some e.
Proof.
  induction es as [|x es IH] using rev_ind; [done|].
  rewrite map_app. simpl. intros Hnd Hin Hne.
  apply NoDup_ListNoDup, NoDup_app in Hnd as (Hnd & Hdisj & _).
  rewrite createNotionLookupMap_snoc.
  apply in_app_or in Hin as [Hin|[<-|[]]].
  - assert (trelloIdOf x <> trelloIdOf e) as Hx.
    { intros E. apply (Hdisj (trelloIdOf e)).
      - apply list_elem_of_In. by apply in_map.
      - rewrite E. by apply list_elem_of_singleton. }
    destruct (String.eqb (trelloIdOf x) ""); [|rewrite lookup_insert_ne by done];
      apply IH; try done; by apply NoDup_ListNoDup.
  - destruct (String.eqb (trelloIdOf x) "") eqn:E; [by apply String.eqb_eq in E|].
    apply lookup_insert_eq.
Qed.

Lemma referenced es e : In e es -> trelloIdOf e <> "" ->
  existsb (references (trelloIdOf e)) es = true.
Proof.
  intros Hin Hne. apply existsb_exists. exists e. split; [done|]. unfold references.
  rewrite String.eqb_refl. destruct (String.eqb (trelloIdOf e) "") eqn:E; [|done].
  by apply String.eqb_eq in E.
Qed.

Lemma fieldMap_names fs k fid :
  List.NoDup (map field_id fs) ->
  createCustomFieldMap fs !! k = Some fid -> fieldNames fs !! fid = Some k.
Proof.
  intros Hnd. unfold createCustomFieldMap. rewrite (lookup_assignments field_name field_id).
  unfold lastWith. destruct (List.find _ (rev fs)) as [f|] eqn:E; [|done]. simpl.
  intros [= <-]. apply find_some in E as [Hin E]. apply String.eqb_eq in E. subst k.
  apply fieldNames_unique; [done|]. by apply in_rev.
Qed.

Lemma NoDup_copyNumber k (p : gmap string property) (o : obj value) :
  List.NoDup (map fst o) -> List.NoDup (map fst (copyNumber k p o)).
Proof.
  intros H. unfold copyNumber. destruct (p !! k) as [[| | |n| |]|]; try done.
  destruct (is_nullish n); [done|]. by apply NoDup_keys_set.
Qed.

Lemma pushed_value e k v :
  In (k, v) (entries (update_customFields (mapNotionToTrello e))) -> In k fieldsToCheck ->
  v = extractNumberValue (properties e !! k) /\ is_nullish v = false.
Proof.
  intros Hin Hk. apply (proj1 (In_entries _ _)) in Hin.
  apply In_get in Hin.
  2:{ unfold mapNotionToTrello. simpl. apply NoDup_keys_set.
      repeat apply NoDup_copyNumber. constructor. }
  pose proof (mapNotionToTrello_numbers e) as H. rewrite List.Forall_forall in H.
  rewrite (H k Hk) in Hin.
  destruct (properties e !! k) as [[| | |n| |]|]; try done.
  destruct (is_nullish n) eqn:En; [done|]. injection Hin as <-. done.
Qed.

Lemma hasChanged_printed v :
  is_nullish v = false ->
  hasChanged v (itemValueOf (numberItem (VString (toStr v)))) = false.
Proof.
  intros Hv. change (itemValueOf (numberItem (VString (toStr v)))) with (VString (toStr v)).
  unfold hasChanged. rewrite Hv. simpl.
  destruct v; try done; simpl; by rewrite String.eqb_refl.
Qed.

Lemma hasChanged_checked b :
  hasChanged (VBool b) (itemValueOf (checkedItem (VString (toStr (VBool b))))) = false.
Proof. by destruct b. Qed.

Lemma hasChanged_text s :
  hasChanged (VString s) (itemValueOf (textItem (VString s))) = false.
Proof. apply hasChanged_same. Qed.

Section Entry.
Variables (e : entry) (c : card).
Hypothesis He : In e (sim_entries w0).
Hypothesis Hlinked : trelloIdOf e <> "".
Hypothesis Hcard : card_id c = trelloIdOf e.

Lemma justified_other k fid iv :
  createCustomFieldMap (sim_fields w0) !! k = Some fid -> ~ In k fieldsToCheck ->
  justified (sim_fields w0) (sim_entries w0) (card_id c) fid iv.
Proof.
  intros Hfid Hk. split; [rewrite Hcard; by apply referenced|].
  intros k' e' Hk' Hn _. apply (fieldMap_names _ _ _ Hids) in Hfid.
  rewrite Hfid in Hn. injection Hn as <-. done.
Qed.

Lemma justified_numeric k fid v iv :
  createCustomFieldMap (sim_fields w0) !! k = Some fid ->
  In (k, v) (entries (update_customFields (mapNotionToTrello e))) ->
  (In k fieldsToCheck -> hasChanged v (itemValueOf iv) = false) ->
  justified (sim_fields w0) (sim_entries w0) (card_id c) fid iv.
Proof.
  intros Hfid Hin Hv. split; [rewrite Hcard; by apply referenced|].
  intros k' e' Hk' Hn He'. apply (fieldMap_names _ _ _ Hids) in Hfid.
  rewrite Hfid in Hn. injection Hn as <-.
  rewrite Hcard, (lookup_only_entry _ e Hrefs He Hlinked) in He'. injection He' as <-.
  destruct (pushed_value e k v Hin Hk') as [<- _]. by apply Hv.
Qed.

Lemma keeps_pushCustomField kv :
  In kv (entries (update_customFields (mapNotionToTrello e))) ->
  keeps w0 (pushCustomField c (createCustomFieldMap (sim_fields w0)) kv).
Proof.
  destruct kv as [k v]. intros Hin. unfold pushCustomField.
  destruct (createCustomFieldMap (sim_fields w0) !! k) as [fid|] eqn:Hfid; [|apply keeps_ret].
  destruct (negb (String.eqb fid "") && negb (is_nullish v)) eqn:Hgo; [|apply keeps_ret].
  apply andb_true_iff in Hgo as [_ Hv]. apply negb_true_iff in Hv.
  apply keeps_bind; [|intros _; apply keeps_ret].
  destruct (String.eqb k "synced") eqn:Es.
  - apply String.eqb_eq in Es. subst k. apply keeps_request.
    apply (justified_other "synced"); [done|]. unfold fieldsToCheck. simpl.
    intros H; repeat destruct H as [H|H]; done.
  - destruct v as [| |b|x|s0]; try discriminate Hv.
    + apply (keeps_request (T_updateCheckboxCustomField (card_id c) fid (VBool b))).
      apply (justified_numeric k fid (VBool b)); [done|done|]. intros _.
      apply hasChanged_checked.
    + apply (keeps_request (T_updateCustomField (card_id c) fid (VNumber x))).
      apply (justified_numeric k fid (VNumber x)); [done|done|]. intros _.
      by apply hasChanged_printed.
    + apply (keeps_request (T_updateTextCustomField (card_id c) fid s0)).
      apply (justified_numeric k fid (VString s0)); [done|done|]. intros _.
      apply hasChanged_text.
Qed.

Lemma keeps_pushCustomFields kvs :
  (forall kv, In kv kvs -> In kv (entries (update_customFields (mapNotionToTrello e)))) ->
  keeps w0 (pushCustomFields c (createCustomFieldMap (sim_fields w0)) kvs).
Proof.
  induction kvs as [|kv kvs IH]; intros Hall; simpl; [apply keeps_ret|].
  apply keeps_bind; [apply keeps_pushCustomField, Hall; by left|]. intros h.
  apply keeps_bind; [apply IH; intros kv' Hkv'; apply Hall; by right|].
  intros h'. apply keeps_ret.
Qed.

Lemma keeps_updateTrelloFromNotion rev :
  keeps w0 (updateTrelloFromNotion e c rev (createCustomFieldMap (sim_fields w0))).
Proof.
  unfold updateTrelloFromNotion. cbv zeta.
  apply keeps_bind.
  { destruct (update_name (mapNotionToTrello e)); [|apply keeps_ret].
    destruct (hasChanged _ _); [|apply keeps_ret].
    apply keeps_loud, loud_bind, loud_request. reflexivity. }
  intros h1. apply keeps_bind.
  { destruct (get rev _); [|apply keeps_ret].
    destruct (_ && _); [|apply keeps_ret].
    apply keeps_loud, loud_bind, loud_request. reflexivity. }
  intros h2. apply keeps_bind; [by apply keeps_pushCustomFields|].
  intros h3. apply keeps_bind.
  { destruct (createCustomFieldMap (sim_fields w0) !! "Total Score") as [fid|] eqn:Hfid;
      [|apply keeps_ret].
    destruct (_ && _); [|apply keeps_ret].
    apply keeps_bind; [|intros _; apply keeps_ret]. apply keeps_request.
    apply (justified_other "Total Score"); [done|]. unfold fieldsToCheck. simpl.
    intros H; repeat destruct H as [H|H]; done. }
  intros h4. apply keeps_bind.
  { destruct (createCustomFieldMap (sim_fields w0) !! "Notion Link") as [fid|] eqn:Hfid;
      [|apply keeps_ret].
    destruct (String.eqb fid ""); [apply keeps_ret|].
    destruct (hasChanged _ _); [|apply keeps_ret].
    apply keeps_bind; [|intros _; apply keeps_ret]. apply keeps_request.
    apply (justified_other "Notion Link"); [done|]. unfold fieldsToCheck. simpl.
    intros H; repeat destruct H as [H|H]; done. }
  intros h5. destruct (_ || _); [apply keeps_modify | apply keeps_ret].
Qed.
End Entry.

Lemma keeps_syncEntry rev cards e :
  In e (sim_entries w0) ->
  keeps w0 (syncEntry rev (createCustomFieldMap (sim_fields w0)) (createCardMap cards) e).
Proof.
  intros He. unfold syncEntry. cbv zeta.
  destruct (String.eqb (trelloIdOf e) "") eqn:E.
  - apply keeps_loud, loud_bind. unfold createTrelloCardFromNotion. cbv zeta.
    apply loud_bind, loud_request. reflexivity.
  - apply String.eqb_neq in E.
    destruct (createCardMap cards !! trelloIdOf e) as [c|] eqn:Ec; [|apply keeps_ret].
    apply createCardMap_key in Ec. by apply keeps_updateTrelloFromNotion.
Qed.

Lemma keeps_bind_ret {A B} (a : A) (k : A -> M stores B) :
  keeps w0 (k a) -> keeps w0 (bind (ret a) k).
Proof.
  intros Hk s Hs. specialize (Hk s Hs). unfold post, bind, ret in *.
  by destruct (k a s) as [[r s'] t].
Qed.

Lemma keeps_syncTotalScoreToTrello cards :
  keeps w0 (syncTotalScoreToTrello (sim_entries w0) (createCustomFieldMap (sim_fields w0))
                                   (Some (createCardMap cards))).
Proof.
  unfold syncTotalScoreToTrello.
  destruct (createCustomFieldMap (sim_fields w0) !! "Total Score") as [fid|] eqn:Hfid;
    [|apply keeps_ret].
  destruct (String.eqb fid ""); [apply keeps_ret|].
  apply keeps_bind_ret.
  apply keeps_forEach, List.Forall_forall. intros e He.
  apply keeps_try; [|apply keeps_modify]. unfold syncTotalScoreEntry. cbv zeta.
  destruct (String.eqb (trelloIdOf e) "") eqn:E; [apply keeps_ret|].
  apply String.eqb_neq in E.
  destruct (createCardMap cards !! trelloIdOf e) as [c|] eqn:Ec; [|apply keeps_ret].
  apply createCardMap_key in Ec.
  destruct (is_nullish _); [apply keeps_ret|].
  destruct (hasChanged _ _); [|apply keeps_ret].
  apply (keeps_request (T_updateCustomField (card_id c) fid
                          (extractNumericValue (properties e !! "Total Score")))).
  apply (justified_other e c He E Ec "Total Score"); [done|].
  unfold fieldsToCheck. simpl. intros H; repeat destruct H as [H|H]; done.
Qed.

(** *** What a quiet pass tells *)

Lemma loud_bind_ret {A B} (a : A) (k : A -> M stores B) : loud (k a) -> loud (bind (ret a) k).
Proof.
  intros Hk s. specialize (Hk s). unfold post, bind, ret in *.
  by destruct (k a s) as [[r s'] t].
Qed.

Lemma loud_try {A} (m h : M stores A) : loud m -> loud (try_catch m h).
Proof.
  intros Hm s. apply post_try. eapply post_mono; [apply Hm|].
  intros [a|] s1 t1 H1; [done|]. unfold post. destruct (h s1) as [[r2 s2] t2].
  intros Hq. apply quiet_app in Hq as [Hq _]. done.
Qed.

Lemma loud_updateTrelloFromNotion e c rev cfm :
  titleDiffers e c || groupDiffers rev e c = true ->
  loud (updateTrelloFromNotion e c rev cfm).
Proof.
  unfold titleDiffers, groupDiffers, updateTrelloFromNotion. cbv zeta. intros H.
  destruct (update_name (mapNotionToTrello e)) as [name|].
  - destruct (hasChanged (VString name) (VString (card_name c))).
    + apply loud_bind, loud_bind, loud_request. reflexivity.
    + apply loud_bind_ret. simpl in H.
      destruct (get rev _) as [target|]; [|done]. rewrite H.
      apply loud_bind, loud_bind, loud_request. reflexivity.
  - apply loud_bind_ret. simpl in H.
    destruct (get rev _) as [target|]; [|done]. rewrite H.
    apply loud_bind, loud_bind, loud_request. reflexivity.
Qed.

Lemma loud_syncEntry rev cfm m e :
  entryReconciled rev m e = false ->
  loud (try_catch (syncEntry rev cfm m e) (modify_stats incr_errors)).
Proof.
  unfold entryReconciled, syncEntry. cbv zeta. intros H. apply loud_try.
  destruct (String.eqb (trelloIdOf e) "").
  - apply loud_bind. unfold createTrelloCardFromNotion. cbv zeta.
    apply loud_bind, loud_request. reflexivity.
  - simpl in H. destruct (m !! trelloIdOf e) as [c|]; [|done].
    apply loud_updateTrelloFromNotion.
    destruct (titleDiffers e c), (groupDiffers rev e c); done.
Qed.

(** A quiet loop over the entries found every entry reconciled. *)
Lemma quiet_entries rev cfm m es (s : state stores) :
  post (forEach es (fun e => try_catch (syncEntry rev cfm m e) (modify_stats incr_errors))) s
       (fun r _ t => r = Ok tt /\ (quiet t -> forallb (entryReconciled rev m) es = true)).
Proof.
  revert s. induction es as [|e es IH]; intros s; simpl; [by apply post_ret|].
  apply post_bind. destruct (entryReconciled rev m e) eqn:E.
  - eapply post_mono; [apply (contained_caught _ (accounted_syncEntry rev cfm m e))|].
    intros r s1 t1 [-> _]. eapply post_mono; [apply IH|].
    intros r s2 t2 [-> H2]. split; [done|]. intros Hq. apply quiet_app in Hq as [_ Hq2].
    by apply H2.
  - eapply post_mono.
    { apply post_and; [apply (contained_caught _ (accounted_syncEntry rev cfm m e))
                      | apply (loud_syncEntry _ cfm _ _ E)]. }
    intros r s1 t1 [[-> _] Hl]. eapply post_mono; [apply IH|].
    intros r s2 t2 [-> _]. split; [done|]. intros Hq. apply quiet_app in Hq as [Hq1 _].
    by destruct Hl.
Qed.

Lemma loud_syncTrelloToNotion cards lm fs byId :
  groupingRaises cards = false ->
  forallb (fun u => is_nil (databaseCalls lm fs byId u)) (uniqueCards cards) = false ->
  loud (syncTrelloToNotion cards lm fs byId).
Proof.
  intros Hplain H s. eapply post_mono; [apply post_syncTrelloToNotion|].
  rewrite Hplain. intros r s' t (_ & Ht & _) Hq.
  assert (exists u, In u (uniqueCards cards) /\ databaseCalls lm fs byId u <> []) as (u & Hu & Hne).
  { clear -H. induction (uniqueCards cards) as [|u l IH]; [done|]. simpl in H.
    apply andb_false_iff in H as [H|H].
    - exists u. split; [by left|]. by destruct (databaseCalls lm fs byId u).
    - destruct (IH H) as (u' & ? & ?). exists u'. split; [by right | done]. }
  destruct (databaseCalls lm fs byId u) as [|call calls] eqn:Eu; [done|].
  assert (In call (map fst t)) as Hin.
  { rewrite Ht. apply in_flat_map. exists u. split; [done|]. rewrite Eu. by left. }
  pose proof (databaseCalls_kind lm fs byId u) as Hk. rewrite Eu in Hk.
  apply Forall_cons in Hk as [Hk _].
  apply in_map_iff in Hin as (ev & <- & Hev).
  unfold quiet in Hq. rewrite List.Forall_forall in Hq. specialize (Hq ev Hev).
  by destruct (fst ev).
Qed.

(** *** The passes keep the stores settled *)

Lemma keeps_getCards : keeps w0 getCards.
Proof.
  unfold getCards. apply keeps_bind; [by apply keeps_request|]. intros cards.
  destruct (removeProblematicCards cards); [apply keeps_ret | apply keeps_throw].
Qed.

Lemma keeps_syncNotionToTrello rev :
  keeps w0 (syncNotionToTrello (sim_entries w0) rev (createCustomFieldMap (sim_fields w0))).
Proof.
  unfold syncNotionToTrello. apply keeps_bind; [apply keeps_getCards|]. intros cards.
  apply keeps_bind; [|intros _; apply keeps_syncTotalScoreToTrello].
  apply keeps_forEach, List.Forall_forall. intros e He.
  apply keeps_try; [|apply keeps_modify]. by apply keeps_syncEntry.
Qed.

(** *** The listings of stores that answer *)

Lemma getCards_up (s : state stores) :
  (forall c, sim_down (world s) c = false) ->
  getCards s
  = (match removeProblematicCards (sim_cards (world s)) with
     | Some kept => Ok kept
     | None => Throw
     end, s, [(T_getCards, true)]).
Proof.
  intros Hs. destruct s as [w st]. simpl in Hs.
  unfold getCards, bind, request. simpl. rewrite (Hs T_getCards). simpl.
  by destruct (removeProblematicCards (sim_cards w)).
Qed.

Lemma fetchAll_up (s : state stores) :
  (forall c, sim_down (world s) c = false) ->
  fetchAll s
  = (match removeProblematicCards (sim_cards (world s)) with
     | Some kept => Ok (kept, sim_lists (world s), sim_fields (world s), sim_entries (world s))
     | None => Throw
     end, s,
     [(T_getCards, true); (T_getLists, true); (T_getCustomFields, true); (N_getEntries, true)]).
Proof.
  intros Hs. unfold fetchAll, bind at 1, settle at 1. rewrite (getCards_up _ Hs).
  destruct s as [w st]. simpl in Hs.
  unfold getLists, getCustomFields, getEntries, bind, settle, request. simpl.
  rewrite !Hs. simpl.
  by destruct (removeProblematicCards (sim_cards w)).
Qed.

(** *** What a calm pass found *)

Lemma calm_app t1 t2 : calm (t1 ++ t2) <-> calm t1 /\ calm t2.
Proof. unfold calm. by rewrite Forall_app. Qed.

Lemma calm_quiet t :
  calm t -> Forall (fun ev => notDeletion (fst ev) = true) t -> quiet t.
Proof.
  unfold calm, quiet. intros Hc Hn. induction t as [|[c ok] t IH]; [done|].
  apply Forall_cons in Hc as [Hc Hc'], Hn as [Hn Hn']. apply Forall_cons. split; [|by apply IH].
  simpl in *. unfold calmCall in Hc. by destruct c.
Qed.

Lemma quiet_syncTrelloToNotion cards lm fs byId (s : state stores) :
  post (syncTrelloToNotion cards lm fs byId) s (fun r s' t =>
    r <> Throw -> quiet t ->
    groupingRaises cards = false
    /\ forallb (fun u => is_nil (databaseCalls lm fs byId u)) (uniqueCards cards) = true
    /\ s' = s).
Proof.
  destruct (groupingRaises cards) eqn:Hg.
  { rewrite syncTrelloToNotion_spec, Hg. unfold post, throw. done. }
  destruct (forallb _ (uniqueCards cards)) eqn:Hdb.
  - unfold post. by rewrite (syncTrelloToNotion_noop _ _ _ _ _ Hg Hdb).
  - eapply post_mono; [apply (loud_syncTrelloToNotion _ _ _ _ Hg Hdb)|].
    intros r s' t Hl _ Hq. by destruct Hl.
Qed.

Lemma quiet_syncNotionToTrello kept es rev cfm (s : state stores) :
  (forall c, sim_down (world s) c = false) ->
  removeProblematicCards (sim_cards (world s)) = Some kept ->
  post (syncNotionToTrello es rev cfm) s (fun r _ t =>
    r <> Throw -> quiet t -> forallb (entryReconciled rev (createCardMap kept)) es = true).
Proof.
  intros Hs Hkept. unfold syncNotionToTrello. apply post_bind.
  unfold post at 1. rewrite (getCards_up _ Hs), Hkept. apply post_bind.
  eapply post_mono; [apply quiet_entries|]. intros r s3 t3 [-> H3].
  eapply post_mono; [apply contained_syncTotalScoreToTrello|]. intros r s4 t4 _.
  intros _ Hq. apply Forall_cons in Hq as [_ Hq]. apply quiet_app in Hq as [Hq3 _].
  by apply H3.
Qed.

(** *** What the deletion pass leaves *)

Lemma filter_all {A} (l : list A) : List.filter (fun _ => true) l = l.
Proof. induction l as [|x l IH]; simpl; [done | by rewrite IH]. Qed.

Lemma filter_twice {A} (p q : A -> bool) (l : list A) :
  List.filter p (List.filter q l) = List.filter (fun x => q x && p x) l.
Proof.
  induction l as [|x l IH]; simpl; [done|].
  destruct (q x); simpl; [|done]. destruct (p x); by rewrite IH.
Qed.

Lemma without_nil es : without [] es = es.
Proof. apply filter_all. Qed.

Lemma without_cons i ids es :
  without (i :: ids) es
  = without ids (List.filter (fun e => negb (String.eqb (entry_id e) i)) es).
Proof.
  unfold without. rewrite filter_twice. apply filter_ext. intros e. simpl.
  by rewrite negb_orb.
Qed.

Lemma with_entries_same w : with_entries w (sim_entries w) = w.
Proof. by destruct w. Qed.

Lemma NoDup_map_inj {A B} (f : A -> B) (l : list A) x y :
  List.NoDup (map f l) -> In x l -> In y l -> f x = f y -> x = y.
Proof.
  induction l as [|a l IH]; [done|]. simpl. intros Hnd Hx Hy E.
  apply List.NoDup_cons_iff in Hnd as [Ha Hnd].
  destruct Hx as [->|Hx], Hy as [->|Hy]; [done| | |by apply IH].
  - destruct Ha. rewrite E. by apply in_map.
  - destruct Ha. rewrite <- E. by apply in_map.
Qed.

Lemma without_marked (p : entry -> bool) es :
  List.NoDup (map entry_id es) ->
  without (map entry_id (List.filter p es)) es = List.filter (fun e => negb (p e)) es.
Proof.
  intros Hnd. unfold without. apply filter_ext_in. intros e He. f_equal.
  destruct (p e) eqn:E.
  - apply existsb_exists. exists (entry_id e). split; [|apply String.eqb_refl].
    apply in_map, filter_In. by split.
  - apply not_true_is_false. intros H. apply existsb_exists in H as (i & Hi & Heq).
    apply String.eqb_eq in Heq. apply in_map_iff in Hi as (e' & Hid & He').
    apply filter_In in He' as [He' Hp].
    assert (e' = e) as -> by (apply (NoDup_map_inj entry_id es); congruence).
    congruence.
Qed.

Lemma archive_loop cardMap es (s : state stores) :
  (forall c, sim_down (world s) c = false) ->
  post (forEach es (fun e => try_catch (deleteEntryIfMarked cardMap e)
                                       (modify_stats incr_errors))) s
       (fun r s' _ =>
          r = Ok tt
          /\ world s'
             = with_entries (world s)
                 (without (map entry_id (List.filter (entryMarkedForDeletion cardMap) es))
                          (sim_entries (world s)))).
Proof.
  revert s. induction es as [|e es IH]; intros s Hs; simpl.
  - apply post_ret. split; [done|]. by rewrite without_nil, with_entries_same.
  - apply post_bind. unfold try_catch, deleteEntryIfMarked.
    destruct (entryMarkedForDeletion cardMap e) eqn:E.
    + unfold post at 1, bind, request, modify_stats. simpl.
      rewrite (Hs (N_deletePage (entry_id e))). simpl.
      eapply post_mono; [apply IH; exact Hs|]. simpl.
      intros r s' t [-> Hw]. split; [done|]. rewrite Hw, without_cons. reflexivity.
    + unfold post at 1. simpl.
      eapply post_mono; [apply IH; exact Hs|]. by intros r s' t [-> Hw].
Qed.

Lemma delete_loop fid entryMap cards (s : state stores) :
  post (forEach cards (fun c => try_catch (deleteCardIfMarked fid entryMap c)
                                          (modify_stats incr_errors))) s
       (fun r s' t =>
          calm t ->
          world s' = world s
          /\ forallb (fun c => negb (cardMarkedForDeletion fid entryMap c)) cards = true).
Proof.
  revert s. induction cards as [|c cards IH]; intros s; simpl; [apply post_ret; by intros _|].
  apply post_bind. unfold try_catch, deleteCardIfMarked.
  destruct (cardMarkedForDeletion fid entryMap c) eqn:E.
  - unfold post at 1, bind, request, modify_stats.
    destruct (perform _ _) as [[v|] w']; simpl.
    + eapply post_mono; [apply IH|]. intros r s' t _ Hc.
      apply Forall_cons in Hc as [Hc _]. done.
    + eapply post_mono; [apply IH|]. intros r s' t _ Hc.
      apply Forall_cons in Hc as [Hc _]. done.
  - unfold post at 1. simpl. eapply post_mono; [apply IH|]. intros r s' t H Hc.
    destruct (H Hc) as [Hw Hf]. by split.
Qed.

Lemma deletion_leaves cards cfm (s : state stores) :
  (forall c, sim_down (world s) c = false) ->
  List.NoDup (map entry_id (sim_entries (world s))) ->
  post (handleDeletionSync cards (sim_entries (world s)) cfm) s (fun r s' t =>
    calm t ->
    world s'
    = with_entries (world s)
        (List.filter (fun e => negb (toArchive cards cfm e)) (sim_entries (world s)))
    /\ forallb (fun c => negb (toDelete (sim_entries (world s)) cfm c)) cards = true).
Proof.
  intros Hs Hnd. unfold handleDeletionSync, toArchive, toDelete.
  destruct (cfm !! "synced") as [fid|].
  2:{ apply post_ret. intros _. rewrite filter_all, with_entries_same.
      split; [done|]. by apply forallb_forall. }
  destruct (String.eqb fid "").
  { apply post_ret. intros _. simpl. rewrite filter_all, with_entries_same.
    split; [done|]. by apply forallb_forall. }
  cbv zeta. simpl. apply post_bind.
  eapply post_mono; [apply (archive_loop _ _ _ Hs)|]. intros r s1 t1 [-> Hw1].
  eapply post_mono; [apply delete_loop|]. intros r s2 t2 H2 Hc.
  apply calm_app in Hc as [_ Hc]. destruct (H2 Hc) as [Hw2 Hcards].
  rewrite Hw2, Hw1, (without_marked _ _ Hnd). split.
  - f_equal. apply filter_ext. intros e. by rewrite entryMarked_spec.
  - rewrite <- Hcards. apply forallb_ext. intros c. by rewrite cardMarked_spec.
Qed.

(** A pass that returns, having sent listings, custom field writes and
    archive calls only, found the cards and entries reconciled. *)
Lemma calm_reconcile kept (s : state stores) :
  List.NoDup (map entry_id (sim_entries w0)) ->
  world s = w0 -> removeProblematicCards (sim_cards w0) = Some kept ->
  post (reconcile kept (sim_lists w0) (sim_fields w0) (sim_entries w0)) s (fun r s' t =>
    r <> Throw -> calm t -> leftBy w0 kept (world s')).
Proof.
  intros Hpages Hw Hkept. unfold post, reconcile. cbv zeta.
  set (lm := createListMap (sim_lists w0)).
  set (rev := createListMapReverse (sim_lists w0)).
  set (cfm := createCustomFieldMap (sim_fields w0)).
  set (byId := createNotionLookupMap (sim_entries w0)).
  pose proof (notDeletion_syncTrelloToNotion kept lm (sim_fields w0) byId s) as D1.
  pose proof (quiet_syncTrelloToNotion kept lm (sim_fields w0) byId s) as F1.
  unfold post in D1, F1. unfold bind at 1.
  destruct (syncTrelloToNotion kept lm (sim_fields w0) byId s) as [[[[]|] s1] t1]; [|done].
  pose proof (notDeletion_syncNotionToTrello (sim_entries w0) rev cfm s1) as D2.
  unfold post in D2. unfold bind at 1.
  destruct (syncNotionToTrello (sim_entries w0) rev cfm s1) as [[[[]|] s2] t2] eqn:E2; [|done].
  unfold bind at 1.
  destruct (handleDeletionSync kept (sim_entries w0) cfm s2) as [[[[]|] s3] t3] eqn:E3; [|done].
  unfold get_stats. intros _ Hc.
  apply calm_app in Hc as [Hc1 Hc]. apply calm_app in Hc as [Hc2 Hc].
  apply calm_app in Hc as [Hc3 _].
  destruct (F1 ltac:(done) (calm_quiet _ Hc1 D1)) as (Hg & Hdb & ->).
  assert (forall c, sim_down (world s) c = false) as Hs by (by rewrite Hw).
  pose proof (quiet_syncNotionToTrello kept (sim_entries w0) rev cfm s Hs) as F2.
  pose proof (keeps_syncNotionToTrello rev s) as K2.
  unfold post in F2, K2. fold cfm in K2. rewrite E2 in F2, K2. rewrite Hw in F2, K2.
  specialize (F2 Hkept ltac:(done) (calm_quiet _ Hc2 D2)).
  specialize (K2 (settledFrom_refl) (calm_quiet _ Hc2 D2)).
  destruct K2 as (El & Ef & Ee & Ed & g & Hgh & Ec).
  assert (forall c, sim_down (world s2) c = false) as Hs2 by (by rewrite Ed).
  pose proof (deletion_leaves kept cfm s2 Hs2) as K3. unfold post in K3.
  rewrite Ee in K3. rewrite E3 in K3. destruct (K3 Hpages Hc3) as [Hw3 Hcards].
  unfold leftBy. cbv zeta. fold lm rev cfm byId. rewrite Hw3. simpl.
  rewrite El, Ef, Ed, Ec. repeat (split; [done|]).
  by exists g.
Qed.

Lemma calm_pass :
  List.NoDup (map entry_id (sim_entries w0)) ->
  post performSync (start w0) (fun r s1 t =>
    r <> Throw -> calm t ->
    exists kept,
      removeProblematicCards (sim_cards w0) = Some kept /\ leftBy w0 kept (world s1)).
Proof.
  intros Hpages. unfold performSync, resetStats. apply post_bind, post_modify. simpl.
  apply post_try, post_bind. unfold post at 1.
  rewrite fetchAll_up by exact Hdown. simpl.
  destruct (removeProblematicCards (sim_cards w0)) as [kept|] eqn:Hkept.
  2:{ apply post_bind, post_modify. unfold post, throw. done. }
  eapply post_mono; [by apply (calm_reconcile kept)|].
  intros [st|] s1 t1 Ht.
  - intros _ Hq. do 4 (apply Forall_cons in Hq as [_ Hq]).
    exists kept. split; [done|]. by apply Ht.
  - apply post_bind, post_modify. unfold post, throw. done.
Qed.

(** *** The pass after a calm pass *)

Lemma lookup_filter (p : entry -> bool) es k :
  (forall e, In e es -> references k e = true -> p e = true) ->
  createNotionLookupMap (List.filter p es) !! k = createNotionLookupMap es !! k.
Proof.
  induction es as [|x es IH] using rev_ind; [done|]. intros H.
  assert (createNotionLookupMap (List.filter p es) !! k = createNotionLookupMap es !! k) as IH'.
  { apply IH. intros e He. apply H, in_or_app. by left. }
  rewrite List.filter_app. simpl. rewrite createNotionLookupMap_snoc.
  destruct (p x) eqn:E.
  - rewrite createNotionLookupMap_snoc. destruct (String.eqb (trelloIdOf x) ""); [done|].
    destruct (decide (trelloIdOf x = k)) as [->|Hne].
    + by rewrite !lookup_insert_eq.
    + by rewrite !lookup_insert_ne.
  - rewrite app_nil_r, IH'.
    destruct (String.eqb (trelloIdOf x) "") eqn:E0; [done|].
    destruct (decide (trelloIdOf x = k)) as [Heq|Hne]; [|by rewrite lookup_insert_ne].
    assert (p x = true) as Hp; [|congruence].
    apply H; [apply in_or_app; right; by left|]. unfold references.
    rewrite E0, Heq. simpl. apply String.eqb_refl.
Qed.

Lemma databaseCalls_settled g lm byId u :
  harmless (sim_fields w0) (sim_entries w0) g ->
  byId !! card_id u = createNotionLookupMap (sim_entries w0) !! card_id u ->
  is_nil (databaseCalls lm (sim_fields w0) (createNotionLookupMap (sim_entries w0)) u) = true ->
  is_nil (databaseCalls lm (sim_fields w0) byId (g u)) = true.
Proof.
  intros (Hi & _ & Hf) Hby H. unfold databaseCalls in *.
  destruct (Hi u) as (E1 & E2 & E3 & E4). rewrite E1, Hby.
  destruct (createNotionLookupMap (sim_entries w0) !! card_id u) as [e|] eqn:Ee; [|done].
  destruct (shouldUpdateNotionEntry e u _ _) eqn:Hu; [done|].
  assert (shouldUpdateNotionEntry e (g u) (extractTrelloCustomFields (g u) (sim_fields w0))
                                  (listNameOf lm (g u)) = false) as ->; [|done].
  unfold shouldUpdateNotionEntry, listNameOf in *. rewrite E2, E3.
  destruct (hasChanged _ (VString (card_name u))); [done|].
  destruct (hasChanged _ (VString _)); [done|].
  apply not_true_is_false. intros Hex. apply existsb_exists in Hex as (k & Hk & Hc).
  rewrite (Hf u e k Ee Hk) in Hc; [done|].
  apply not_true_is_false. intros Hc'.
  assert (existsb (fun fieldName =>
                     hasChanged (extractNumberValue (properties e !! fieldName))
                                (field (extractTrelloCustomFields u (sim_fields w0)) fieldName))
                  fieldsToCheck = true) as Habs.
  { apply existsb_exists. by exists k. }
  congruence.
Qed.

Lemma entryReconciled_settled g rev cards e :
  itemsOnly g ->
  entryReconciled rev (createCardMap (map g cards)) e
  = entryReconciled rev (createCardMap cards) e.
Proof.
  intros Hi. unfold entryReconciled. rewrite (createCardMap_map g Hi), lookup_fmap.
  destruct (createCardMap cards !! trelloIdOf e) as [c|]; [|done]. simpl.
  unfold titleDiffers, groupDiffers.
  destruct (Hi c) as (_ & -> & -> & _). done.
Qed.

Lemma flat_map_nil {A B} (f : A -> list B) (l : list A) :
  (forall x, In x l -> f x = []) -> flat_map f l = [].
Proof.
  induction l as [|x l IH]; [done|]. intros H. simpl.
  rewrite (H x) by (by left). apply IH. intros y Hy. apply H. by right.
Qed.

Lemma deletionCalls_nil cards es cfm :
  forallb (fun e => negb (toArchive cards cfm e)) es = true ->
  forallb (fun c => negb (toDelete es cfm c)) cards = true ->
  is_nil (deletionCalls cards es cfm) = true.
Proof.
  unfold deletionCalls, toArchive, toDelete. intros Ha Ho.
  destruct (cfm !! "synced") as [fid|]; [|done].
  destruct (String.eqb fid ""); [done|]. simpl in *.
  rewrite !flat_map_nil; [done| |].
  - intros c Hc. eapply forallb_forall in Ho; [|exact Hc]. unfold deleteCalls.
    by destruct (orphanSynced fid es c).
  - intros e He. eapply forallb_forall in Ha; [|exact He]. unfold archiveCalls.
    by destruct (danglingSynced cards e).
Qed.

Lemma danglingSynced_map g cards e :
  itemsOnly g -> danglingSynced (map g cards) e = danglingSynced cards e.
Proof.
  intros Hi. unfold danglingSynced. rewrite forallb_map. f_equal.
  apply forallb_ext. intros c. by destruct (Hi c) as (-> & _).
Qed.

Lemma kept_not_archived kept cfm c e :
  In c kept -> references (card_id c) e = true -> toArchive kept cfm e = false.
Proof.
  intros Hc Hr. unfold toArchive. destruct (cfm !! "synced") as [fid|]; [|done].
  destruct (String.eqb fid ""); [done|]. simpl. unfold danglingSynced.
  apply andb_false_iff. right. apply not_true_is_false. intros H.
  eapply forallb_forall in H; [|exact Hc]. unfold references in Hr.
  apply andb_true_iff in Hr as [_ Hr]. apply String.eqb_eq in Hr.
  rewrite Hr, String.eqb_refl in H. done.
Qed.

Lemma reconciled_after g kept w :
  leftBy w0 kept w ->
  harmless (sim_fields w0) (sim_entries w0) g ->
  reconciled (map g kept) (sim_lists w0) (sim_fields w0) (sim_entries w) (map g kept) = true.
Proof.
  intros (Hg & Hdb & Hes & Hcards & _ & _ & _ & Ee & _) Hh. pose proof Hh as (Hi & Hu & _).
  rewrite Ee. unfold reconciled.
  apply andb_true_iff. split; [apply andb_true_iff; split|].
  - rewrite (uniqueCards_map g Hi), forallb_map. apply forallb_forall. intros u Hin.
    apply (databaseCalls_settled g _ _ u Hh).
    + apply lookup_filter. intros e He Hr.
      rewrite (kept_not_archived kept _ u e); [done| |done]. by apply uniqueCards_incl.
    + eapply forallb_forall in Hdb; [exact Hdb | exact Hin].
  - apply forallb_forall. intros e He. apply filter_In in He as [He _].
    rewrite (entryReconciled_settled g _ _ _ Hi).
    eapply forallb_forall in Hes; [exact Hes | exact He].
  - apply deletionCalls_nil.
    + apply forallb_forall. intros e He. apply filter_In in He as [_ He].
      unfold toArchive in *. destruct (createCustomFieldMap (sim_fields w0) !! "synced"); [|done].
      by rewrite (danglingSynced_map g _ _ Hi).
    + rewrite forallb_map. apply forallb_forall. intros c Hc.
      eapply forallb_forall in Hcards; [|exact Hc].
      unfold toDelete in *.
      destruct (createCustomFieldMap (sim_fields w0) !! "synced") as [fid|]; [|done].
      destruct (String.eqb fid ""); [done|]. simpl in *. unfold orphanSynced in *.
      destruct (Hi c) as (E1 & _). rewrite E1.
      destruct (existsb (references (card_id c)) (sim_entries w0)) eqn:Er.
      * apply existsb_exists in Er as (e & He & Hr).
        assert (forallb (fun e => negb (references (card_id c) e))
                        (List.filter
                           (fun e => negb (toArchive kept (createCustomFieldMap (sim_fields w0)) e))
                           (sim_entries w0)) = false) as ->; [|by rewrite andb_false_r].
        apply not_true_is_false. intros H.
        assert (In e (List.filter
                        (fun e => negb (toArchive kept (createCustomFieldMap (sim_fields w0)) e))
                        (sim_entries w0))) as He'.
        { apply filter_In. split; [done|]. by rewrite (kept_not_archived kept _ c e). }
        eapply forallb_forall in H; [|exact He']. by rewrite Hr in H.
      * rewrite (Hu c Er).
        rewrite <- negb_existsb, Er in Hcards. simpl in Hcards. rewrite andb_true_r in Hcards.
        apply negb_true_iff in Hcards. by rewrite Hcards.
Qed.

End Settled.

Section Succession.
Context {host : Host}.


End Succession.

End TwoPasses.


(** ** The hypotheses of the statements above, on concrete data *)

Module Examples.
Import Notion Trello Mapping Remote Engine Spec Sim Vocabulary Http Cases.


Lemma extracted_value_example :
  extractTrelloCustomFields scoredCard [totalScoreField; syncedField]
    !! field_name totalScoreField
  = Some (itemValueOf (item_value writtenScore)).
Proof.
  apply (ExtractionFacts.extracted_value_of_item
           scoredCard [totalScoreField; syncedField] [writtenScore] writtenScore
           totalScoreField).
  - reflexivity.
  - repeat constructor; simpl; tauto.
  - repeat constructor.
  - repeat constructor; simpl; intuition discriminate.
  - repeat constructor; simpl; intuition discriminate.
  - by left.
  - by left.
  - reflexivity.
  - discriminate.
  - reflexivity.
Defined.

(** A card with Reach 5 as a number and Effort "7" as a numeral. *)
Lemma written_entry_example :
  shouldUpdateNotionEntry (host := decimalHost)
    {| entry_id := "page-1";
       properties := mapTrelloToNotion taskFirst
                       {["Reach" := VNumber 5; "Effort" := VString "7"]} "Doing" |}
    taskFirst {["Reach" := VNumber 5; "Effort" := VString "7"]} "Doing" = false.
Proof.
  apply (MapperFacts.written_entry_compares_unchanged (host := decimalHost)).
  - discriminate.
  - apply Forall_cons_2; [right; left; reflexivity|].
    apply Forall_cons_2; [left; reflexivity|].
    apply Forall_cons_2; [right; right; exists "7"; split; vm_compute; reflexivity|].
    apply Forall_cons_2; [left; reflexivity|]. apply Forall_nil_2.
Defined.

Lemma default_list_example :
  defaultListId (createListMapReverse [doing]) "Doing"
  = match List.find (fun l => String.eqb (list_name l) "Doing") [doing] with
    | Some l => Some (list_id l)
    | None => list_id <$> head [doing]
    end.
Proof.
  apply (EnumerationFacts.default_list_of_new_card [doing] "Doing").
  - repeat constructor. simpl. tauto.
  - repeat constructor. discriminate.
  - repeat constructor. discriminate.
  - reflexivity.
Defined.

(** The board of the scenarios has a list for every new card. *)
Lemma new_card_list_example :
  defaultListId (createListMapReverse [doing]) "Marketing" = None <-> [doing] = [].
Proof.
  apply (EnumerationFacts.new_card_has_a_list [doing] "Marketing").
  - repeat constructor. discriminate.
  - reflexivity.
Defined.

(** Every dictionary of the scenarios, looked up at the id of the card. *)
Lemma lookup_example :
  createListMap [doing] !! "abc"
  = list_name <$> lastWith (fun l => String.eqb (list_id l) "abc") [doing]
  /\ get (createListMapReverse [doing]) "abc"
     = list_id <$> lastWith (fun l => String.eqb (list_name l) "abc") [doing]
  /\ createCustomFieldMap [syncedField] !! "abc"
     = field_id <$> lastWith (fun f => String.eqb (field_name f) "abc") [syncedField]
  /\ (Forall (fun c => card_id c <> "__proto__") [syncedCard] ->
      createCardMap [syncedCard] !! "abc"
      = lastWith (fun c => String.eqb (card_id c) "abc") [syncedCard])
  /\ (Forall (fun e => trelloIdOf e <> "__proto__") [syncedEntry] ->
      createNotionLookupMap [syncedEntry] !! "abc" = lastWith (references "abc") [syncedEntry]).
Proof.
  apply (LookupFacts.lookup_maps_last_wins [doing] [syncedField] [syncedCard] [syncedEntry]
           "abc").
  reflexivity.
Defined.

Lemma distinct_titles_example :
  exists kept,
    removeProblematicCards [scoreCard; orphanCard] = Some kept
    /\ Permutation kept [scoreCard; orphanCard]
    /\ (Forall (fun c => array_index (trimmedName c) = None) [scoreCard; orphanCard] ->
        kept = [scoreCard; orphanCard]).
Proof.
  apply (FilterFacts.distinct_titles_lose_no_card [scoreCard; orphanCard]).
  - vm_compute. repeat constructor; simpl; intuition discriminate.
  - repeat (apply List.Forall_cons; [vm_compute; reflexivity|]). apply List.Forall_nil.
Defined.

(** The two cards titled 'Task', as one listing response. *)
Lemma listing_filter_witness :
  exists kept,
    removeProblematicCards [taskFirst; taskSecond] = Some kept
    /\ List.NoDup (map trimmedName kept)
    /\ Forall (fun k => In k [taskFirst; taskSecond]
                        /\ Forall (fun d => trimmedName d = trimmedName k -> preferred k d)
                                  [taskFirst; taskSecond])
              kept
    /\ Forall (fun c => Exists (fun k => trimmedName k = trimmedName c) kept)
              [taskFirst; taskSecond]
    /\ Forall (fun k => Exists (fun u => card_id u = card_id k) (uniqueCards kept)) kept
    /\ let '(r, s', t) :=
         syncTrelloToNotion kept (createListMap [doing]) [] ∅
                            (start (board [taskFirst; taskSecond] [] [])) in
       r = Ok tt
       /\ map fst t
          = flat_map (databaseCalls (createListMap [doing]) [] ∅) (uniqueCards kept).
Proof.
  apply (FilterFacts.listing_keeps_one_per_title
           [taskFirst; taskSecond] (createListMap [doing]) [] ∅
           (start (board [taskFirst; taskSecond] [] []))).
  repeat (apply List.Forall_cons; [vm_compute; reflexivity|]). apply List.Forall_nil.
Defined.

(** Of two cards titled 'Task' the filter keeps the first. *)
Lemma kept_card_example :
  (outsideContentCurriculum taskSecond = true ->
   outsideContentCurriculum taskFirst = true /\ older taskFirst taskSecond)
  /\ (outsideContentCurriculum taskFirst = false -> originalId taskSecond = true ->
      originalId taskFirst = true /\ older taskFirst taskSecond)
  /\ (outsideContentCurriculum taskFirst = false -> originalId taskFirst = false ->
      older taskFirst taskSecond).
Proof.
  apply (FilterFacts.kept_card_is_preferred_and_oldest [taskFirst; taskSecond] [taskFirst]).
  - vm_compute. reflexivity.
  - left. reflexivity.
  - right. left. reflexivity.
  - vm_compute. reflexivity.
Defined.

(** What the filter keeps of the two cards titled 'Task' passes the filter
    unchanged. *)
Lemma filter_again_example : removeProblematicCards [taskFirst] = Some [taskFirst].
Proof.
  apply (FilterFacts.filter_is_idempotent [taskFirst; taskSecond] [taskFirst]).
  vm_compute. reflexivity.
Defined.

(** An entry without Trello ID, on a board without cards. *)
Lemma new_card_example :
  let '(r, s', t) :=
    try_catch (syncEntry (createListMapReverse [doing]) ∅ ∅ untitledEntry)
              (modify_stats incr_errors) (start untitledWorld) in
  r = Ok tt
  /\ (exists ok rest,
        t = (untitledCreation, ok) :: rest
        /\ match fst (perform untitledCreation (world (start untitledWorld))) with
           | Some newCard =>
               ok = true
               /\ exists ok2 rest2,
                    rest = (N_updateEntry (entry_id untitledEntry)
                                          {["Trello ID" := PRichText [card_id newCard]]}, ok2)
                           :: rest2
           | None => ok = false /\ rest = []
           end)
  /\ failures t <= 1
  /\ syncStats s' = if Nat.eqb (failures t) 0 then n2t_created (syncStats (start untitledWorld))
                    else incr_errors (syncStats (start untitledWorld)).
Proof.
  apply (CreationFacts.new_card_counted_when_linked
           (createListMapReverse [doing]) ∅ ∅ untitledEntry (start untitledWorld)).
  - reflexivity.
  - vm_compute. reflexivity.
Defined.

(** The synced marker of [syncedCard] as the checkbox writer leaves it. *)
Lemma written_fields_example :
  (forall b, item_value syncedItem = checkedBody (host := decimalHost) (VBool b) ->
     getTrelloCheckboxCustomFieldValue syncedCard "F2" = VBool b
     /\ itemValueOf (item_value syncedItem) = VBool b)
  /\ (forall s, s <> "" -> item_value syncedItem = textBody (host := decimalHost) (VString s) ->
        hasChanged (host := decimalHost)
                   (getTrelloTextCustomFieldValue syncedCard "F2") (VString s) = false)
  /\ (forall v, is_nullish v = false -> toStr (host := decimalHost) v <> "" ->
        item_value syncedItem = numberBody (host := decimalHost) v ->
        hasChanged (host := decimalHost) (getTrelloCustomFieldValue syncedCard "F2") v = false).
Proof.
  apply (RoundTripFacts.written_fields_read_back (host := decimalHost)
           syncedCard "F2" syncedItem).
  reflexivity.
Defined.

(** A card whose Total Score item holds the 42 of its entry. *)
Lemma score_left_alone_example :
  syncTotalScoreEntry "F1" (createCardMap [scoredCard]) scoreEntry (start scoreWorld)
  = (Ok tt, start scoreWorld, []).
Proof.
  apply (RoundTripFacts.score_once_written_is_left_alone
           "F1" (createCardMap [scoredCard]) scoreEntry scoredCard writtenScore
           (start scoreWorld)).
  - vm_compute. reflexivity.
  - reflexivity.
  - vm_compute. reflexivity.
  - vm_compute. discriminate.
Defined.

Lemma linked_card_example :
  let '(r, s', t) :=
    syncTrelloToNotion [syncedCard] (createListMap [doing]) [syncedField]
                       (createNotionLookupMap [createdEntry])
                       (start (board [syncedCard] [syncedField] [createdEntry])) in
  Forall (fun call => isCreation call = false)
         (operationsFor (card_id syncedCard) (map fst t)).
Proof.
  apply (CompositionFacts.linked_card_is_not_created_again
           [syncedCard] (createListMap [doing]) [syncedField] [createdEntry] createdEntry
           syncedCard ∅ "Doing").
  - by left.
  - reflexivity.
  - discriminate.
Defined.

(** A synced card without entry, alone on its board. *)
Lemma unreferenced_card_example :
  let '(r, s', t) := reconcile [orphanCard] [doing] [syncedField] [] (start orphanWorld) in
  match r with
  | Ok _ =>
      exists before between after,
        map fst t
        = before ++ [N_createEntry (propertiesOf (createListMap [doing]) [syncedField]
                                                 orphanCard)]
          ++ between ++ [T_deleteCard (card_id orphanCard)] ++ after
  | Throw =>
      exists before after,
        map fst t
        = before ++ [N_createEntry (propertiesOf (createListMap [doing]) [syncedField]
                                                 orphanCard)]
          ++ after ++ [T_getCards]
  end.
Proof.
  apply (CompositionFacts.unreferenced_synced_card_gets_entry_and_is_deleted
           [orphanCard] [doing] [syncedField] [] orphanCard "F2" (start orphanWorld)).
  - repeat (apply List.Forall_cons; [vm_compute; reflexivity|]). apply List.Forall_nil.
  - apply List.Forall_nil.
  - reflexivity.
  - reflexivity.
  - vm_compute. reflexivity.
  - discriminate.
  - reflexivity.
Defined.

(** The request that creates a card. *)
Lemma credentials_example :
  exists params,
    get (makeRequest demoService "/cards" creationOptions) "params" = Some (JObject params)
    /\ get params "key"
       = Some (default (JValue (apiKey demoService)) (get (paramsOf creationOptions) "key"))
    /\ get params "token"
       = Some (default (JValue (token demoService)) (get (paramsOf creationOptions) "token"))
    /\ (forall k v, get (paramsOf creationOptions) k = Some v -> get params k = Some v)
    /\ get (makeRequest demoService "/cards" creationOptions) "url"
       = Some (default (jstring (baseUrl demoService ++ "/cards")) (get creationOptions "url"))
    /\ get (makeRequest demoService "/cards" creationOptions) "method"
       = Some (default (jstring "GET") (get creationOptions "method"))
    /\ (forall k v, k <> "params" -> get creationOptions k = Some v ->
          get (makeRequest demoService "/cards" creationOptions) k = Some v).
Proof.
  apply (HttpFacts.credentials_on_every_request demoService "/cards" creationOptions).
  - repeat constructor; simpl; intuition discriminate.
  - repeat constructor; simpl; intuition discriminate.
Defined.

(** The listing of the lists of the board. *)
Lemma board_request_example :
  (exists params,
     get listsRequest "params" = Some (JObject params)
     /\ get params "key" = Some (JValue (apiKey demoService))
     /\ get params "token" = Some (JValue (token demoService)))
  /\ (exists path, get listsRequest "url" = Some (jstring (baseUrl demoService ++ path)))
  /\ (get listsRequest "method" = Some (jstring "GET") <-> isListing T_getLists = true).
Proof.
  apply (HttpFacts.board_requests_carry_credentials (host := decimalHost)
           demoService T_getLists listsRequest).
  reflexivity.
Defined.


End Examples.
